(** * Entropy: dependency expressions, version comparison, repository
      removal and resource locks

    A shallow embedding of four pieces of the Entropy package manager:

    - [libraries/entropy/dep.py]: [DependencyStringParser] (the boolean
      dependency expressions), [compare_versions] and
      [entropy_compare_versions];
    - [lib/entropy/client/interfaces/methods.py]: [RepositoryMixin]
      ([remove_repository], [open_repository], [_load_repository]) and
      [MiscMixin] (the reentrant resource lock).

    For the further properties at the end, more of the two files is
    embedded: the functions of [dep.py] on atom strings, [_generic_sorter]
    with [get_newer_version] and [get_entropy_newer_version], and of
    [methods.py] [_wait_resource] and [close_repositories].

    The code is Python 2 ([Dependency.__nonzero__] is the truth protocol of
    Python 2), so a [str] is a byte string: it is modelled as [string], the
    regular expression class [\d] is [0-9] and [str.strip()] removes the six
    ASCII white space characters.  Exceptions are values of [outcome]. *)

From Stdlib Require Import ZArith QArith Lia Ascii String List Bool.
From Stdlib Require Import DecimalString.
From Stdlib Require Import Sorted.
From stdpp Require Import gmap strings list.

Local Open Scope string_scope.
Local Open Scope list_scope.

(** ** Python values shared by the models *)

Inductive exn :=
| MalformedDependency
| TypeError
| ValueError
| IndexError
| KeyError
| AttributeError
| RepositoryError (msg : string)
| IOError (msg : string).

Inductive outcome (A : Type) :=
| Ret (a : A)
| Raise (e : exn).
Arguments Ret {A} a.
Arguments Raise {A} e.

(** Sequencing: an exception of the first computation is the exception
    of the whole. *)
#[global] Instance outcome_ret : MRet outcome := fun A a => Ret a.
#[global] Instance outcome_bind : MBind outcome := fun A B f m =>
  match m with
  | Ret a => f a
  | Raise e => Raise e
  end.

Module PyStr.

(** [string.whitespace] of a Python 2 byte string. *)
Definition is_space (c : ascii) : bool :=
  let n := nat_of_ascii c in
  (n =? 32)%nat || ((9 <=? n)%nat && (n <=? 13)%nat).

Fixpoint lstrip (s : string) : string :=
  match s with
  | EmptyString => EmptyString
  | String c r => if is_space c then lstrip r else s
  end.

(** Removes trailing white space: a character is kept when something is
    kept after it or when it is not white space. *)
Fixpoint rstrip (s : string) : string :=
  match s with
  | EmptyString => EmptyString
  | String c r =>
      match rstrip r with
      | EmptyString => if is_space c then EmptyString else String c EmptyString
      | r' => String c r'
      end
  end.

(** [s.strip()] *)
Definition strip (s : string) : string := rstrip (lstrip s).

(** Truth value of a string: [if s:] *)
Definition truthy (s : string) : bool :=
  match s with EmptyString => false | _ => true end.

(** [s += c] *)
Definition snoc (s : string) (c : ascii) : string :=
  String.append s (String c EmptyString).

(** [s.find(c)]: index of the first occurrence, [-1] when there is none. *)
Fixpoint find (c : ascii) (s : string) : Z :=
  match s with
  | EmptyString => (-1)%Z
  | String a r =>
      if Ascii.eqb a c then 0%Z
      else let i := find c r in if (i <? 0)%Z then (-1)%Z else (i + 1)%Z
  end.

(** [s.rfind(c)]: index of the last occurrence, [-1] when there is none. *)
Fixpoint rfind (c : ascii) (s : string) : Z :=
  match s with
  | EmptyString => (-1)%Z
  | String a r =>
      let i := rfind c r in
      if (0 <=? i)%Z then (i + 1)%Z
      else if Ascii.eqb a c then 0%Z else (-1)%Z
  end.

(** An index of a slice, as Python normalises it: a negative index counts
    from the end, and the result is clamped to [0 .. len]. *)
Definition slice_index (len i : Z) : Z :=
  let j := if (i <? 0)%Z then (i + len)%Z else i in
  Z.max 0 (Z.min len j).

(** [s[i:j]] *)
Definition slice (s : string) (i j : Z) : string :=
  let len := Z.of_nat (String.length s) in
  let a := slice_index len i in
  let b := slice_index len j in
  String.substring (Z.to_nat a) (Z.to_nat (b - a)) s.

End PyStr.

(** ** [DependencyStringParser] *)

Module DepParser.

Definition LOGIC_AND : string := "&".
Definition LOGIC_OR : string := "|".

(** What [__split_subs] builds: a list whose members are strings or,
    for a parenthesised group, lists again. *)
#[warnings="-register-all"]
Inductive item :=
| Str (s : string)
| Sub (l : list item).

(** [x == tok] for a string [tok]: a list never equals a string. *)
Definition is_tok (tok : string) (x : item) : bool :=
  match x with
  | Str s => String.eqb s tok
  | Sub _ => false
  end.

(** [tok in iterable] *)
Definition tok_in (tok : string) (iterable : list item) : bool :=
  existsb (is_tok tok) iterable.

(** [isinstance(x, list)] *)
Definition isinstance_list (x : item) : bool :=
  match x with
  | Sub _ => true
  | Str _ => false
  end.

(** [[x for x in iterable if x != tok]] *)
Definition drop_tok (tok : string) (iterable : list item) : list item :=
  List.filter (fun x => negb (is_tok tok x)) iterable.

(** The members of a list that holds no nested list. *)
Definition item_str (x : item) : string :=
  match x with
  | Str s => s
  | Sub _ => EmptyString
  end.

(** *** [__split_subs] and [__encode_sub]

    The two methods call each other, each time on a shorter string;
    [fuel] bounds the depth of these calls and [None] is the answer of
    a call that ran out of it ([encode_sub_enough_fuel] shows that the
    length of the string is enough). *)

Record split_state := {
  deep_count : Z;
  cur_str : string;
  subs : list item;
}.

(** [if cur_str.strip(): subs.append(cur_str.strip())] *)
Definition flush (cur : string) (subs : list item) : list item :=
  if PyStr.truthy (PyStr.strip cur) then subs ++ [Str (PyStr.strip cur)]
  else subs.

Section SplitLoop.

(** [self.__encode_sub], with one unit of fuel less. *)
Variable encode : string -> option (outcome (list item)).

(** One turn of [for char in substring:]. *)
Definition split_step (c : ascii) (st : split_state)
  : option (outcome split_state) :=
  let d := deep_count st in
  let cur := cur_str st in
  if Ascii.eqb c " " then Some (Ret st)
  else if Ascii.eqb c "(" && (d =? 0)%Z then
    Some (Ret {| deep_count := d + 1; cur_str := String c EmptyString;
                 subs := flush cur (subs st) |})
  else if Ascii.eqb c "(" then
    Some (Ret {| deep_count := d + 1; cur_str := PyStr.snoc cur c;
                 subs := subs st |})
  else if Ascii.eqb c "|" && (d =? 0)%Z then
    Some (Ret {| deep_count := d; cur_str := EmptyString;
                 subs := flush cur (subs st) ++ [Str (String c EmptyString)] |})
  else if Ascii.eqb c "&" && (d =? 0)%Z then
    Some (Ret {| deep_count := d; cur_str := EmptyString;
                 subs := flush cur (subs st) ++ [Str (String c EmptyString)] |})
  else if Ascii.eqb c ")" then
    let cur' := PyStr.snoc cur c in
    let d' := (d - 1)%Z in
    if (d' =? 0)%Z then
      match encode (PyStr.strip cur') with
      | None => None
      | Some (Raise e) => Some (Raise e)
      | Some (Ret deps) =>
          match deps with
          | [x] =>
              Some (Ret {| deep_count := d'; cur_str := EmptyString;
                           subs := subs st ++ [x] |})
          | _ :: _ =>
              Some (Ret {| deep_count := d'; cur_str := EmptyString;
                           subs := subs st ++ [Sub deps] |})
          | [] => Some (Raise MalformedDependency)
          end
      end
    else Some (Ret {| deep_count := d'; cur_str := cur'; subs := subs st |})
  else
    Some (Ret {| deep_count := d; cur_str := PyStr.snoc cur c;
                 subs := subs st |}).

Fixpoint split_loop (substring : string) (st : split_state)
  : option (outcome split_state) :=
  match substring with
  | EmptyString => Some (Ret st)
  | String c rest =>
      match split_step c st with
      | Some (Ret st') => split_loop rest st'
      | r => r
      end
  end.

(** [__split_subs(substring)] *)
Definition split_subs (substring : string) : option (outcome (list item)) :=
  match split_loop substring
          {| deep_count := 0; cur_str := EmptyString; subs := [] |} with
  | None => None
  | Some (Raise e) => Some (Raise e)
  | Some (Ret st) =>
      Some (Ret (if PyStr.truthy (cur_str st)
                 then subs st ++ [Str (PyStr.strip (cur_str st))]
                 else subs st))
  end.

End SplitLoop.

(** [__encode_sub(dep)].  A slice never raises [IndexError], so the
    [try] around it has no effect. *)
Fixpoint encode_sub_fuel (fuel : nat) (dep : string)
  : option (outcome (list item)) :=
  match fuel with
  | O => None
  | S fuel' =>
      let open_bracket := PyStr.find "(" dep in
      let closed_bracket := PyStr.rfind ")" dep in
      let substring := PyStr.slice dep (open_bracket + 1) closed_bracket in
      if negb (PyStr.truthy substring) then Some (Raise MalformedDependency)
      else
        match split_subs (encode_sub_fuel fuel') substring with
        | None => None
        | Some (Raise e) => Some (Raise e)
        | Some (Ret subs) =>
            match subs with
            | [] => Some (Raise MalformedDependency)
            | _ => Some (Ret subs)
            end
        end
  end.

Definition encode_sub (dep : string) : option (outcome (list item)) :=
  encode_sub_fuel (S (String.length dep)) dep.

(** *** [Dependency] and [__evaluate_subs] *)

Section Evaluate.

(** [entropy_repository.atomMatch], the repository's matcher: it
    returns a package id and a return code. *)
Variable atomMatch : string -> Z * Z.

(** [Dependency.__nonzero__]: the truth value of [Dependency(dep, repo)]. *)
Definition dependency (dep : string) : bool :=
  let '(pkg_id, rc) := atomMatch dep in (rc =? 0)%Z.

(** The value of [__evaluate_subs]: a pair, or [None] when the method
    reaches its end without a [return]. *)
Definition evaluated : Type := option (bool * list string).

Section Members.

(** [self.__evaluate_subs] on a member that is a list. *)
Variable evaluate : item -> outcome evaluated.

(** The loop of the [&] branch with nested lists, on the members that
    are not [&]; [outcomes] is the list built so far. *)
Fixpoint and_members (iterable : list item) (outcomes : list string)
  : outcome evaluated :=
  match iterable with
  | [] => Ret (Some (true, outcomes))
  | and_el :: rest =>
      if is_tok LOGIC_AND and_el then and_members rest outcomes
      else
        match and_el with
        | Sub _ =>
            match evaluate and_el with
            | Raise e => Raise e
            | Ret None => Raise TypeError
            | Ret (Some (matched, outcome)) =>
                if matched then and_members rest (outcomes ++ outcome)
                else Ret (Some (false, []))
            end
        | Str s =>
            if dependency s then and_members rest (outcomes ++ [s])
            else Ret (Some (false, []))
        end
  end.

(** The loop of the [|] branch with nested lists, on the members that
    are not [|]. *)
Fixpoint or_members (iterable : list item) : outcome evaluated :=
  match iterable with
  | [] => Ret (Some (false, []))
  | or_el :: rest =>
      if is_tok LOGIC_OR or_el then or_members rest
      else
        match or_el with
        | Sub _ =>
            match evaluate or_el with
            | Raise e => Raise e
            | Ret None => Raise TypeError
            | Ret (Some (matched, outcome)) =>
                if matched then Ret (Some (true, outcome))
                else or_members rest
            end
        | Str s =>
            if dependency s then Ret (Some (true, [s]))
            else or_members rest
        end
  end.

End Members.

(** The first member of a list of strings that matches, for the [|]
    branch without nested lists. *)
Fixpoint first_match (iterable : list string) : evaluated :=
  match iterable with
  | [] => Some (false, [])
  | or_el :: rest =>
      if dependency or_el then Some (true, [or_el]) else first_match rest
  end.

(** [__evaluate_subs] of the list that [group] holds.  The recursion is
    on the nesting of the lists, which is why the argument is the item
    and not its list; a string is never evaluated. *)
Fixpoint evaluate_item (group : item) : outcome evaluated :=
  match group with
  | Str _ => Ret None
  | Sub iterable =>
      if tok_in LOGIC_AND iterable && tok_in LOGIC_OR iterable then
        Raise MalformedDependency
      else
        let _subs := List.filter isinstance_list iterable in
        match _subs with
        | [] =>
            if tok_in LOGIC_AND iterable then
              let iterable := map item_str (drop_tok LOGIC_AND iterable) in
              if forallb dependency iterable then Ret (Some (true, iterable))
              else Ret (Some (false, []))
            else if tok_in LOGIC_OR iterable then
              let iterable := map item_str (drop_tok LOGIC_OR iterable) in
              Ret (first_match iterable)
            else Raise MalformedDependency
        | _ :: _ =>
            if tok_in LOGIC_AND iterable then
              and_members evaluate_item iterable []
            else if tok_in LOGIC_OR iterable then
              or_members evaluate_item iterable
            else Ret None
        end
  end.

Definition evaluate_subs (iterable : list item) : outcome evaluated :=
  evaluate_item (Sub iterable).

(** [parse()]: [None] stands for a run that was cut short by the fuel
    of [encode_sub] ([parse_terminates] shows there is none).  The
    unpacking [matched, matched_deps = ...] of a [None] raises
    [TypeError], which the [except] clause does not catch. *)
Definition parse (dep : string) : option (outcome (bool * list string)) :=
  match encode_sub (String.append "(" (String.append dep ")")) with
  | None => None
  | Some (Raise MalformedDependency) => Some (Ret (false, []))
  | Some (Raise e) => Some (Raise e)
  | Some (Ret subs) =>
      match evaluate_subs subs with
      | Raise MalformedDependency => Some (Ret (false, []))
      | Raise e => Some (Raise e)
      | Ret None => Some (Raise TypeError)
      | Ret (Some (matched, matched_deps)) =>
          Some (Ret (matched, matched_deps))
      end
  end.

End Evaluate.

End DepParser.


(** ** Version strings: [compare_versions], [entropy_compare_versions] *)

Module Version.

Definition is_digit (c : ascii) : bool :=
  let n := nat_of_ascii c in (48 <=? n)%nat && (n <=? 57)%nat.

Definition is_lower (c : ascii) : bool :=
  let n := nat_of_ascii c in (97 <=? n)%nat && (n <=? 122)%nat.

(** The longest prefix whose characters satisfy [p], and what follows
    it: a greedy run of digits when [p] is [is_digit]. *)
Fixpoint span (p : ascii -> bool) (s : string) : string * string :=
  match s with
  | EmptyString => (EmptyString, EmptyString)
  | String c r =>
      if p c then let '(m, rest) := span p r in (String c m, rest)
      else (EmptyString, s)
  end.

(** [Some rest] when [s = pre ++ rest]. *)
Fixpoint strip_prefix (pre s : string) : option string :=
  match pre, s with
  | EmptyString, _ => Some s
  | String a pre', String b s' =>
      if Ascii.eqb a b then strip_prefix pre' s' else None
  | String _ _, EmptyString => None
  end.

(** A starred group: [step] is applied as long as it matches;
    the matched text and the rest are returned.  Every match of a step
    takes at least one character, so the length of the string is fuel
    enough. *)
Fixpoint star (step : string -> option (string * string)) (fuel : nat)
    (s : string) : string * string :=
  match fuel with
  | O => (EmptyString, s)
  | S fuel' =>
      match step s with
      | None => (EmptyString, s)
      | Some (m, rest) =>
          let '(ms, rest') := star step fuel' rest in
          (String.append m ms, rest')
      end
  end.

(** One dotted segment: a dot and at least one digit. *)
Definition dotted_step (s : string) : option (string * string) :=
  match s with
  | String c r =>
      if Ascii.eqb c "." then
        let '(d, rest) := span is_digit r in
        if PyStr.truthy d then Some (String c d, rest) else None
      else None
  | EmptyString => None
  end.

(** An alternation of names: the alternatives are tried in order. *)
Fixpoint first_prefix (names : list string) (s : string)
  : option (string * string) :=
  match names with
  | [] => None
  | n :: names' =>
      match strip_prefix n s with
      | Some rest => Some (n, rest)
      | None => first_prefix names' s
      end
  end.

(** One suffix: [_], a name, digits. *)
Definition suffix_step (s : string) : option (string * string) :=
  match s with
  | String c r =>
      if Ascii.eqb c "_" then
        match first_prefix ["pre"; "p"; "beta"; "alpha"; "rc"] r with
        | Some (n, r') =>
            let '(d, rest) := span is_digit r' in
            Some (String c (String.append n d), rest)
        | None => None
        end
      else None
  | EmptyString => None
  end.

(** The groups of a match of [ver_regexp] that [compare_versions] reads:
    [group(2)], [group(3)], [group(5)], [group(6)] and [group(10)]
    ([None] when the revision is absent). *)
Record ver_match := {
  group2 : string;
  group3 : string;
  group5 : string;
  group6 : string;
  group10 : option string;
}.

(** [$]: the end of the string, or just before a newline that ends it. *)
Definition at_end (s : string) : bool :=
  match s with
  | EmptyString => true
  | String c EmptyString => (nat_of_ascii c =? 10)%nat
  | _ => false
  end.

(** [ver_regexp.match(s)].  The pattern is, in this order: an optional
    [cvs.] (group 1), digits (group 2), any number of [.digits] (group 3),
    an optional lower case letter (group 5), any number of suffixes
    [_name digits] with a name among pre, p, beta, alpha, rc (group 6),
    an optional [-r digits] (groups 9 and 10), and the end.
    No character that may follow a group can extend that group, so the
    greedy choice at each group is the only one that can match and the
    string is read once, from left to right. *)
Definition ver_regexp_match (s : string) : option ver_match :=
  let s1 := match strip_prefix "cvs." s with Some r => r | None => s end in
  let '(g2, s2) := span is_digit s1 in
  if negb (PyStr.truthy g2) then None
  else
    let '(g3, s3) := star dotted_step (String.length s2) s2 in
    let '(g5, s4) :=
      match s3 with
      | String c r => if is_lower c then (String c EmptyString, r)
                      else (EmptyString, s3)
      | EmptyString => (EmptyString, s3)
      end in
    let '(g6, s5) := star suffix_step (String.length s4) s4 in
    let '(g10, s6) :=
      match strip_prefix "-r" s5 with
      | Some r =>
          let '(d, rest) := span is_digit r in
          if PyStr.truthy d then (Some d, rest) else (None, s5)
      | None => (None, s5)
      end in
    if at_end s6 then
      Some {| group2 := g2; group3 := g3; group5 := g5; group6 := g6;
              group10 := g10 |}
    else None.

(** [suffix_regexp.match(s).groups()]: a name among alpha, beta, rc, pre,
    p, then digits, then the end; calling [groups()] on the [None] of a
    failed match raises [AttributeError]. *)
Definition suffix_groups (s : string) : outcome (string * string) :=
  match first_prefix ["alpha"; "beta"; "rc"; "pre"; "p"] s with
  | Some (n, r) =>
      let '(d, rest) := span is_digit r in
      if at_end rest then Ret (n, d) else Raise AttributeError
  | None => Raise AttributeError
  end.

(** [suffix_value[name]] *)
Definition suffix_value (name : string) : outcome Z :=
  if String.eqb name "pre" then Ret (-2)%Z
  else if String.eqb name "p" then Ret 0%Z
  else if String.eqb name "alpha" then Ret (-4)%Z
  else if String.eqb name "beta" then Ret (-3)%Z
  else if String.eqb name "rc" then Ret (-1)%Z
  else Raise KeyError.

(** [s.split(sep)] for a separator of one character. *)
Fixpoint split (sep : ascii) (s : string) : list string :=
  match s with
  | EmptyString => [EmptyString]
  | String c r =>
      if Ascii.eqb c sep then EmptyString :: split sep r
      else
        match split sep r with
        | w :: ws => String c w :: ws
        | [] => [String c EmptyString]
        end
  end.

(** [s[1:]] and [l[1:]] *)
Definition str_tail (s : string) : string :=
  match s with
  | EmptyString => EmptyString
  | String _ r => r
  end.

(** The value of a string of decimal digits, the most significant first,
    continuing from [acc]. *)
Fixpoint digits_value (s : string) (acc : Z) : Z :=
  match s with
  | EmptyString => acc
  | String c r => digits_value r (10 * acc + (Z.of_nat (nat_of_ascii c) - 48))%Z
  end.

Fixpoint all_digits (s : string) : bool :=
  match s with
  | EmptyString => true
  | String c r => is_digit c && all_digits r
  end.

(** [int(s)] on the text of a group: the integer of a non-empty string of
    digits, [ValueError] otherwise (the groups hold nothing but digits,
    so the signs and blanks that [int] also reads do not occur). *)
Definition py_int (s : string) : outcome Z :=
  if PyStr.truthy s && all_digits s then Ret (digits_value s 0)
  else Raise ValueError.

(** *** Numbers

    The members of [list1] and [list2] are integers or floats.  A float
    is an IEEE 754 binary64 number, carried as the rational it denotes. *)

Inductive pynum :=
| PInt (z : Z)
| PFloat (q : Q).

(** [2^e <= n/d], for positive [n] and [d]. *)
Definition pow2_le (e n d : Z) : bool :=
  if (0 <=? e)%Z then (d * 2 ^ e <=? n)%Z else (d <=? n * 2 ^ (- e))%Z.

(** The binary64 number nearest to [n/d], ties to even, for [0 <= n] and
    [0 < d] below the overflow threshold: the unit in the last place is
    [2^u] with [u = max (floor(log2(n/d)) - 52) (-1074)]. *)
Definition binary64_nearest (n d : Z) : Q :=
  if (n <=? 0)%Z then 0%Q
  else
    let e0 := (Z.log2 n - Z.log2 d)%Z in
    let e := if pow2_le e0 n d then e0 else (e0 - 1)%Z in
    let u := Z.max (e - 52) (-1074) in
    let num := if (u <? 0)%Z then (n * 2 ^ (- u))%Z else n in
    let den := if (u <? 0)%Z then d else (d * 2 ^ u)%Z in
    let q := (num / den)%Z in
    let r := (num mod den)%Z in
    let m :=
      if (2 * r <? den)%Z then q
      else if (den <? 2 * r)%Z then (q + 1)%Z
      else if Z.even q then q else (q + 1)%Z in
    if (u <? 0)%Z then Qmake m (Z.to_pos (2 ^ (- u)))
    else inject_Z (m * 2 ^ u).

(** Rounding of a rational of either sign. *)
Definition binary64_of_Q (q : Q) : Q :=
  if (Qnum q <? 0)%Z then Qopp (binary64_nearest (- Qnum q) (Zpos (Qden q)))
  else binary64_nearest (Qnum q) (Zpos (Qden q)).

(** [float("0." + digits)]: the string-to-float conversion of Python is
    correctly rounded. *)
Definition float_of_fraction (digits : string) : outcome Q :=
  if all_digits digits then
    Ret (binary64_nearest (digits_value digits 0)
           (10 ^ Z.of_nat (String.length digits)))
  else Raise ValueError.

Definition to_float (x : pynum) : Q :=
  match x with
  | PInt z => binary64_of_Q (inject_Z z)
  | PFloat q => q
  end.

(** [x != y] *)
Definition pynum_neb (x y : pynum) : bool :=
  match x, y with
  | PInt a, PInt b => negb (a =? b)%Z
  | PFloat a, PFloat b => negb (Qeq_bool a b)
  | PInt a, PFloat b => negb (Qeq_bool (inject_Z a) b)
  | PFloat a, PInt b => negb (Qeq_bool a (inject_Z b))
  end.

(** [x - y]: exact on integers, rounded on floats. *)
Definition pynum_sub (x y : pynum) : pynum :=
  match x, y with
  | PInt a, PInt b => PInt (a - b)
  | _, _ => PFloat (binary64_of_Q (to_float x - to_float y))
  end.

(** [x == 0], [x < 0] and [x > 0] *)
Definition pynum_is_zero (x : pynum) : bool :=
  match x with
  | PInt z => (z =? 0)%Z
  | PFloat q => Qeq_bool q 0
  end.

Definition pynum_sgn (x : pynum) : Z :=
  match x with
  | PInt z => Z.sgn z
  | PFloat q => Z.sgn (Qnum q)
  end.

(** *** [compare_versions] *)

(** [l[i]] *)
Definition getitem {A : Type} (l : list A) (i : nat) : outcome A :=
  match l !! i with
  | Some a => Ret a
  | None => Raise IndexError
  end.

(** [len(vlist) <= i or len(vlist[i]) == 0] *)
Definition missing (vlist : list string) (i : nat) : bool :=
  match vlist !! i with
  | None => true
  | Some x => negb (PyStr.truthy x)
  end.

(** [s[0] != c], for a string that is not empty. *)
Definition head_differs (s : string) (c : ascii) : bool :=
  match s with
  | String a _ => negb (Ascii.eqb a c)
  | EmptyString => true
  end.

(** [ord(s)] *)
Definition ord (s : string) : outcome Z :=
  match s with
  | String c EmptyString => Ret (Z.of_nat (nat_of_ascii c))
  | _ => Raise TypeError
  end.

(** [for i in range(0, max(len(vlist1), len(vlist2)))]: [n] turns are
    left and [i] is the index of this turn. *)
Fixpoint dotted_loop (n i : nat) (vlist1 vlist2 : list string)
    (list1 list2 : list pynum) : outcome (list pynum * list pynum) :=
  match n with
  | O => Ret (list1, list2)
  | S n' =>
      '(a, b) ←
        (if missing vlist1 i then
           y ← getitem vlist2 i; v ← py_int y;
           Ret (PInt (-1), PInt v)
         else if missing vlist2 i then
           x ← getitem vlist1 i; v ← py_int x;
           Ret (PInt v, PInt (-1))
         else
           x ← getitem vlist1 i; y ← getitem vlist2 i;
           if head_differs x "0" && head_differs y "0" then
             v ← py_int x; w ← py_int y; Ret (PInt v, PInt w)
           else
             v ← float_of_fraction x; w ← float_of_fraction y;
             Ret (PFloat v, PFloat w));
      dotted_loop n' (S i) vlist1 vlist2 (list1 ++ [a]) (list2 ++ [b])
  end.

(** The loop over [list1] and [list2]: [Some r] when it ends in
    [return r], [None] when it runs to its end. *)
Fixpoint main_loop (n i : nat) (list1 list2 : list pynum)
  : outcome (option pynum) :=
  match n with
  | O => Ret None
  | S n' =>
      if (length list1 <=? i)%nat then Ret (Some (PInt (-1)))
      else if (length list2 <=? i)%nat then Ret (Some (PInt 1))
      else
        a ← getitem list1 i; b ← getitem list2 i;
        if pynum_neb a b then Ret (Some (pynum_sub a b))
        else main_loop n' (S i) list1 list2
  end.

(** [int(s)] inside [try: ... except ValueError: r = 0] *)
Definition int_or_zero (s : string) : Z :=
  match py_int s with
  | Ret v => v
  | Raise _ => 0%Z
  end.

(** The loop over the suffixes. *)
Fixpoint suffix_loop (n i : nat) (list1 list2 : list string)
  : outcome (option pynum) :=
  match n with
  | O => Ret None
  | S n' =>
      s1 ← (if (length list1 <=? i)%nat then Ret ("p", "0")
            else x ← getitem list1 i; suffix_groups x);
      s2 ← (if (length list2 <=? i)%nat then Ret ("p", "0")
            else x ← getitem list2 i; suffix_groups x);
      if negb (String.eqb (fst s1) (fst s2)) then
        v1 ← suffix_value (fst s1); v2 ← suffix_value (fst s2);
        Ret (Some (PInt (v1 - v2)))
      else if negb (String.eqb (snd s1) (snd s2)) then
        let r1 := int_or_zero (snd s1) in
        let r2 := int_or_zero (snd s2) in
        Ret (Some (PInt (r1 - r2)))
      else suffix_loop n' (S i) list1 list2
  end.

(** [int(match.group(10))] when the group is there, [0] otherwise. *)
Definition revision_of (m : ver_match) : outcome Z :=
  match group10 m with
  | Some d => if PyStr.truthy d then py_int d else Ret 0%Z
  | None => Ret 0%Z
  end.

(** The body of [compare_versions] once both versions are valid. *)
Definition compare_matches (match1 match2 : ver_match) : outcome pynum :=
  v1 ← py_int (group2 match1);
  v2 ← py_int (group2 match2);
  '(list1, list2) ←
    (if PyStr.truthy (group3 match1) || PyStr.truthy (group3 match2) then
       let vlist1 := split "." (str_tail (group3 match1)) in
       let vlist2 := split "." (str_tail (group3 match2)) in
       dotted_loop (Nat.max (length vlist1) (length vlist2)) 0
         vlist1 vlist2 [PInt v1] [PInt v2]
     else Ret ([PInt v1], [PInt v2]));
  list1 ← (if PyStr.truthy (group5 match1)
           then o ← ord (group5 match1); Ret (list1 ++ [PInt o])
           else Ret list1);
  list2 ← (if PyStr.truthy (group5 match2)
           then o ← ord (group5 match2); Ret (list2 ++ [PInt o])
           else Ret list2);
  r ← main_loop (Nat.max (length list1) (length list2)) 0 list1 list2;
  match r with
  | Some rc => Ret rc
  | None =>
      let list1 := tail (split "_" (group6 match1)) in
      let list2 := tail (split "_" (group6 match2)) in
      r ← suffix_loop (Nat.max (length list1) (length list2)) 0 list1 list2;
      match r with
      | Some rc => Ret rc
      | None =>
          r1 ← revision_of match1;
          r2 ← revision_of match2;
          Ret (PInt (r1 - r2))
      end
  end.

(** [ver_regexp.match(ver)] behind [if ver:].  A match always has its ten
    groups, so [not match.groups()] is never true. *)
Definition match_version (ver : string) : option ver_match :=
  if PyStr.truthy ver then ver_regexp_match ver else None.

Definition compare_versions (ver1 ver2 : string) : outcome pynum :=
  if String.eqb ver1 ver2 then Ret (PInt 0)
  else
    match match_version ver1 with
    | None => Ret (PInt 0)            (* invalid, invalid_rc = 0 *)
    | Some match1 =>
        match match_version ver2 with
        | None => Ret (PInt 1)        (* invalid, invalid_rc = 1 *)
        | Some match2 => compare_matches match1 match2
        end
    end.

(** *** [entropy_compare_versions] *)

(** Modelled from the spec: [const_cmp] is imported from [entropy.const],
    which is not among the sources; the docstring of
    [entropy_compare_package_tags] says it is the builtin [cmp()]:
    negative, zero or positive as the first string is below, equal to or
    above the second, in the order of byte strings. *)
Definition const_cmp (a b : string) : Z :=
  match String.compare a b with
  | Lt => (-1)%Z
  | Eq => 0%Z
  | Gt => 1%Z
  end.

Definition entropy_compare_package_tags (tag_a tag_b : string) : Z :=
  const_cmp tag_a tag_b.

(** [entropy_compare_versions(ver_data, ver_data2)] on two triples of a
    version, a tag (the empty string when the package has none) and a
    revision. *)
Definition entropy_compare_versions (ver_data ver_data2 : string * string * Z)
  : outcome pynum :=
  let '(a_ver, a_tag, a_rev) := ver_data in
  let '(b_ver, b_tag, b_rev) := ver_data2 in
  let rc := PInt 0 in
  let rc := if PyStr.truthy a_tag && PyStr.truthy b_tag
            then PInt (const_cmp a_tag b_tag) else rc in
  rc ← (if pynum_is_zero rc then compare_versions a_ver b_ver else Ret rc);
  if pynum_is_zero rc then
    let tag_cmp := entropy_compare_package_tags a_tag b_tag in
    if (tag_cmp <? 0)%Z then Ret (PInt (-1))
    else if (0 <? tag_cmp)%Z then Ret (PInt 1)
    else if (b_rev <? a_rev)%Z then Ret (PInt 1)
    else if (a_rev <? b_rev)%Z then Ret (PInt (-1))
    else Ret (PInt 0)
  else Ret rc.

End Version.

(** ** The resource lock of [MiscMixin] *)

Module ResourceLock.

Inductive lock_mode := Shared | Exclusive.

Inductive errno := ENOENT | EACCES | EROFS | EIO.

(** A member of [_FILE_LOCK_MAP]: [ref] is the [FlockFile] that holds the
    lock, known by the name of its file. *)
Record lock_data := {
  count : Z;
  ref : option string;
  path : string;
}.

(** The process and what it sees of the system:
    - [FILE_LOCK_MAP], the class attribute [_FILE_LOCK_MAP];
    - [files], the lock files that exist, with their text;
    - [flocks], the advisory locks held through the [FlockFile] objects
      of this process;
    - [foreign], the advisory locks held through other open files: by
      other processes, or by this process before it called [execv]. *)
Record world := {
  FILE_LOCK_MAP : gmap string lock_data;
  files : gmap string string;
  flocks : gmap string lock_mode;
  foreign : gmap string lock_mode;
}.

(** What the system answers: the process id, and the error, if any, of
    opening and of removing a file.  Creating the directory of the lock
    file and setting its permissions are taken to succeed. *)
Record env := {
  mypid : N;
  open_error : string -> option errno;
  remove_error : string -> option errno;
}.

(** A call returns a value, raises, or waits for a lock without end (no
    other process moves in this model). *)
Inductive answer (A : Type) :=
| Returns (a : A) (w : world)
| Raises (e : exn) (w : world)
| Blocks.
Arguments Returns {A} a w.
Arguments Raises {A} e w.
Arguments Blocks {A}.

(** [str(os.getpid())] *)
Definition str_of_pid (pid : N) : string :=
  NilZero.string_of_uint (N.to_uint pid).

(** [_file_lock_setup(file_path)] *)
Definition file_lock_setup (file_path : string) (w : world)
  : lock_data * world :=
  match FILE_LOCK_MAP w !! file_path with
  | Some mapped => (mapped, w)
  | None =>
      let mapped := {| count := 0; ref := None; path := file_path |} in
      (mapped,
       {| FILE_LOCK_MAP := <[file_path := mapped]> (FILE_LOCK_MAP w);
          files := files w; flocks := flocks w; foreign := foreign w |})
  end.

(** The dictionary [mapped] is shared with the map: an assignment to one
    of its keys is an update of the member of the map. *)
Definition set_mapped (file_path : string) (mapped : lock_data) (w : world)
  : world :=
  {| FILE_LOCK_MAP := <[file_path := mapped]> (FILE_LOCK_MAP w);
     files := files w; flocks := flocks w; foreign := foreign w |}.

(** Whether [flock] grants the mode on a fresh open file: an exclusive
    lock needs the file free of any lock, a shared lock free of an
    exclusive one. *)
Definition grantable (held : option lock_mode) (shared : bool) : bool :=
  match held with
  | None => true
  | Some Shared => shared
  | Some Exclusive => false
  end.

Definition flock_free (w : world) (pidfile : string) (shared : bool) : bool :=
  grantable (foreign w !! pidfile) shared
  && grantable (flocks w !! pidfile) shared.

(** [open(pidfile, "a+")] creates the file when it is missing. *)
Definition touch (pidfile : string) (w : world) : world :=
  match files w !! pidfile with
  | Some _ => w
  | None =>
      {| FILE_LOCK_MAP := FILE_LOCK_MAP w;
         files := <[pidfile := EmptyString]> (files w);
         flocks := flocks w; foreign := foreign w |}
  end.

(** [pid_f.read(128)] *)
Definition read128 (w : world) (pidfile : string) : string :=
  match files w !! pidfile with
  | Some text => String.substring 0 128 text
  | None => EmptyString
  end.

(** The end of [_file_lock_create], once the lock is held: the pid is
    written for an exclusive lock and [lock_data['ref']] is set.  The
    dictionary [lock_data] is the member of the map under [key]. *)
Definition lock_acquired (e : env) (key : string) (lock : lock_data)
    (shared : bool) (w : world) : world :=
  let pidfile := path lock in
  {| FILE_LOCK_MAP :=
       <[key := {| count := count lock; ref := Some pidfile;
                   path := path lock |}]> (FILE_LOCK_MAP w);
     files := if shared then files w
              else <[pidfile := str_of_pid (mypid e)]> (files w);
     flocks := <[pidfile := if shared then Shared else Exclusive]> (flocks w);
     foreign := foreign w |}.

(** [_file_lock_create(lock_data, blocking, shared)] *)
Definition file_lock_create (e : env) (key : string) (lock : lock_data)
    (blocking shared : bool) (w : world) : answer bool :=
  let pidfile := path lock in
  match open_error e pidfile with
  | Some ENOENT | Some EACCES => Returns false w
  | Some _ => Raises (IOError pidfile) w
  | None =>
      let w := touch pidfile w in
      if blocking then
        if flock_free w pidfile shared
        then Returns true (lock_acquired e key lock shared w)
        else Blocks
      else
        let acquired := flock_free w pidfile shared in
        if negb acquired then
          let stored_pid := PyStr.strip (read128 w pidfile) in
          if String.eqb (str_of_pid (mypid e)) stored_pid
          then Returns true w
          else Returns false w
        else Returns true (lock_acquired e key lock shared w)
  end.

(** [_lock_resource(lock_path, blocking, shared)] *)
Definition lock_resource (e : env) (lock_path : string)
    (blocking shared : bool) (w : world) : answer bool :=
  let '(mapped, w) := file_lock_setup lock_path w in
  match ref mapped with
  | Some _ => Returns true w
  | None =>
      match file_lock_create e lock_path mapped blocking shared w with
      | Returns acquired w =>
          if acquired then
            match FILE_LOCK_MAP w !! lock_path with
            | Some mapped =>
                Returns acquired
                  (set_mapped lock_path
                     {| count := count mapped + 1; ref := ref mapped;
                        path := path mapped |} w)
            | None => Returns acquired w
            end
          else Returns acquired w
      | r => r
      end
  end.

(** [ref_obj.release(); ref_obj.close(); mapped['ref'] = None] *)
Definition release_ref (lock_path name : string) (mapped : lock_data)
    (w : world) : world :=
  {| FILE_LOCK_MAP :=
       <[lock_path := {| count := count mapped; ref := None;
                         path := path mapped |}]> (FILE_LOCK_MAP w);
     files := files w;
     flocks := delete name (flocks w);
     foreign := foreign w |}.

(** [os.remove(name)], when it succeeds. *)
Definition unlink (name : string) (w : world) : world :=
  {| FILE_LOCK_MAP := FILE_LOCK_MAP w;
     files := delete name (files w);
     flocks := flocks w; foreign := foreign w |}.

(** [_unlock_resource(lock_path)] *)
Definition unlock_resource (e : env) (lock_path : string) (w : world)
  : answer unit :=
  let '(mapped, w) := file_lock_setup lock_path w in
  let mapped :=
    if (0 <? count mapped)%Z
    then {| count := count mapped - 1; ref := ref mapped;
            path := path mapped |}
    else mapped in
  let w := set_mapped lock_path mapped w in
  if (0 <? count mapped)%Z then Returns tt w
  else
    match ref mapped with
    | None => Returns tt w
    | Some name =>
        match remove_error e name with
        | None => Returns tt (release_ref lock_path name mapped (unlink name w))
        | Some ENOENT | Some EROFS =>
            Returns tt (release_ref lock_path name mapped w)
        | Some _ =>
            Raises (IOError name) (release_ref lock_path name mapped w)
        end
    end.

(** [lock_resources] and [unlock_resources] use the path
    [etpConst['locks']['using_resources']], a constant of [entropy.const]
    that is taken as an argument. *)
Definition lock_resources (e : env) (using_resources : string)
    (blocking shared : bool) (w : world) : answer bool :=
  lock_resource e using_resources blocking shared w.

Definition unlock_resources (e : env) (using_resources : string) (w : world)
  : answer unit :=
  unlock_resource e using_resources w.

(** Whether the process holds the advisory lock of a file. *)
Definition os_lock_held (w : world) (lock_path : string) : bool :=
  bool_decide (is_Some (flocks w !! lock_path)).

Definition lock_file_exists (w : world) (lock_path : string) : bool :=
  bool_decide (is_Some (files w !! lock_path)).

End ResourceLock.

(** ** The repositories of [RepositoryMixin] *)

Module Repository.

(** A repository object: the installed packages repository, an in-memory
    repository, or a repository opened read-only on a database file. *)
Inductive handle :=
| InstalledRepository
| MemoryRepository (name : string)
| AvailableRepository (name dbpath : string).

#[global] Instance handle_eq_dec : EqDecision handle.
Proof. solve_decision. Defined.

(** What [_load_repository] reads of the metadata of a repository. *)
Record repo_meta := {
  temporary : bool;
  dbpath : string;
}.

(** [SystemSettings()['repositories']] *)
Record settings := {
  available : gmap string repo_meta;
  excluded : gmap string repo_meta;
  order : list string;
}.

(** The attributes of the client that the methods below use; [closed] is
    the list of the repository objects on which [close()] was called. *)
Record client := {
  repositories : settings;
  enabled_repos : list string;
  repodb_cache : gmap (string * string) handle;
  memory_db_instances : gmap (string * string) handle;
  repo_error_messages_cache : gset string;
  closed : list handle;
}.

(** [l.remove(x)] when [x] is in [l]: the first occurrence goes. *)
Fixpoint remove_first (x : string) (l : list string) : list string :=
  match l with
  | [] => []
  | y :: r => if String.eqb y x then r else y :: remove_first x r
  end.

(** [s.endswith(suffix)] *)
Definition endswith (s suffix : string) : bool :=
  let n := String.length s in
  let m := String.length suffix in
  (m <=? n)%nat && String.eqb (String.substring (n - m) m s) suffix.

Section Client.

(** Constants of [etpConst], from [entropy.const]. *)
Variables clientdbid systemroot packagesext packagesext_webinstall : string.

(** [self._installed_repository] *)
Variable installed_repository : handle.

(** [SystemSettings.clear()], from [entropy.core.settings]: the settings
    are dropped and read again from the configuration files. *)
Variable settings_clear : settings -> settings.

(** The answers of [__conf_add_remove_repository(id, None)] and of
    [__conf_enable_disable_repository(id, False)], which rewrite the
    configuration files: whether something was accomplished, or the
    error of the file system. *)
Variable conf_remove : string -> outcome bool.
Variable conf_disable : string -> outcome bool.

(** [os.path.isfile] of the database file under a [dbpath]. *)
Variable db_isfile : string -> bool.

Definition with_repositories (c : client) (s : settings) : client :=
  {| repositories := s; enabled_repos := enabled_repos c;
     repodb_cache := repodb_cache c;
     memory_db_instances := memory_db_instances c;
     repo_error_messages_cache := repo_error_messages_cache c;
     closed := closed c |}.

Definition with_error_message (c : client) (repoid : string) : client :=
  {| repositories := repositories c; enabled_repos := enabled_repos c;
     repodb_cache := repodb_cache c;
     memory_db_instances := memory_db_instances c;
     repo_error_messages_cache := {[repoid]} ∪ repo_error_messages_cache c;
     closed := closed c |}.

(** [__get_repository_cache_key] *)
Definition get_repository_cache_key (repository_id : string)
  : string * string :=
  (repository_id, systemroot).

(** [_is_package_repository] *)
Definition is_package_repository (repository_id : string) : bool :=
  if negb (PyStr.truthy repository_id) then false
  else endswith repository_id packagesext
       || endswith repository_id packagesext_webinstall.

(** [repo_data.get(repoid, {}).get('__temporary__')] *)
Definition get_temporary (repo_data : gmap string repo_meta)
    (repoid : string) : bool :=
  match repo_data !! repoid with
  | Some repo_obj => temporary repo_obj
  | None => false
  end.

(** [_load_repository(repoid)], with the default [_enabled_repos].  The
    synchronisation with the source package manager that follows a
    successful load is left out. *)
Definition load_repository (repoid : string) (c : client)
  : outcome handle * client :=
  let _enabled_repos := enabled_repos c in
  let repo_data := available (repositories c) in
  if negb (bool_decide (repoid ∈ _enabled_repos))
     && negb (get_temporary repo_data repoid)
     && negb (bool_decide (is_Some (repo_data !! repoid)))
  then (Raise (RepositoryError "invalid repository id (1)"),
        with_error_message c repoid)
  else
    match repo_data !! repoid with
    | None => (Raise (RepositoryError "invalid repository id (2)"), c)
    | Some repo_obj =>
        if temporary repo_obj then
          match memory_db_instances c
                  !! get_repository_cache_key repoid with
          | Some conn => (Ret conn, c)
          | None =>
              (Raise (RepositoryError "invalid repository id (3)"), c)
          end
        else if negb (db_isfile (dbpath repo_obj)) then
          (Raise (RepositoryError "repository not downloaded"),
           with_error_message c repoid)
        else (Ret (AvailableRepository repoid (dbpath repo_obj)), c)
    end.

(** [_open_repository(repository_id)] *)
Definition open_repository (repository_id : string) (c : client)
  : outcome handle * client :=
  if String.eqb repository_id clientdbid then (Ret installed_repository, c)
  else
    let key := get_repository_cache_key repository_id in
    match repodb_cache c !! key with
    | Some cached => (Ret cached, c)
    | None =>
        match load_repository repository_id c with
        | (Ret conn, c) =>
            (Ret conn,
             {| repositories := repositories c;
                enabled_repos := enabled_repos c;
                repodb_cache := <[key := conn]> (repodb_cache c);
                memory_db_instances := memory_db_instances c;
                repo_error_messages_cache := repo_error_messages_cache c;
                closed := closed c |})
        | (Raise e, c) => (Raise e, c)
        end
    end.

(** [remove_repository(repository_id, disable)].  The on-disk caches and
    the registry of package repositories of the settings plugin are
    not part of the state. *)
Definition remove_repository (repository_id : string) (disable : bool)
    (c : client) : outcome bool * client :=
  let s := repositories c in
  let in_available := bool_decide (is_Some (available s !! repository_id)) in
  let in_excluded := bool_decide (is_Some (excluded s !! repository_id)) in
  let done := in_available || in_excluded in
  let _enabled_repos :=
    if bool_decide (repository_id ∈ enabled_repos c)
    then remove_first repository_id (enabled_repos c)
    else enabled_repos c in
  let s :=
    {| available := delete repository_id (available s);
       excluded := delete repository_id (excluded s);
       order := remove_first repository_id (order s) |} in
  let repo_key := get_repository_cache_key repository_id in
  let dbconn := repodb_cache c !! repo_key in
  let c :=
    {| repositories := s; enabled_repos := _enabled_repos;
       repodb_cache := delete repo_key (repodb_cache c);
       memory_db_instances := memory_db_instances c;
       repo_error_messages_cache := repo_error_messages_cache c;
       closed := closed c |} in
  let written :=
    if done then
      if negb (is_package_repository repository_id) then
        if disable then conf_disable repository_id
        else conf_remove repository_id
      else Ret done
    else Ret done in
  match written with
  | Raise e => (Raise e, c)
  | Ret done' =>
      let s := if done then settings_clear s else s in
      let mem_inst := memory_db_instances c !! repo_key in
      let closed_mem :=
        match mem_inst with Some h => [h] | None => [] end in
      let closed_db :=
        match dbconn with Some h => [h] | None => [] end in
      (Ret done',
       {| repositories := s; enabled_repos := enabled_repos c;
          repodb_cache := repodb_cache c;
          memory_db_instances := delete repo_key (memory_db_instances c);
          repo_error_messages_cache := repo_error_messages_cache c;
          closed := closed c ++ closed_mem ++ closed_db |})
  end.

End Client.

End Repository.

(** ** The atoms of [dep.py] *)

Module Atoms.

(** [s[i:]] *)
Definition slice_from (s : string) (i : Z) : string :=
  PyStr.slice s i (Z.of_nat (String.length s)).

(** [s[:j]] *)
Definition slice_to (s : string) (j : Z) : string := PyStr.slice s 0 j.

(** [s.find(c, start)] *)
Definition find_from (c : ascii) (s : string) (start : Z) : Z :=
  let from := PyStr.slice_index (Z.of_nat (String.length s)) start in
  let i := PyStr.find c (slice_from s start) in
  if (i <? 0)%Z then (-1)%Z else (from + i)%Z.

(** [x in s], for two strings. *)
Fixpoint contains (s x : string) : bool :=
  match Version.strip_prefix x s with
  | Some _ => true
  | None =>
      match s with
      | EmptyString => false
      | String _ r => contains r x
      end
  end.

(** [s and s[0] == c] *)
Definition first_is (c : ascii) (s : string) : bool :=
  match s with
  | String a _ => Ascii.eqb a c
  | EmptyString => false
  end.

(** [s and s[-1] == c] *)
Fixpoint last_is (c : ascii) (s : string) : bool :=
  match s with
  | EmptyString => false
  | String a EmptyString => Ascii.eqb a c
  | String _ r => last_is c r
  end.

(** [s.lstrip(chars)] *)
Fixpoint lstrip_chars (chars s : string) : string :=
  match s with
  | EmptyString => EmptyString
  | String c r =>
      if contains chars (String c EmptyString) then lstrip_chars chars r else s
  end.

(** [dep_getcpv(mydep)] *)
Definition dep_getcpv (mydep : string) : string :=
  let mydep := if first_is "*" mydep then slice_from mydep 1 else mydep in
  let mydep := if last_is "*" mydep then slice_to mydep (-1) else mydep in
  let mydep := if first_is "!" mydep then slice_from mydep 1 else mydep in
  let mydep :=
    if existsb (String.eqb (slice_to mydep 2)) [">="; "<="]
    then slice_from mydep 2
    else if contains "=<>~" (slice_to mydep 1) then slice_from mydep 1
    else mydep in
  let colon := PyStr.rfind ":" mydep in
  if negb (colon =? -1)%Z then slice_to mydep colon else mydep.

(** [dep_getslot(mydep)] *)
Definition dep_getslot (mydep : string) : option string :=
  let colon := PyStr.find ":" mydep in
  if negb (colon =? -1)%Z then
    let bracket := find_from "[" mydep colon in
    if (bracket =? -1)%Z then Some (slice_from mydep (colon + 1))
    else Some (PyStr.slice mydep (colon + 1) bracket)
  else None.

(** The loop of [remove_usedeps]: [skip] counts the brackets that are
    open. *)
Fixpoint remove_usedeps_loop (depend : string) (skip : Z)
    (new_depend : string) : string :=
  match depend with
  | EmptyString => new_depend
  | String char rest =>
      if Ascii.eqb char "[" then
        let skip := (skip + 1)%Z in
        remove_usedeps_loop rest skip
          (if (skip =? 0)%Z then PyStr.snoc new_depend char else new_depend)
      else if Ascii.eqb char "]" then
        remove_usedeps_loop rest (skip - 1)%Z new_depend
      else
        remove_usedeps_loop rest skip
          (if (skip =? 0)%Z then PyStr.snoc new_depend char else new_depend)
  end.

(** [remove_usedeps(depend)] *)
Definition remove_usedeps (depend : string) : string :=
  remove_usedeps_loop depend 0 EmptyString.

(** [remove_slot(mydep)] *)
Definition remove_slot (mydep : string) : string :=
  let colon := PyStr.find ":" mydep in
  if negb (colon =? -1)%Z then slice_to mydep colon
  else
    let bracket := PyStr.find "[" mydep in
    if negb (bracket =? -1)%Z then slice_to mydep bracket else mydep.

(** [l[-1]] *)
Definition getitem_last {A : Type} (l : list A) : outcome A :=
  match last l with
  | Some a => Ret a
  | None => Raise IndexError
  end.

(** [remove_revision(ver)]: [myver[-1][0]] raises [IndexError] when the
    last piece is empty. *)
Definition remove_revision (ver : string) : outcome string :=
  let myver := Version.split "-" ver in
  piece ← getitem_last myver;
  match piece with
  | EmptyString => Raise IndexError
  | String c _ =>
      if Ascii.eqb c "r" then Ret (String.concat "-" (removelast myver))
      else Ret ver
  end.

(** [remove_package_operators(atom)] *)
Definition remove_package_operators (atom : string) : string :=
  lstrip_chars "><=~" atom.

(** [remove_entropy_revision(mydep)] *)
Definition remove_entropy_revision (mydep : string) : string :=
  let dep := remove_package_operators mydep in
  let operators := slice_to mydep (- Z.of_nat (String.length dep)) in
  let colon := PyStr.rfind "~" dep in
  if (colon =? -1)%Z then mydep
  else String.append operators (slice_to dep colon).

(** [dep_revmatch.match(s)]: the pattern is [r] and a digit, at the
    start. *)
Definition dep_revmatch (s : string) : bool :=
  match s with
  | String r (String d _) => Ascii.eqb r "r" && Version.is_digit d
  | _ => false
  end.

(** [dep_get_spm_revision(mydep)] *)
Definition dep_get_spm_revision (mydep : string) : outcome string :=
  let myver := Version.split "-" mydep in
  myrev ← getitem_last myver;
  if dep_revmatch myrev then Ret myrev else Ret "r0".

(** [_ververify(myver)]: a match object is true. *)
Definition ververify (myver : string) : bool :=
  let m := if last_is "*" myver
           then Version.ver_regexp_match (slice_to myver (-1))
           else Version.ver_regexp_match myver in
  match m with
  | Some _ => true
  | None => false
  end.

(** [l[-2:]] *)
Definition last_two {A : Type} (l : list A) : list A :=
  skipn (length l - 2) l.

(** [isjustname(mypkg)] *)
Definition isjustname (mypkg : string) : outcome bool :=
  rev ← dep_get_spm_revision mypkg;
  let mypkg := if String.eqb rev "r0" then String.append mypkg "-r0"
               else mypkg in
  let ver_rev := String.concat "-" (last_two (Version.split "-" mypkg)) in
  Ret (negb (ververify ver_rev)).

Section Tags.

(** [etpConst['entropytagprefix']], a constant of [entropy.const]: one
    character ([dep_gettag] skips it with [colon+1]; its docstring shows
    [#]). *)
Variable entropytagprefix : ascii.

(** [remove_tag(mydep)] *)
Definition remove_tag (mydep : string) : string :=
  let colon := PyStr.rfind entropytagprefix mydep in
  if (colon =? -1)%Z then mydep else slice_to mydep colon.

(** [dep_gettag(mydep)] *)
Definition dep_gettag (mydep : string) : option string :=
  let dep := remove_entropy_revision mydep in
  let colon := PyStr.rfind entropytagprefix dep in
  if negb (colon =? -1)%Z then
    let mydep := slice_from dep (colon + 1) in
    Some (remove_slot mydep)
  else None.

(** [create_package_atom_string(category, name, version, package_tag)];
    [package_tag] is a string or [None]. *)
Definition create_package_atom_string (category name version : string)
    (package_tag : option string) : string :=
  let package_tag :=
    match package_tag with
    | Some tag =>
        if PyStr.truthy tag then String entropytagprefix tag else EmptyString
    | None => EmptyString
    end in
  let package_name :=
    String.append category
      (String.append "/" (String.append name (String.append "-" version))) in
  String.append package_name package_tag.

End Tags.

End Atoms.

(** ** [_generic_sorter] and the sorted lists of versions *)

Module Sorter.

Section GenericSorter.

Context {A : Type}.

(** [cmp_func], the comparison that the caller hands over. *)
Variable cmp_func : A -> A -> outcome Version.pynum.

(** [for idx in range(max_idx)], from the turn [idx] on: [n] turns are
    left.  The two members are exchanged when [cmp_func] is negative. *)
Fixpoint sorter_pass (n idx max_idx : nat) (inputs : list A) (changed : bool)
  : outcome (list A * bool) :=
  match n with
  | O => Ret (inputs, changed)
  | S n' =>
      let second_idx := S idx in
      if (second_idx =? max_idx)%nat
      then sorter_pass n' (S idx) max_idx inputs changed
      else
        str_a ← Version.getitem inputs idx;
        str_b ← Version.getitem inputs second_idx;
        rc ← cmp_func str_a str_b;
        if (Version.pynum_sgn rc <? 0)%Z then
          sorter_pass n' (S idx) max_idx
            (<[second_idx := str_a]> (<[idx := str_b]> inputs)) true
        else sorter_pass n' (S idx) max_idx inputs changed
  end.

(** [while True:], which ends with the first pass that changes nothing;
    [fuel] bounds the number of passes and [None] is the answer of a run
    that was cut short. *)
Fixpoint sorter_loop (fuel max_idx : nat) (inputs : list A)
  : option (outcome (list A)) :=
  match fuel with
  | O => None
  | S fuel' =>
      match sorter_pass max_idx 0 max_idx inputs false with
      | Raise e => Some (Raise e)
      | Ret (inputs, changed) =>
          if negb changed then Some (Ret inputs)
          else sorter_loop fuel' max_idx inputs
      end
  end.

(** [_generic_sorter(inputlist, cmp_func)] *)
Definition generic_sorter (fuel : nat) (inputlist : list A)
  : option (outcome (list A)) :=
  let inputs := inputlist in
  if (length inputs <? 2)%nat then Some (Ret inputs)
  else sorter_loop fuel (length inputs) inputs.

End GenericSorter.

(** [get_newer_version(versions)] *)
Definition get_newer_version (fuel : nat) (versions : list string)
  : option (outcome (list string)) :=
  generic_sorter Version.compare_versions fuel versions.

(** [get_entropy_newer_version(versions)] *)
Definition get_entropy_newer_version (fuel : nat)
    (versions : list (string * string * Z))
  : option (outcome (list (string * string * Z))) :=
  generic_sorter Version.entropy_compare_versions fuel versions.

End Sorter.

(** ** Waiting for the resource lock *)

Module ResourceWait.

Import ResourceLock.

Section Wait.

(** What the other processes do to the system during
    [time.sleep(sleep_seconds)]. *)
Variable sleep : world -> world.

(** [lock_func], the method that tries to take the lock. *)
Variable lock_func : bool -> bool -> world -> answer bool.

(** The loop [while True:] of [_wait_resource], from the count
    [lock_count] on; [fuel] bounds the number of attempts and [None] is
    the answer of a run that was cut short.  The messages that the loop
    prints are left out. *)
Fixpoint wait_loop (fuel : nat) (max_lock_count lock_count : Z)
    (shared : bool) (w : world) : option (answer bool) :=
  match fuel with
  | O => None
  | S fuel' =>
      match lock_func false shared w with
      | Returns acquired w =>
          if acquired then Some (Returns false w)
          else if (max_lock_count <=? lock_count)%Z then Some (Returns true w)
          else wait_loop fuel' max_lock_count (lock_count + 1)%Z shared
                 (sleep w)
      | Raises e w => Some (Raises e w)
      | Blocks => Some Blocks
      end
  end.

(** [_wait_resource(lock_func, sleep_seconds, max_lock_count, shared)] *)
Definition wait_resource (fuel : nat) (max_lock_count : Z) (shared : bool)
    (w : world) : option (answer bool) :=
  wait_loop fuel max_lock_count 0 shared w.

End Wait.

(** [wait_resources(sleep_seconds, max_lock_count, shared)] *)
Definition wait_resources (sleep : world -> world) (e : env)
    (using_resources : string) (fuel : nat) (max_lock_count : Z)
    (shared : bool) (w : world) : option (answer bool) :=
  wait_resource sleep
    (fun blocking shared => lock_resources e using_resources blocking shared)
    fuel max_lock_count shared w.

End ResourceWait.

(** ** Closing the repositories *)

Module RepositoryClose.

Import Repository.

Section Close.

(** [SystemSettings.clear()], from [entropy.core.settings]. *)
Variable settings_clear : settings -> settings.

(** [close_repositories(mask_clear)].  The loop goes over the items of
    the cache in the order of the dictionary; an item of an in-memory
    repository is skipped, the others are closed (an [OperationalError]
    of [close()] is written to the standard error and dropped); then the
    cache is cleared. *)
Definition close_repositories (mask_clear : bool) (c : client) : client :=
  let to_close :=
    List.filter
      (fun item =>
         negb (bool_decide (is_Some (memory_db_instances c !! fst item))))
      (map_to_list (repodb_cache c)) in
  {| repositories := if mask_clear then settings_clear (repositories c)
                     else repositories c;
     enabled_repos := enabled_repos c;
     repodb_cache := ∅;
     memory_db_instances := memory_db_instances c;
     repo_error_messages_cache := repo_error_messages_cache c;
     closed := closed c ++ map snd to_close |}.

End Close.

End RepositoryClose.

(** * The words of the statements *)

Import PyStr DepParser Version ResourceLock Repository.

(** ** Dependency strings *)

(** What a character adds to the nesting counter [deep_count]. *)
Definition paren (c : ascii) : Z :=
  if Ascii.eqb c "(" then 1%Z else if Ascii.eqb c ")" then (-1)%Z else 0%Z.

(** A character that is neither an operator nor a parenthesis. *)
Definition plain_char (c : ascii) : bool :=
  negb (Ascii.eqb c "(" || Ascii.eqb c ")" || Ascii.eqb c "&" || Ascii.eqb c "|").

(** A string without operator and without parenthesis: a single leaf. *)
Fixpoint plain (s : string) : bool :=
  match s with
  | EmptyString => true
  | String c r => plain_char c && plain r
  end.

(** The string without its blanks, which the splitter skips. *)
Fixpoint remove_spaces (s : string) : string :=
  match s with
  | EmptyString => EmptyString
  | String c r =>
      if Ascii.eqb c " " then remove_spaces r else String c (remove_spaces r)
  end.

(** [c] occurs in [s] at a place where the nesting counter, which starts at
    [d], is zero: at the top nesting level when [d] is zero. *)
Fixpoint occurs_at_top (c : ascii) (d : Z) (s : string) : bool :=
  match s with
  | EmptyString => false
  | String a r =>
      (Ascii.eqb a c && (d =? 0)%Z) || occurs_at_top c (d + paren a)%Z r
  end.

(** [s] starts, after blanks, with a closing parenthesis. *)
Fixpoint closes_at_once (s : string) : bool :=
  match s with
  | EmptyString => false
  | String a r =>
      if Ascii.eqb a " " then closes_at_once r else Ascii.eqb a ")"
  end.

(** [s] holds an empty group [()] (blanks aside) that opens where the
    nesting counter, which starts at [d], is zero. *)
Fixpoint empty_group_at_top (d : Z) (s : string) : bool :=
  match s with
  | EmptyString => false
  | String a r =>
      (Ascii.eqb a "(" && (d =? 0)%Z && closes_at_once r)
      || empty_group_at_top (d + paren a)%Z r
  end.

(** Scanning [s] from the nesting depth [d] never goes below zero and ends
    at the depth [target]. *)
Fixpoint depth_path (d target : Z) (s : string) : bool :=
  match s with
  | EmptyString => (d =? target)%Z
  | String a r => (0 <=? d + paren a)%Z && depth_path (d + paren a) target r
  end.

(** The parentheses of [s] are balanced. *)
Definition balanced (s : string) : bool := depth_path 0 0 s.

(** [s] holds an empty group [()], blanks aside, somewhere. *)
Fixpoint empty_group (s : string) : bool :=
  match s with
  | EmptyString => false
  | String a r => (Ascii.eqb a "(" && closes_at_once r) || empty_group r
  end.

(** What the splitter still has to meet, in a state [st] before the text
    [s], for an empty group to come to light: the group lies ahead, or it
    lies in the text gathered for the group that is open, or its opening
    parenthesis is the last character gathered and [s] closes it at once. *)
Definition pending (st : split_state) (s : string) : Prop :=
  (deep_count st = 0%Z /\ empty_group s = true)
  \/ ((1 <= deep_count st)%Z
      /\ exists g,
          cur_str st = String "(" g
          /\ depth_path 0 (deep_count st - 1) g = true
          /\ (empty_group g = true
              \/ ((g = EmptyString \/ exists g0, g = snoc g0 "(")
                  /\ closes_at_once s = true)
              \/ empty_group s = true)).

(** What a member of a list yields: a string is matched against the
    repository, a nested list is evaluated. *)
Definition member_outcome (atomMatch : string -> Z * Z) (x : item)
  : outcome evaluated :=
  match x with
  | Str s => if dependency atomMatch s then Ret (Some (true, [s]))
             else Ret (Some (false, []))
  | Sub _ => evaluate_item atomMatch x
  end.

(** The member does not match. *)
Definition member_fails (atomMatch : string -> Z * Z) (x : item) : Prop :=
  exists leaves, member_outcome atomMatch x = Ret (Some (false, leaves)).

(** ** Versions *)

(** A string of digits that is not empty: what [\d+] matches. *)
Definition digits (s : string) : bool := truthy s && all_digits s.

(** A character that ends a run of digits and is no separator. *)
Fixpoint no_char (c : ascii) (s : string) : bool :=
  match s with
  | EmptyString => true
  | String a r => negb (Ascii.eqb a c) && no_char c r
  end.

(** The text of a starred group is empty or starts with the separator, and
    the pieces after each separator are well formed. *)
Definition pieces (sep : ascii) (ok : string -> bool) (g : string) : Prop :=
  g = EmptyString
  \/ exists g', g = String sep g' /\ forallb ok (split sep g') = true.

(** A suffix that [suffix_regexp] matches and [suffix_value] knows. *)
Definition suffix_ok (x : string) : bool :=
  match suffix_groups x with
  | Ret (n, d) => match suffix_value n with Ret _ => true | Raise _ => false end
  | Raise _ => false
  end.

(** What a match of [ver_regexp] holds in its groups. *)
Record well_matched (m : ver_match) : Prop := {
  wm_group2 : digits (group2 m) = true;
  wm_group3 : pieces "." digits (group3 m);
  wm_group5 : group5 m = EmptyString \/ exists c, group5 m = String c EmptyString;
  wm_group6 : pieces "_" suffix_ok (group6 m);
  wm_group10 : forall d, group10 m = Some d -> digits d = true;
}.

(** The segments of two versions, as [compare_versions] meets them: at
    each index below the longer length, a segment that is missing on the
    left faces digits on the right, and every segment is made of digits. *)
Definition segments_fit (vlist1 vlist2 : list string) : Prop :=
  forall i, (i < Nat.max (length vlist1) (length vlist2))%nat ->
    (missing vlist1 i = true ->
     exists y, vlist2 !! i = Some y /\ digits y = true)
    /\ (forall x, vlist1 !! i = Some x -> all_digits x = true)
    /\ (forall y, vlist2 !! i = Some y -> all_digits y = true).

(** ** Worlds and clients of the examples *)

(** A system that refuses nothing, and a process that holds no lock. *)
Definition quiet_env : env :=
  {| mypid := 4242; open_error := fun _ => None;
     remove_error := fun _ => None |}.

Definition empty_world : world :=
  {| FILE_LOCK_MAP := ∅; files := ∅; flocks := ∅; foreign := ∅ |}.

(** A client with a package repository that is open. *)
Definition package_client : client :=
  {| repositories :=
       {| available := {["foo.tbz2" := {| temporary := false; dbpath := "/tmp/foo" |}]};
          excluded := ∅;
          order := ["foo.tbz2"; "sabayonlinux.org"] |};
     enabled_repos := ["foo.tbz2"; "sabayonlinux.org"];
     repodb_cache := {[("foo.tbz2", "") := AvailableRepository "foo.tbz2" "/tmp/foo"]};
     memory_db_instances := ∅;
     repo_error_messages_cache := ∅;
     closed := [] |}.

(** The package file was added twice: [add_repository] puts the identifier
    in front of the order each time, and the validation that follows lists
    it twice among the enabled repositories. *)
Definition twice_added_client : client :=
  {| repositories :=
       {| available := {["foo.tbz2" := {| temporary := false; dbpath := "/tmp/foo" |}]};
          excluded := ∅;
          order := ["foo.tbz2"; "foo.tbz2"] |};
     enabled_repos := ["foo.tbz2"; "foo.tbz2"];
     repodb_cache := {[("foo.tbz2", "") := AvailableRepository "foo.tbz2" "/tmp/foo"]};
     memory_db_instances := ∅;
     repo_error_messages_cache := ∅;
     closed := [] |}.

(** A temporary repository that bears the identifier of the installed
    packages repository, which the configuration files list as well. *)
Definition system_named_client : client :=
  {| repositories :=
       {| available := {["__system__" := {| temporary := true; dbpath := "" |}]};
          excluded := ∅;
          order := ["__system__"] |};
     enabled_repos := ["__system__"];
     repodb_cache := ∅;
     memory_db_instances := {[("__system__", "") := MemoryRepository "__system__"]};
     repo_error_messages_cache := ∅;
     closed := [] |}.

Definition remove_repository_here :=
  remove_repository "" ".tbz2" ".etp" (fun s => s)
    (fun _ => Ret true) (fun _ => Ret true).

Definition open_repository_here :=
  open_repository "__system__" "" InstalledRepository (fun _ => true).

(** ** Atoms *)

Import Atoms Sorter ResourceWait RepositoryClose.

(** What a character adds to the counter [skip] of [remove_usedeps]. *)
Definition bracket (c : ascii) : Z :=
  if Ascii.eqb c "[" then 1%Z else if Ascii.eqb c "]" then (-1)%Z else 0%Z.

(** Scanning [s] from the depth [d], no bracket is closed that was not
    opened. *)
Fixpoint brackets_nest (d : Z) (s : string) : bool :=
  match s with
  | EmptyString => true
  | String a r => (0 <=? d + bracket a)%Z && brackets_nest (d + bracket a) r
  end.

(** A character that [dep_getcpv] takes for an operator or a mark. *)
Definition is_mark (c : ascii) : bool :=
  existsb (Ascii.eqb c) ["*"; "!"; "="; "<"; ">"; "~"]%char.

(** The comparison operators that an atom may begin with, and none. *)
Definition comparison_operators : list string :=
  [""; ">="; "<="; "="; "<"; ">"; "~"].

(** The part of [dep_getcpv] that follows the removal of the stars. *)
Definition after_stars (mydep : string) : string :=
  let mydep := if first_is "!" mydep then slice_from mydep 1 else mydep in
  let mydep :=
    if existsb (String.eqb (slice_to mydep 2)) [">="; "<="]
    then slice_from mydep 2
    else if contains "=<>~" (slice_to mydep 1) then slice_from mydep 1
    else mydep in
  let colon := rfind ":" mydep in
  if negb (colon =? -1)%Z then slice_to mydep colon else mydep.

(** A character that [remove_package_operators] strips. *)
Definition is_operator (c : ascii) : bool :=
  contains "><=~" (String c EmptyString).

(** Every character of [s] satisfies [p]. *)
Fixpoint all_chars (p : ascii -> bool) (s : string) : bool :=
  match s with
  | EmptyString => true
  | String c r => p c && all_chars p r
  end.

(** ** Comparisons and sorted lists *)

(** One number is negative, zero or positive as the other is positive,
    zero or negative. *)
Definition opposite (r r' : pynum) : Prop :=
  pynum_sgn r' = (- pynum_sgn r)%Z.

(** The same for the answers of the loops, which may have none. *)
Definition opposite_answer (r r' : option pynum) : Prop :=
  match r, r' with
  | Some x, Some y => opposite x y
  | None, None => True
  | _, _ => False
  end.

(** [cmp_func(a, b)] is not negative: [a] may stay in front of [b]. *)
Definition not_below {A : Type} (cmp_func : A -> A -> outcome pynum)
    (a b : A) : Prop :=
  exists rc, cmp_func a b = Ret rc /\ (0 <= pynum_sgn rc)%Z.

(** [cmp_func(a, b) < 0], when the comparison returns. *)
Definition below {A : Type} (cmp_func : A -> A -> outcome pynum)
    (a b : A) : bool :=
  match cmp_func a b with
  | Ret rc => (pynum_sgn rc <? 0)%Z
  | Raise _ => false
  end.

(** The number of pairs of members, the first before the second in the
    list, that the comparison would exchange. *)
Fixpoint inversions {A : Type} (cmp_func : A -> A -> outcome pynum)
    (l : list A) : nat :=
  match l with
  | [] => 0
  | x :: r => length (List.filter (below cmp_func x) r) + inversions cmp_func r
  end.

(** One pass of the sorter, on the list itself: [x] is the member that the
    pass carries along, and the answer tells whether members were
    exchanged. *)
Fixpoint bubble {A : Type} (cmp_func : A -> A -> outcome pynum)
    (x : A) (r : list A) : outcome (list A * bool) :=
  match r with
  | [] => Ret ([x], false)
  | y :: r' =>
      rc ← cmp_func x y;
      if (pynum_sgn rc <? 0)%Z then
        '(l, _) ← bubble cmp_func x r'; Ret (y :: l, true)
      else
        '(l, c) ← bubble cmp_func y r'; Ret (x :: l, c)
  end.

(** ** Evaluations *)

(** Induction on the nesting of the lists: to show [P] of a list, [P]
    may be used on its members. *)
Fixpoint item_nested_ind (P : item -> Prop)
    (HStr : forall s, P (Str s))
    (HSub : forall l, List.Forall P l -> P (Sub l)) (x : item) : P x :=
  match x with
  | Str s => HStr s
  | Sub l =>
      HSub l
        ((fix members (l : list item) : List.Forall P l :=
            match l with
            | [] => @List.Forall_nil item P
            | y :: r =>
                @List.Forall_cons item P y r
                  (item_nested_ind P HStr HSub y) (members r)
            end) l)
  end.

(** Every leaf of the list is matched by the repository. *)
Definition all_matched (atomMatch : string -> Z * Z) (leaves : list string)
  : Prop :=
  List.Forall (fun d => dependency atomMatch d = true) leaves.

(** The two exceptions of the parser. *)
Definition parser_exn (e : exn) : Prop :=
  e = MalformedDependency \/ e = TypeError.

(** What is shown of a list: the leaves it reports are matched, and it
    raises nothing but the exceptions of the parser. *)
Definition evaluates_well (atomMatch : string -> Z * Z) (x : item) : Prop :=
  (forall leaves,
      evaluate_item atomMatch x = Ret (Some (true, leaves)) ->
      all_matched atomMatch leaves)
  /\ (forall e, evaluate_item atomMatch x = Raise e -> parser_exn e).

(** The member matches and reports the leaves [leaves]. *)
Definition member_matches (atomMatch : string -> Z * Z) (x : item)
    (leaves : list string) : Prop :=
  member_outcome atomMatch x = Ret (Some (true, leaves)).

(** ** The table of the locks *)

(** The table of the locks and the advisory locks of the process agree:
    a member of the table sits under its own path, its count is not
    negative, a reference is the file of that path and comes with a count
    of one at least, and the process holds the advisory lock of a file
    exactly when the table has a reference for it. *)
Definition lock_map_consistent (w : world) : Prop :=
  (forall k m, FILE_LOCK_MAP w !! k = Some m ->
     path m = k /\ (0 <= count m)%Z
     /\ forall n, ref m = Some n -> n = k /\ (1 <= count m)%Z)
  /\ (forall k, is_Some (flocks w !! k)
                <-> exists m, FILE_LOCK_MAP w !! k = Some m /\ ref m = Some k).

(** The world in which a call ends satisfies [P]. *)
Definition ends_in {A : Type} (r : answer A) (P : world -> Prop) : Prop :=
  match r with
  | Returns _ w => P w
  | Raises _ w => P w
  | Blocks => True
  end.

(** The process has no reference for the lock of [lock_path]. *)
Definition not_held (w : world) (lock_path : string) : Prop :=
  match FILE_LOCK_MAP w !! lock_path with
  | Some mapped => ref mapped = None /\ path mapped = lock_path
  | None => True
  end.

(** A non-blocking attempt on [lock_path] is refused: the file can be
    opened, a lock of another holder stands in the way, and the file does
    not hold the pid of the process. *)
Definition refused (e : env) (lock_path : string) (shared : bool) (w : world)
  : Prop :=
  not_held w lock_path
  /\ open_error e lock_path = None
  /\ flock_free w lock_path shared = false
  /\ String.eqb (str_of_pid (mypid e))
       (strip (read128 (touch lock_path w) lock_path)) = false.

(** Another process holds the lock of [/var/lock/entropy] and has written
    its pid. *)
Definition busy_world : world :=
  {| FILE_LOCK_MAP := ∅;
     files := {["/var/lock/entropy" := "1"]};
     flocks := ∅;
     foreign := {["/var/lock/entropy" := Exclusive]} |}.

(** A client with an in-memory repository that is open and cached. *)
Definition memory_client : client :=
  {| repositories :=
       {| available := {["tmp" := {| temporary := true; dbpath := "" |}]};
          excluded := ∅;
          order := ["tmp"] |};
     enabled_repos := ["tmp"];
     repodb_cache := {[("tmp", "") := MemoryRepository "tmp"]};
     memory_db_instances := {[("tmp", "") := MemoryRepository "tmp"]};
     repo_error_messages_cache := ∅;
     closed := [] |}.

(** * Properties *)

(** ** Strings *)

Lemma length_snoc s c : String.length (snoc s c) = S (String.length s).
Proof. unfold snoc. induction s; simpl; [reflexivity | now rewrite IHs]. Qed.

Lemma length_append s t :
  String.length (String.append s t) = (String.length s + String.length t)%nat.
Proof. induction s; simpl; [reflexivity | now rewrite IHs]. Qed.

Lemma append_cons c s t :
  String.append (String c s) t = String c (String.append s t).
Proof. reflexivity. Qed.

Lemma append_empty_l s : String.append EmptyString s = s.
Proof. reflexivity. Qed.

Lemma append_empty_r s : String.append s EmptyString = s.
Proof.
  induction s; [reflexivity|]. now rewrite append_cons, IHs.
Qed.

Lemma append_snoc s c t :
  String.append (snoc s c) t = String.append s (String c t).
Proof.
  unfold snoc. induction s; [reflexivity|].
  now rewrite !append_cons, IHs.
Qed.

Lemma length_lstrip s : (String.length (lstrip s) <= String.length s)%nat.
Proof. induction s; simpl; [lia|]. destruct (is_space a); simpl; lia. Qed.

Lemma length_rstrip s : (String.length (rstrip s) <= String.length s)%nat.
Proof.
  induction s; simpl; [lia|].
  destruct (rstrip s); [destruct (is_space a)|]; simpl in *; lia.
Qed.

Lemma length_strip s : (String.length (strip s) <= String.length s)%nat.
Proof.
  unfold strip. pose proof (length_rstrip (lstrip s)).
  pose proof (length_lstrip s). lia.
Qed.

Lemma length_substring n m s :
  (String.length (String.substring n m s) <= m)%nat
  /\ (String.length (String.substring n m s) <= String.length s - n)%nat.
Proof.
  revert n m. induction s; intros n m.
  - destruct n, m; simpl; lia.
  - destruct n.
    + destruct m; simpl; [lia|]. destruct (IHs 0%nat m). lia.
    + simpl. apply IHs.
Qed.

Lemma substring_prefix s t :
  String.substring 0 (String.length s) (String.append s t) = s.
Proof.
  induction s; simpl.
  - destruct t; reflexivity.
  - now rewrite IHs.
Qed.

Lemma find_range c s : (-1 <= find c s < Z.of_nat (String.length s))%Z
                       \/ (find c s = -1)%Z.
Proof.
  induction s; simpl; [lia|].
  destruct (Ascii.eqb a c); [lia|].
  destruct (find c s <? 0)%Z eqn:E; lia.
Qed.

Lemma find_lower c s : (-1 <= find c s)%Z.
Proof.
  induction s; simpl; [lia|].
  destruct (Ascii.eqb a c); [lia|].
  destruct (find c s <? 0)%Z eqn:E; lia.
Qed.

Lemma rfind_bounds c s : (-1 <= rfind c s < Z.max 0 (Z.of_nat (String.length s)))%Z
                         \/ (rfind c s = -1)%Z.
Proof.
  induction s; simpl; [lia|].
  destruct (0 <=? rfind c s)%Z eqn:E; [lia|].
  destruct (Ascii.eqb a c); lia.
Qed.

Lemma rfind_last c s : rfind c (snoc s c) = Z.of_nat (String.length s).
Proof.
  unfold snoc. induction s; simpl.
  - rewrite Ascii.eqb_refl. reflexivity.
  - rewrite IHs. destruct (0 <=? Z.of_nat (String.length s))%Z eqn:E; lia.
Qed.

(** The text that [__encode_sub] cuts out of a string is shorter than the
    string. *)
Lemma length_encode_slice dep :
  dep <> EmptyString ->
  (String.length (slice dep (find "(" dep + 1) (rfind ")" dep))
   < String.length dep)%nat.
Proof.
  intros Hne. unfold slice, slice_index.
  set (len := Z.of_nat (String.length dep)).
  assert (0 < len)%Z by (destruct dep; [congruence|subst len; simpl; lia]).
  pose proof (find_lower "(" dep) as Hf.
  set (a := Z.max 0 (Z.min len _)).
  set (b := Z.max 0 (Z.min len _)).
  destruct (length_substring (Z.to_nat a) (Z.to_nat (b - a)) dep) as [H1 H2].
  assert (Hb : (b <= len)%Z) by (subst b; lia).
  destruct (Z.eq_dec (find "(" dep) (-1)%Z) as [E|E].
  - assert (a = 0)%Z by (subst a; rewrite E; simpl; lia).
    assert (b < len)%Z.
    { subst b. destruct (rfind_bounds ")" dep) as [Hr|Hr].
      - destruct (rfind ")" dep <? 0)%Z eqn:E2; fold len in Hr |- *; lia.
      - rewrite Hr. simpl. fold len. lia. }
    lia.
  - assert (1 <= a)%Z.
    { subst a. destruct (find "(" dep + 1 <? 0)%Z eqn:E2; lia. }
    lia.
Qed.

(** [parse] hands ["(" + dep + ")"] to [__encode_sub], which cuts [dep]
    out of it again. *)
Lemma encode_slice_wrap dep :
  let w := String.append "(" (String.append dep ")") in
  slice w (find "(" w + 1) (rfind ")" w) = dep.
Proof.
  intros w.
  assert (Hw : w = snoc (String "(" dep) ")") by reflexivity.
  assert (Hf : find "(" w = 0%Z) by reflexivity.
  assert (Hr : rfind ")" w = Z.of_nat (S (String.length dep)))
    by (rewrite Hw; apply rfind_last).
  assert (Hl : String.length w = S (S (String.length dep)))
    by (rewrite Hw, length_snoc; reflexivity).
  unfold slice, slice_index. rewrite Hf, Hr, Hl.
  set (n := String.length dep).
  replace (if (0 + 1 <? 0)%Z then _ else _) with 1%Z by reflexivity.
  replace (if (Z.of_nat (S n) <? 0)%Z then _ else _) with (Z.of_nat (S n))
    by (destruct (Z.ltb_spec (Z.of_nat (S n)) 0); lia).
  replace (Z.max 0 (Z.min (Z.of_nat (S (S n))) 1)) with 1%Z by lia.
  replace (Z.max 0 (Z.min (Z.of_nat (S (S n))) (Z.of_nat (S n))))
    with (Z.of_nat (S n)) by lia.
  replace (Z.to_nat (Z.of_nat (S n) - 1)) with n by lia.
  change (Z.to_nat 1) with 1%nat.
  subst w n. exact (substring_prefix dep ")").
Qed.

(** ** The splitter terminates and raises nothing but [MalformedDependency] *)

Ltac split_step_cases :=
  unfold split_step;
  repeat match goal with
    | |- context [if ?b then _ else _] => destruct b eqn:?
    | |- context [match ?e ?x with _ => _ end] =>
        match type of (e x) with
        | option (outcome (list item)) => destruct (e x) as [[[|? [|? ?]]|?]|] eqn:?
        end
    end.

Section SplitFacts.

Variable encode : string -> option (outcome (list item)).

Lemma split_loop_app p q st :
  split_loop encode (String.append p q) st =
  match split_loop encode p st with
  | Some (Ret st1) => split_loop encode q st1
  | r => r
  end.
Proof.
  revert st. induction p as [|c p IH]; intros st; simpl; [reflexivity|].
  destruct (split_step encode c st) as [[st1|e]|]; auto.
Qed.

(** A step makes [cur_str] longer by one character at most. *)
Lemma split_step_cur c st st' :
  split_step encode c st = Some (Ret st') ->
  (String.length (cur_str st') <= S (String.length (cur_str st)))%nat.
Proof.
  split_step_cases; intros [= <-]; simpl; rewrite ?length_snoc; lia.
Qed.

(** The nesting counter moves with the parentheses and with nothing
    else. *)
Lemma split_step_depth c st st' :
  split_step encode c st = Some (Ret st') ->
  deep_count st' = (deep_count st + paren c)%Z.
Proof.
  unfold paren.
  split_step_cases; intros [= <-]; simpl;
    repeat match goal with
      | H : Ascii.eqb _ _ = true |- _ => apply Ascii.eqb_eq in H; subst
      | H : (_ && _)%bool = true |- _ => apply andb_true_iff in H; destruct H
      end; simpl in *; try discriminate; lia.
Qed.

(** The members found so far stay. *)
Lemma split_step_subs c st st' x :
  split_step encode c st = Some (Ret st') -> In x (subs st) -> In x (subs st').
Proof.
  split_step_cases; intros [= <-]; simpl; unfold flush;
    repeat match goal with
      | |- context [if ?b then _ else _] => destruct b
      end;
    rewrite ?in_app_iff; tauto.
Qed.

Lemma split_loop_subs s st st' x :
  split_loop encode s st = Some (Ret st') -> In x (subs st) -> In x (subs st').
Proof.
  revert st. induction s as [|c s IH]; intros st; simpl.
  - intros [= <-]. auto.
  - destruct (split_step encode c st) as [[st1|e]|] eqn:E; try discriminate.
    intros H Hx. eapply IH; eauto using split_step_subs.
Qed.

Section Bounded.

Variable B : nat.
Hypothesis encode_total :
  forall x, (String.length x <= B)%nat -> encode x <> None.

Lemma split_step_total c st :
  (String.length (cur_str st) < B)%nat -> split_step encode c st <> None.
Proof.
  intros Hlen. split_step_cases; try discriminate.
  exfalso. eapply encode_total; [|eassumption].
  pose proof (length_strip (snoc (cur_str st) c)).
  rewrite length_snoc in *. lia.
Qed.

Lemma split_loop_total s st :
  (String.length (cur_str st) + String.length s <= B)%nat ->
  split_loop encode s st <> None.
Proof.
  revert st. induction s as [|c s IH]; intros st Hlen; simpl.
  - discriminate.
  - simpl in Hlen.
    destruct (split_step encode c st) as [[st1|e]|] eqn:E.
    + apply IH. pose proof (split_step_cur _ _ _ E). lia.
    + discriminate.
    + exfalso. eapply (split_step_total c st); [lia|exact E].
Qed.

Lemma split_subs_total s :
  (String.length s <= B)%nat -> split_subs encode s <> None.
Proof.
  intros Hlen. unfold split_subs.
  destruct (split_loop encode s _) as [[st|e]|] eqn:E; try discriminate.
  exfalso. eapply split_loop_total; [|exact E]. simpl. lia.
Qed.

End Bounded.

Hypothesis encode_malformed :
  forall x e, encode x = Some (Raise e) -> e = MalformedDependency.

Lemma split_step_malformed c st e :
  split_step encode c st = Some (Raise e) -> e = MalformedDependency.
Proof.
  split_step_cases; intros [= <-]; eauto.
Qed.

Lemma split_loop_malformed s st e :
  split_loop encode s st = Some (Raise e) -> e = MalformedDependency.
Proof.
  revert st. induction s as [|c s IH]; intros st; simpl; [discriminate|].
  destruct (split_step encode c st) as [[st1|e1]|] eqn:E; try discriminate.
  - apply IH.
  - intros [= <-]. eapply split_step_malformed; eauto.
Qed.

Lemma split_subs_malformed s e :
  split_subs encode s = Some (Raise e) -> e = MalformedDependency.
Proof.
  unfold split_subs.
  destruct (split_loop encode s _) as [[st|e1]|] eqn:E; try discriminate.
  intros [= <-]. eapply split_loop_malformed; eauto.
Qed.

End SplitFacts.

Lemma encode_sub_fuel_total fuel dep :
  (String.length dep < fuel)%nat -> encode_sub_fuel fuel dep <> None.
Proof.
  revert dep. induction fuel as [|fuel IH]; intros dep Hlen; [lia|].
  simpl.
  destruct (negb (truthy _)) eqn:Hs; [discriminate|].
  assert (Hne : dep <> EmptyString).
  { intros ->. simpl in Hs. discriminate. }
  pose proof (length_encode_slice dep Hne) as Hcut.
  destruct (split_subs _ _) as [[[|x l]|e]|] eqn:E; try discriminate.
  assert (0 < String.length dep)%nat by (destruct dep; [congruence|simpl; lia]).
  exfalso.
  eapply (split_subs_total (encode_sub_fuel fuel) (pred fuel)); [| |exact E].
  - intros x Hx. apply IH. lia.
  - lia.
Qed.

Lemma encode_sub_fuel_malformed fuel dep e :
  encode_sub_fuel fuel dep = Some (Raise e) -> e = MalformedDependency.
Proof.
  revert dep e. induction fuel as [|fuel IH]; intros dep e; [discriminate|].
  simpl.
  destruct (negb (truthy _)); [intros [= <-]; reflexivity|].
  destruct (split_subs _ _) as [[[|x l]|e1]|] eqn:E; try discriminate.
  - intros [= <-]. reflexivity.
  - intros [= <-]. eapply split_subs_malformed; [|exact E]. apply IH.
Qed.

(** [__encode_sub] returns a list or raises [MalformedDependency]: the
    fuel of the model does not run out. *)
Lemma encode_sub_enough_fuel dep :
  (exists subs, encode_sub dep = Some (Ret subs))
  \/ encode_sub dep = Some (Raise MalformedDependency).
Proof.
  unfold encode_sub.
  destruct (encode_sub_fuel _ dep) as [[l|e]|] eqn:E.
  - left. eauto.
  - right. apply encode_sub_fuel_malformed in E. subst. reflexivity.
  - exfalso. eapply encode_sub_fuel_total; [|exact E]. lia.
Qed.

(** [parse()] comes to an end: it returns a pair or raises. *)
Lemma parse_terminates atomMatch dep :
  exists r, parse atomMatch dep = Some r.
Proof.
  unfold parse.
  destruct (encode_sub_enough_fuel (String.append "(" (String.append dep ")")))
    as [[l ->]| ->]; [|eauto].
  destruct (evaluate_subs atomMatch l) as [[[m ds]|]|[]]; eauto.
Qed.

(** ** A single leaf *)

Lemma plain_lstrip s : plain s = true -> plain (lstrip s) = true.
Proof.
  induction s as [|c s IH]; simpl; [auto|].
  intros H. apply andb_true_iff in H as [Hc Hs].
  destruct (is_space c); simpl; auto. rewrite Hc, Hs. reflexivity.
Qed.

Lemma plain_rstrip s : plain s = true -> plain (rstrip s) = true.
Proof.
  induction s as [|c s IH]; simpl; [auto|].
  intros H. apply andb_true_iff in H as [Hc Hs]. specialize (IH Hs).
  destruct (rstrip s); [destruct (is_space c)|]; simpl in *; rewrite ?Hc; auto.
Qed.

Lemma plain_strip s : plain s = true -> plain (strip s) = true.
Proof. intros H. apply plain_rstrip, plain_lstrip, H. Qed.

Lemma plain_remove_spaces s : plain s = true -> plain (remove_spaces s) = true.
Proof.
  induction s as [|c s IH]; simpl; [auto|].
  intros H. apply andb_true_iff in H as [Hc Hs].
  destruct (Ascii.eqb c " "); simpl; rewrite ?Hc; auto.
Qed.

Lemma plain_not_tok s tok :
  plain s = true -> plain tok = false -> String.eqb s tok = false.
Proof.
  intros Hs Ht. apply String.eqb_neq. intros ->. congruence.
Qed.

(** On a single leaf the splitter gathers the characters, blanks left out,
    and calls nothing. *)
Lemma split_loop_plain encode s st :
  plain s = true ->
  split_loop encode s st =
  Some (Ret {| deep_count := deep_count st;
               cur_str := String.append (cur_str st) (remove_spaces s);
               subs := subs st |}).
Proof.
  revert st. induction s as [|c s IH]; intros [d cur sb] H; simpl.
  - now rewrite append_empty_r.
  - apply andb_true_iff in H as [Hc Hs]. unfold plain_char in Hc.
    apply negb_true_iff in Hc.
    repeat (apply orb_false_iff in Hc as [Hc ?]).
    unfold split_step. simpl.
    destruct (Ascii.eqb c " ") eqn:Esp.
    + rewrite IH by assumption. reflexivity.
    + rewrite Hc. simpl.
      repeat match goal with H : Ascii.eqb c _ = false |- _ => rewrite H; clear H end.
      simpl. rewrite IH by assumption. simpl. now rewrite append_snoc.
Qed.

(** What [parse] gets from [__encode_sub]: the members of [dep] itself. *)
Lemma encode_sub_wrap dep :
  let w := String.append "(" (String.append dep ")") in
  encode_sub w =
  if negb (truthy dep) then Some (Raise MalformedDependency)
  else
    match split_subs (encode_sub_fuel (String.length w)) dep with
    | None => None
    | Some (Raise e) => Some (Raise e)
    | Some (Ret []) => Some (Raise MalformedDependency)
    | Some (Ret subs) => Some (Ret subs)
    end.
Proof.
  intros w. unfold encode_sub.
  change (encode_sub_fuel (S (String.length w)) w) with
    (let substring := slice w (find "(" w + 1) (rfind ")" w) in
     if negb (truthy substring) then Some (Raise MalformedDependency)
     else
       match split_subs (encode_sub_fuel (String.length w)) substring with
       | None => None
       | Some (Raise e) => Some (Raise e)
       | Some (Ret subs) =>
           match subs with
           | [] => Some (Raise MalformedDependency)
           | _ => Some (Ret subs)
           end
       end).
  cbv zeta. subst w. rewrite (encode_slice_wrap dep).
  destruct (negb (truthy dep)); [reflexivity|].
  destruct (split_subs _ dep) as [[[|x l]|e]|]; reflexivity.
Qed.

(** C10.  A dependency string that is a single leaf, with no operator and
    no parenthesis, makes [parse()] return [(False, [])], whether the
    repository matches the leaf or not: [__evaluate_subs] finds no
    operator among the members and raises [MalformedDependency], which
    [parse()] turns into this pair. *)
Theorem parse_single_leaf (atomMatch : string -> Z * Z) (dep : string) :
  plain dep = true ->
  parse atomMatch dep = Some (Ret (false, [])).
Proof.
  intros Hp. unfold parse. rewrite encode_sub_wrap.
  destruct (negb (truthy dep)); [reflexivity|].
  unfold split_subs. rewrite split_loop_plain by assumption. simpl.
  rewrite append_empty_l.
  destruct (truthy (remove_spaces dep)); [|reflexivity].
  unfold evaluate_subs. simpl.
  assert (Hx : plain (strip (remove_spaces dep)) = true)
    by (apply plain_strip, plain_remove_spaces, Hp).
  unfold tok_in, LOGIC_AND, LOGIC_OR. simpl.
  rewrite (plain_not_tok _ "&" Hx eq_refl), (plain_not_tok _ "|" Hx eq_refl).
  reflexivity.
Qed.

Lemma parse_single_leaf_witness :
  plain "app-foo/foo" = true
  /\ parse (fun _ => (1, 0)%Z) "app-foo/foo" = Some (Ret (false, [])).
Proof.
  split; [reflexivity|].
  apply (parse_single_leaf (fun _ => (1, 0)%Z) "app-foo/foo"). reflexivity.
Defined.

(** ** A lone parenthesised group *)

(** C4.  [parse()] is not total: on ["(a & b)"] the list handed to
    [__evaluate_subs] has one member, the nested list of the group, and
    no operator; the branch for nested lists has no [else], the method
    ends without a [return], and the unpacking of its [None] in [parse()]
    raises [TypeError], whatever the repository matches. *)
Theorem parse_lone_group_type_error (atomMatch : string -> Z * Z) :
  encode_sub "((a & b))" = Some (Ret [Sub [Str "a"; Str "&"; Str "b"]])
  /\ evaluate_subs atomMatch [Sub [Str "a"; Str "&"; Str "b"]] = Ret None
  /\ parse atomMatch "(a & b)" = Some (Raise TypeError).
Proof. repeat split; reflexivity. Qed.

(** ** Lists of alternatives *)

Section OrLists.

Variable atomMatch : string -> Z * Z.

Local Abbreviation evaluate := (evaluate_item atomMatch).

(** Skipping the operator while looping is looping over the list
    without the operator. *)
Lemma or_members_drop_tok l :
  or_members atomMatch evaluate l
  = or_members atomMatch evaluate (drop_tok LOGIC_OR l).
Proof.
  induction l as [|x l IH]; [reflexivity|].
  unfold drop_tok in *. simpl.
  destruct (is_tok LOGIC_OR x) eqn:E; simpl; [exact IH|].
  rewrite E. destruct x as [s|g].
  - destruct (dependency atomMatch s); [reflexivity|exact IH].
  - destruct (evaluate (Sub g)) as [[[[] ?]|]|]; try reflexivity. exact IH.
Qed.

(** Without nested lists, the two loops over the alternatives agree. *)
Lemma first_match_or_members l :
  List.filter isinstance_list l = [] ->
  Ret (first_match atomMatch (map item_str (drop_tok LOGIC_OR l)))
  = or_members atomMatch evaluate l.
Proof.
  induction l as [|x l IH]; [reflexivity|].
  unfold drop_tok in *. simpl.
  destruct x as [s|g]; simpl; [|discriminate].
  intros Hl. destruct (String.eqb s LOGIC_OR); simpl; [auto|].
  destruct (dependency atomMatch s); auto.
Qed.

(** A list of alternatives is evaluated by the loop [or_members]. *)
Lemma evaluate_or_list iterable :
  tok_in LOGIC_OR iterable = true ->
  tok_in LOGIC_AND iterable = false ->
  evaluate_subs atomMatch iterable = or_members atomMatch evaluate iterable.
Proof.
  intros Hor Hand. unfold evaluate_subs. simpl. rewrite Hor, Hand. simpl.
  destruct (List.filter isinstance_list iterable) eqn:E; [|reflexivity].
  apply first_match_or_members, E.
Qed.

Local Abbreviation member_outcome := (member_outcome atomMatch).
Local Abbreviation member_fails := (member_fails atomMatch).

Lemma or_members_first pre m post leaves :
  Forall (fun x => is_tok LOGIC_OR x = false) (pre ++ m :: post) ->
  Forall member_fails pre ->
  member_outcome m = Ret (Some (true, leaves)) ->
  or_members atomMatch evaluate (pre ++ m :: post) = Ret (Some (true, leaves)).
Proof.
  induction pre as [|x pre IH]; simpl; intros Htok Hpre Hm.
  - apply Forall_cons in Htok as [-> _].
    destruct m as [s|g]; unfold member_outcome in Hm.
    + destruct (dependency atomMatch s); congruence.
    + rewrite Hm. reflexivity.
  - apply Forall_cons in Htok as [-> Htok].
    apply Forall_cons in Hpre as [[ls Hx] Hpre].
    destruct x as [s|g]; unfold member_outcome in Hx.
    + destruct (dependency atomMatch s); [discriminate|]. auto.
    + rewrite Hx. auto.
Qed.

Lemma or_members_none l :
  Forall member_fails l ->
  or_members atomMatch evaluate l = Ret (Some (false, [])).
Proof.
  induction l as [|x l IH]; simpl; intros Hl; [reflexivity|].
  apply Forall_cons in Hl as [[ls Hx] Hl].
  destruct (is_tok LOGIC_OR x); [auto|].
  destruct x as [s|g]; unfold member_outcome in Hx.
  - destruct (dependency atomMatch s); [discriminate|]. auto.
  - rewrite Hx. auto.
Qed.

Lemma drop_tok_not_tok tok l :
  Forall (fun x => is_tok tok x = false) (drop_tok tok l).
Proof.
  unfold drop_tok. apply List.Forall_forall. intros x Hx.
  apply List.filter_In in Hx as [_ Hx]. now apply negb_true_iff.
Qed.

(** A list that does not match has no matched leaves. *)
Lemma first_match_false l leaves :
  first_match atomMatch l = Some (false, leaves) -> leaves = [].
Proof.
  induction l as [|x l IH]; simpl; [congruence|].
  destruct (dependency atomMatch x); [discriminate|auto].
Qed.

Lemma or_members_false l leaves :
  or_members atomMatch evaluate l = Ret (Some (false, leaves)) -> leaves = [].
Proof.
  induction l as [|x l IH]; simpl; [congruence|].
  destruct (is_tok LOGIC_OR x); [auto|].
  destruct x as [s|g].
  - destruct (dependency atomMatch s); [discriminate|auto].
  - destruct (evaluate (Sub g)) as [[[[] ?]|]|]; try discriminate; auto.
Qed.

Lemma and_members_false l outcomes leaves :
  and_members atomMatch evaluate l outcomes = Ret (Some (false, leaves)) ->
  leaves = [].
Proof.
  revert outcomes. induction l as [|x l IH]; simpl; intros outcomes.
  - discriminate.
  - destruct (is_tok LOGIC_AND x); [apply IH|].
    destruct x as [s|g].
    + destruct (dependency atomMatch s); [apply IH|congruence].
    + destruct (evaluate (Sub g)) as [[[[] ?]|]|]; try discriminate;
        [apply IH|congruence].
Qed.

Lemma evaluate_subs_false iterable leaves :
  evaluate_subs atomMatch iterable = Ret (Some (false, leaves)) -> leaves = [].
Proof.
  unfold evaluate_subs. simpl.
  destruct (tok_in LOGIC_AND iterable && tok_in LOGIC_OR iterable);
    [discriminate|].
  destruct (List.filter isinstance_list iterable).
  - destruct (tok_in LOGIC_AND iterable).
    + destruct (forallb _ _); congruence.
    + destruct (tok_in LOGIC_OR iterable); [|discriminate].
      intros [= H]. eapply first_match_false, H.
  - destruct (tok_in LOGIC_AND iterable); [apply and_members_false|].
    destruct (tok_in LOGIC_OR iterable); [apply or_members_false|discriminate].
Qed.

End OrLists.

(** C5.  A list of alternatives is evaluated from left to right and stops
    at the first member that matches, whose matched leaves are the result;
    when no member matches the result is [(False, [])]; a list that does
    not match, a conjunction among them, hands no leaf over.  So
    ["(a & b) | c"] on a repository that has [b] and [c] but not [a] gives
    [(True, ["c"])]. *)
Theorem or_list_first_match (atomMatch : string -> Z * Z) :
  (forall iterable pre m post leaves,
      tok_in LOGIC_OR iterable = true ->
      tok_in LOGIC_AND iterable = false ->
      drop_tok LOGIC_OR iterable = pre ++ m :: post ->
      Forall (member_fails atomMatch) pre ->
      member_outcome atomMatch m = Ret (Some (true, leaves)) ->
      evaluate_subs atomMatch iterable = Ret (Some (true, leaves)))
  /\ (forall iterable,
      tok_in LOGIC_OR iterable = true ->
      tok_in LOGIC_AND iterable = false ->
      Forall (member_fails atomMatch) (drop_tok LOGIC_OR iterable) ->
      evaluate_subs atomMatch iterable = Ret (Some (false, [])))
  /\ (forall iterable leaves,
      evaluate_subs atomMatch iterable = Ret (Some (false, leaves)) ->
      leaves = [])
  /\ (dependency atomMatch "a" = false ->
      dependency atomMatch "b" = true ->
      dependency atomMatch "c" = true ->
      parse atomMatch "(a & b) | c" = Some (Ret (true, ["c"]))).
Proof.
  assert (Hfirst : forall iterable pre m post leaves,
      tok_in LOGIC_OR iterable = true ->
      tok_in LOGIC_AND iterable = false ->
      drop_tok LOGIC_OR iterable = pre ++ m :: post ->
      Forall (member_fails atomMatch) pre ->
      member_outcome atomMatch m = Ret (Some (true, leaves)) ->
      evaluate_subs atomMatch iterable = Ret (Some (true, leaves))).
  { intros iterable pre m post leaves Hor Hand Hsplit Hpre Hm.
    rewrite evaluate_or_list, or_members_drop_tok by assumption.
    pose proof (drop_tok_not_tok LOGIC_OR iterable) as Htok.
    rewrite Hsplit in *. now apply or_members_first. }
  repeat split.
  - exact Hfirst.
  - intros iterable Hor Hand Hall.
    rewrite evaluate_or_list, or_members_drop_tok by assumption.
    now apply or_members_none.
  - apply evaluate_subs_false.
  - intros Ha Hb Hc.
    assert (Henc : encode_sub "((a & b) | c)"
                   = Some (Ret [Sub [Str "a"; Str "&"; Str "b"]; Str "|"; Str "c"]))
      by reflexivity.
    unfold parse.
    change (String.append "(" (String.append "(a & b) | c" ")"))
      with "((a & b) | c)".
    rewrite Henc.
    rewrite (Hfirst _ [Sub [Str "a"; Str "&"; Str "b"]] (Str "c") [] ["c"]);
      try reflexivity.
    + constructor; [|constructor]. exists []. unfold member_outcome. simpl.
      unfold tok_in. simpl. rewrite Ha. reflexivity.
    + unfold member_outcome. rewrite Hc. reflexivity.
Qed.

Lemma or_list_first_match_witness :
  let atomMatch := fun s : string =>
    if String.eqb s "a" then ((-1)%Z, 1%Z) else (1%Z, 0%Z) in
  parse atomMatch "(a & b) | c" = Some (Ret (true, ["c"]))
  /\ evaluate_subs atomMatch [Sub [Str "a"; Str "&"; Str "b"]; Str "|"; Str "c"]
     = Ret (Some (true, ["c"])).
Proof.
  intros atomMatch. split.
  - apply (proj2 (proj2 (proj2 (or_list_first_match atomMatch)))); reflexivity.
  - apply (proj1 (or_list_first_match atomMatch) _
             [Sub [Str "a"; Str "&"; Str "b"]] (Str "c") []); try reflexivity.
    constructor; [|constructor]. exists []. reflexivity.
Defined.

(** ** Malformed dependency strings *)

Lemma tok_in_In tok l : In (Str tok) l -> tok_in tok l = true.
Proof.
  intros H. unfold tok_in. apply existsb_exists. exists (Str tok).
  split; [exact H|]. simpl. apply String.eqb_refl.
Qed.

Lemma evaluate_subs_mixed atomMatch iterable :
  tok_in LOGIC_AND iterable = true ->
  tok_in LOGIC_OR iterable = true ->
  evaluate_subs atomMatch iterable = Raise MalformedDependency.
Proof. intros Ha Ho. unfold evaluate_subs. simpl. now rewrite Ha, Ho. Qed.

Section SplitOperators.

Variable encode : string -> option (outcome (list item)).

(** An operator met while the nesting counter is zero becomes a member. *)
Lemma split_loop_operator c s st st' :
  c = "&"%char \/ c = "|"%char ->
  occurs_at_top c (deep_count st) s = true ->
  split_loop encode s st = Some (Ret st') ->
  In (Str (String c EmptyString)) (subs st').
Proof.
  intros Hc. revert st. induction s as [|a s IH]; intros st; simpl;
    [discriminate|].
  intros Hocc. destruct (split_step encode a st) as [[st1|e]|] eqn:E;
    try discriminate.
  intros Hloop. apply orb_true_iff in Hocc as [Hhere|Hlater].
  - apply andb_true_iff in Hhere as [Ha Hd].
    apply Ascii.eqb_eq in Ha. subst a.
    eapply split_loop_subs; [exact Hloop|].
    revert E. unfold split_step. rewrite Hd.
    destruct Hc as [-> | ->]; simpl; intros [= <-]; simpl;
      apply in_app_iff; right; left; reflexivity.
  - apply (IH st1); [|exact Hloop].
    now rewrite (split_step_depth _ _ _ _ E).
Qed.

Lemma split_subs_operator c s l :
  c = "&"%char \/ c = "|"%char ->
  occurs_at_top c 0 s = true ->
  split_subs encode s = Some (Ret l) ->
  In (Str (String c EmptyString)) l.
Proof.
  intros Hc Hocc. unfold split_subs.
  destruct (split_loop encode s _) as [[st|e]|] eqn:E; try discriminate.
  intros [= <-].
  pose proof (split_loop_operator c s
                {| deep_count := 0; cur_str := EmptyString; subs := [] |}
                st Hc Hocc E) as Hin.
  destruct (truthy (cur_str st)); [apply in_app_iff; left|]; exact Hin.
Qed.

Hypothesis encode_empty_group :
  encode "()" = Some (Raise MalformedDependency).

(** Right after the opening parenthesis of a group at the top level, a
    closing one makes [__encode_sub] raise. *)
Lemma split_loop_closes_at_once s st st' :
  closes_at_once s = true ->
  deep_count st = 1%Z ->
  cur_str st = "(" ->
  split_loop encode s st <> Some (Ret st').
Proof.
  revert st. induction s as [|a s IH]; intros [d cur sb]; simpl;
    [discriminate|].
  intros Hs -> ->. unfold split_step. simpl.
  destruct (Ascii.eqb a " ") eqn:Esp; [now apply IH|].
  apply Ascii.eqb_eq in Hs. subst a. simpl.
  change (strip (snoc "(" ")")) with "()". rewrite encode_empty_group.
  discriminate.
Qed.

Lemma split_loop_empty_group s st st' :
  empty_group_at_top (deep_count st) s = true ->
  split_loop encode s st <> Some (Ret st').
Proof.
  revert st. induction s as [|a s IH]; intros st; simpl; [discriminate|].
  intros Hg. destruct (split_step encode a st) as [[st1|e]|] eqn:E;
    try discriminate.
  apply orb_true_iff in Hg as [Hhere|Hlater].
  - apply andb_true_iff in Hhere as [Hhere Hs].
    apply andb_true_iff in Hhere as [Ha Hd].
    apply Ascii.eqb_eq in Ha. subst a.
    revert E. unfold split_step. rewrite Hd. simpl. intros [= <-].
    apply Z.eqb_eq in Hd.
    apply split_loop_closes_at_once; simpl; [exact Hs|lia|reflexivity].
  - apply IH. now rewrite (split_step_depth _ _ _ _ E).
Qed.

Lemma split_subs_empty_group s l :
  empty_group_at_top 0 s = true -> split_subs encode s <> Some (Ret l).
Proof.
  intros Hg. unfold split_subs.
  destruct (split_loop encode s _) as [[st|e]|] eqn:E; try discriminate.
  exfalso.
  apply (split_loop_empty_group s
           {| deep_count := 0; cur_str := EmptyString; subs := [] |} st Hg E).
Qed.

End SplitOperators.

(** *** Empty groups below the top level *)

Lemma snoc_cons a s c : snoc (String a s) c = String a (snoc s c).
Proof. reflexivity. Qed.

Lemma rstrip_snoc s c : is_space c = false -> rstrip (snoc s c) = snoc s c.
Proof.
  intros Hc. induction s as [|a s IH].
  - unfold snoc. simpl. now rewrite Hc.
  - rewrite snoc_cons. simpl. rewrite IH.
    destruct s; reflexivity.
Qed.

Lemma strip_group g :
  strip (String "(" (snoc g ")")) = String "(" (snoc g ")").
Proof.
  unfold strip.
  change (lstrip (String "(" (snoc g ")"))) with (snoc (String "(" g) ")").
  now apply rstrip_snoc.
Qed.

Lemma closes_at_once_snoc g a :
  closes_at_once g = true -> closes_at_once (snoc g a) = true.
Proof.
  induction g as [|b g IH]; [discriminate|]. rewrite snoc_cons. simpl.
  destruct (Ascii.eqb b " "); auto.
Qed.

Lemma empty_group_snoc g a :
  empty_group g = true -> empty_group (snoc g a) = true.
Proof.
  induction g as [|b g IH]; [discriminate|]. rewrite snoc_cons. simpl.
  intros H. apply orb_true_iff in H as [H|H]; apply orb_true_iff.
  - apply andb_true_iff in H as [Hb Hc]. left.
    rewrite Hb. now rewrite closes_at_once_snoc.
  - right. auto.
Qed.

Lemma empty_group_open_close g :
  empty_group (snoc (snoc g "(") ")") = true.
Proof.
  induction g as [|b g IH]; [reflexivity|].
  rewrite !snoc_cons. simpl. rewrite IH. apply orb_true_r.
Qed.

Lemma depth_path_snoc d t g a :
  depth_path d t g = true -> (0 <= t + paren a)%Z ->
  depth_path d (t + paren a) (snoc g a) = true.
Proof.
  revert d. induction g as [|b g IH]; intros d.
  - cbn [depth_path]. intros Hd Ht. apply Z.eqb_eq in Hd. subst.
    change (snoc "" a) with (String a ""). cbn [depth_path].
    apply andb_true_iff. split; [lia|apply Z.eqb_refl].
  - rewrite snoc_cons. cbn [depth_path]. intros H Ht.
    apply andb_true_iff in H as [H1 H2].
    rewrite H1. simpl. auto.
Qed.

Lemma depth_path_ends_open d t g :
  depth_path d t (snoc g "(") = true -> (0 <= d)%Z -> (1 <= t)%Z.
Proof.
  revert d. induction g as [|b g IH]; intros d.
  - change (snoc "" "(") with "(". cbn [depth_path].
    change (paren "(") with 1%Z. intros H Hd.
    apply andb_true_iff in H as [_ H]. lia.
  - rewrite snoc_cons. cbn [depth_path]. intros H Hd.
    apply andb_true_iff in H as [H1 H2]. apply (IH _ H2). lia.
Qed.

Section NestedGroups.

Variable encode : string -> option (outcome (list item)).

Hypothesis encode_empty_inside :
  forall g l,
    balanced g = true -> g = EmptyString \/ empty_group g = true ->
    encode (String "(" (snoc g ")")) <> Some (Ret l).

Lemma split_step_pending a r st st1 :
  depth_path (deep_count st) 0 (String a r) = true ->
  pending st (String a r) ->
  split_step encode a st = Some (Ret st1) ->
  pending st1 r.
Proof.
  destruct st as [D cur sb]. cbn [depth_path deep_count cur_str].
  intros Hpath Hp Hstep.
  apply andb_true_iff in Hpath as [H0 Hr]. apply Z.leb_le in H0.
  unfold pending in Hp. cbn [deep_count cur_str] in Hp.
  unfold split_step in Hstep. cbn [deep_count cur_str subs] in Hstep.
  destruct (Ascii.eqb_spec a " ") as [->|Hsp].
  { (* a blank is skipped *)
    injection Hstep as <-. unfold pending. cbn [deep_count cur_str].
    destruct Hp as [[HD He]|[HD (g & Hg & Hpath & He)]].
    - left. split; [exact HD|]. exact He.
    - right. split; [exact HD|]. exists g. split; [exact Hg|].
      split; [exact Hpath|]. destruct He as [He|[[Hg0 Hc]|He]].
      + left. exact He.
      + right. left. split; [exact Hg0|exact Hc].
      + right. right. exact He. }
  destruct (Ascii.eqb_spec a "(") as [->|Hop].
  { change (paren "(") with 1%Z in *.
    destruct (Z.eqb_spec D 0) as [->|HD0]; cbn [andb] in Hstep.
    - injection Hstep as <-. right. cbn [deep_count cur_str].
      split; [lia|]. exists EmptyString. split; [reflexivity|].
      split; [reflexivity|].
      destruct Hp as [[_ He]|[HD _]]; [|lia].
      cbn [empty_group] in He. rewrite Ascii.eqb_refl in He. cbn [andb] in He.
      apply orb_true_iff in He as [He|He]; auto.
    - injection Hstep as <-. right. cbn [deep_count cur_str].
      destruct Hp as [[HD _]|[HD (g & -> & Hpath & He)]]; [lia|].
      split; [lia|]. exists (snoc g "("). split; [reflexivity|]. split.
      + replace (D + 1 - 1)%Z with (D - 1 + paren "(")%Z
          by (change (paren "(") with 1%Z; lia).
        apply depth_path_snoc; [exact Hpath|change (paren "(") with 1%Z; lia].
      + destruct He as [He|[[_ Hc]|He]].
        * left. now apply empty_group_snoc.
        * discriminate Hc.
        * cbn [empty_group] in He. rewrite Ascii.eqb_refl in He.
          cbn [andb] in He. apply orb_true_iff in He as [He|He].
          -- right. left. split; [right; exists g; reflexivity|exact He].
          -- right. right. exact He. }
  assert (Hop' : Ascii.eqb a "(" = false) by now apply Ascii.eqb_neq.
  rewrite ?Hop' in Hstep. cbn [andb] in Hstep.
  assert (Hegr : empty_group (String a r) = true -> empty_group r = true).
  { cbn [empty_group]. rewrite Hop'. cbn [andb orb]. auto. }
  destruct (Ascii.eqb_spec a ")") as [->|Hcl].
  { change (paren ")") with (-1)%Z in *.
    destruct Hp as [[HD _]|[HD (g & -> & Hpath & He)]]; [lia|].
    cbn [Ascii.eqb Bool.eqb andb] in Hstep.
    destruct (Z.eqb_spec (D - 1) 0) as [HD1|HD1].
    - assert (D = 1%Z) by lia. subst D.
      change (snoc (String "(" g) ")") with (String "(" (snoc g ")")) in Hstep.
      rewrite strip_group in Hstep.
      destruct (encode (String "(" (snoc g ")"))) as [[deps|e]|] eqn:Eenc;
        try discriminate.
      assert (Hst1 : deep_count st1 = 0%Z /\ cur_str st1 = EmptyString).
      { destruct deps as [|x [|y deps]]; try discriminate;
          injection Hstep as <-; split; reflexivity. }
      destruct Hst1 as [Hd1 Hc1].
      left. split; [exact Hd1|].
      destruct He as [He|[[Hg0 Hc]|He]].
      + exfalso. apply (encode_empty_inside g deps); auto.
      + destruct Hg0 as [->|[g0 ->]].
        * exfalso. apply (encode_empty_inside EmptyString deps); auto.
        * apply depth_path_ends_open in Hpath; lia.
      + auto.
    - injection Hstep as <-. right. cbn [deep_count cur_str].
      split; [lia|]. exists (snoc g ")"). split; [reflexivity|]. split.
      + replace (D - 1 - 1)%Z with (D - 1 + paren ")")%Z
          by (change (paren ")") with (-1)%Z; lia).
        apply depth_path_snoc; [exact Hpath|change (paren ")") with (-1)%Z; lia].
      + destruct He as [He|[[Hg0 Hc]|He]].
        * left. now apply empty_group_snoc.
        * destruct Hg0 as [->|[g0 ->]].
          -- cbn [depth_path] in Hpath. apply Z.eqb_eq in Hpath. lia.
          -- left. apply empty_group_open_close.
        * auto. }
  assert (Hcl' : Ascii.eqb a ")" = false) by now apply Ascii.eqb_neq.
  assert (Hpar : paren a = 0%Z) by (unfold paren; now rewrite Hop', Hcl').
  rewrite Hpar in *.
  assert (Hother :
    forall sb', st1 = {| deep_count := D; cur_str := snoc cur a; subs := sb' |} ->
    (1 <= D)%Z -> pending st1 r).
  { intros sb' -> HD1. right. cbn [deep_count cur_str]. split; [exact HD1|].
    destruct Hp as [[HD _]|[HD (g & -> & Hpath & He)]]; [lia|].
    exists (snoc g a). split; [reflexivity|]. split.
    - replace (D - 1)%Z with (D - 1 + paren a)%Z by lia.
      apply depth_path_snoc; [exact Hpath|lia].
    - destruct He as [He|[[_ Hc]|He]].
      + left. now apply empty_group_snoc.
      + exfalso. cbn [closes_at_once] in Hc.
        apply Ascii.eqb_neq in Hsp. rewrite Hsp, Hcl' in Hc. discriminate.
      + auto. }
  assert (Htop :
    forall c' sb', st1 = {| deep_count := D; cur_str := c'; subs := sb' |} ->
    D = 0%Z -> pending st1 r).
  { intros c' sb' -> HD0. left. cbn [deep_count]. split; [exact HD0|].
    destruct Hp as [[_ He]|[HD _]]; [auto|lia]. }
  destruct (Z.eqb_spec D 0) as [HD0|HD0].
  - rewrite ?andb_true_r in Hstep.
    destruct (Ascii.eqb a "|"); [injection Hstep as <-; eapply Htop; eauto|].
    destruct (Ascii.eqb a "&"); [injection Hstep as <-; eapply Htop; eauto|].
    rewrite ?Hcl' in Hstep. injection Hstep as <-. eapply Htop; eauto.
  - rewrite ?andb_false_r in Hstep. rewrite ?Hcl' in Hstep.
    injection Hstep as <-. eapply Hother; [reflexivity|].
    destruct Hp as [[HD _]|[HD _]]; lia.
Qed.

Lemma split_loop_pending s st st' :
  depth_path (deep_count st) 0 s = true ->
  pending st s ->
  split_loop encode s st <> Some (Ret st').
Proof.
  revert st. induction s as [|a s IH]; intros st Hpath Hp.
  - exfalso. cbn [depth_path] in Hpath. apply Z.eqb_eq in Hpath.
    destruct Hp as [[_ He]|[HD _]]; [discriminate|lia].
  - cbn [split_loop].
    destruct (split_step encode a st) as [[st1|e]|] eqn:E; try discriminate.
    apply IH.
    + cbn [depth_path] in Hpath. apply andb_true_iff in Hpath as [_ Hr].
      now rewrite (split_step_depth _ _ _ _ E).
    + eapply split_step_pending; eauto.
Qed.

Lemma split_subs_nested_empty_group s l :
  balanced s = true -> empty_group s = true ->
  split_subs encode s <> Some (Ret l).
Proof.
  intros Hb He. unfold split_subs.
  destruct (split_loop encode s _) as [[st|e]|] eqn:E; try discriminate.
  exfalso. revert E. apply split_loop_pending; [exact Hb|].
  left. split; [reflexivity|exact He].
Qed.

End NestedGroups.

Lemma encode_sub_fuel_nested_empty_group fuel g l :
  balanced g = true -> g = EmptyString \/ empty_group g = true ->
  encode_sub_fuel fuel (String "(" (snoc g ")")) <> Some (Ret l).
Proof.
  revert g l. induction fuel as [|fuel IH]; intros g l Hb Hg; [discriminate|].
  pose proof (encode_slice_wrap g) as Hcut. cbv zeta in Hcut.
  change (String.append "(" (String.append g ")"))
    with (String "(" (snoc g ")")) in Hcut.
  cbn [encode_sub_fuel]. rewrite Hcut.
  destruct (negb (truthy g)) eqn:Et; [discriminate|].
  destruct Hg as [->|Hg]; [discriminate|].
  destruct (split_subs (encode_sub_fuel fuel) g) as [[l'|e]|] eqn:E;
    try discriminate.
  exfalso. revert E. apply split_subs_nested_empty_group; auto.
Qed.

(** C3, as the code has it.  When [&] and [|] both occur at the top
    nesting level of the dependency string, when the string has an empty
    group at the top nesting level, or when it has an empty group at any
    level and its parentheses are balanced, [MalformedDependency] is
    raised inside the parser and [parse()] catches it: the caller gets the
    pair [(False, [])] and no exception. *)
Theorem parse_malformed_is_caught (atomMatch : string -> Z * Z) (dep : string) :
  (occurs_at_top "&" 0 dep = true /\ occurs_at_top "|" 0 dep = true)
  \/ empty_group_at_top 0 dep = true
  \/ (balanced dep = true /\ empty_group dep = true) ->
  parse atomMatch dep = Some (Ret (false, [])).
Proof.
  intros H. unfold parse.
  set (w := String.append "(" (String.append dep ")")).
  destruct (encode_sub_enough_fuel w) as [[l Hl]|Hl]; rewrite Hl; [|reflexivity].
  pose proof (encode_sub_wrap dep) as Hw. fold w in Hw. cbv zeta in Hw.
  rewrite Hl in Hw.
  destruct (negb (truthy dep)); [discriminate|].
  destruct (split_subs _ dep) as [[l'|e]|] eqn:E; try discriminate.
  assert (l' = l) by (destruct l'; congruence). subst l'.
  destruct H as [[Hand Hor]|[Hgroup|[Hbal Hgroup]]].
  - rewrite evaluate_subs_mixed; [reflexivity| |].
    + apply tok_in_In. eapply (split_subs_operator _ "&"); eauto.
    + apply tok_in_In. eapply (split_subs_operator _ "|"); eauto.
  - exfalso. eapply split_subs_empty_group; [|exact Hgroup|exact E].
    reflexivity.
  - exfalso. revert E. apply split_subs_nested_empty_group; [|exact Hbal|exact Hgroup].
    intros g l0. apply encode_sub_fuel_nested_empty_group.
Qed.

Lemma parse_malformed_is_caught_witness :
  parse (fun _ => (1, 0)%Z) "a & b | c" = Some (Ret (false, []))
  /\ parse (fun _ => (1, 0)%Z) "a | ( )" = Some (Ret (false, []))
  /\ parse (fun _ => (1, 0)%Z) "a | (b & ())" = Some (Ret (false, [])).
Proof.
  split; [|split].
  - apply (parse_malformed_is_caught (fun _ => (1, 0)%Z) "a & b | c").
    left. split; reflexivity.
  - apply (parse_malformed_is_caught (fun _ => (1, 0)%Z) "a | ( )").
    right. left. reflexivity.
  - apply (parse_malformed_is_caught (fun _ => (1, 0)%Z) "a | (b & ())").
    right. right. split; reflexivity.
Defined.

(** C3, as it is stated, fails: the caller of [parse()] sees no exception
    for ["a & b | c"]; operators mixed inside a group that the evaluation
    does not reach go unnoticed; and so does an empty group inside a
    group that is never closed. *)
Lemma parse_mixed_not_raised :
  parse (fun _ => (1, 0)%Z) "a & b | c" <> Some (Raise MalformedDependency)
  /\ parse (fun _ => (1, 0)%Z) "a & b | c" = Some (Ret (false, []))
  /\ parse (fun _ => (1, 0)%Z) "d | (a & b | c)" = Some (Ret (true, ["d"]))
  /\ parse (fun _ => (1, 0)%Z) "x | (a ()" = Some (Ret (true, ["x"])).
Proof. split; [discriminate | repeat split]. Qed.

(** ** Versions *)

(** *** [compare_versions] raises nothing *)

Lemma span_append p s m rest :
  span p s = (m, rest) -> s = String.append m rest.
Proof.
  revert m rest. induction s as [|c s IH]; intros m rest; simpl.
  - intros [= <- <-]. reflexivity.
  - destruct (p c).
    + destruct (span p s) as [m' rest'] eqn:E. intros [= <- <-].
      rewrite append_cons. f_equal. now apply IH.
    + intros [= <- <-]. reflexivity.
Qed.

Lemma span_digits s m rest :
  span is_digit s = (m, rest) -> all_digits m = true.
Proof.
  revert m rest. induction s as [|c s IH]; intros m rest; simpl.
  - intros [= <- <-]. reflexivity.
  - destruct (is_digit c) eqn:Ec.
    + destruct (span is_digit s) as [m' rest'] eqn:E. intros [= <- <-].
      simpl. rewrite Ec. simpl. eapply IH; eauto.
    + intros [= <- <-]. reflexivity.
Qed.

Lemma span_all_digits d :
  all_digits d = true -> span is_digit d = (d, EmptyString).
Proof.
  induction d as [|c d IH]; simpl; [reflexivity|].
  intros H. apply andb_true_iff in H as [Hc Hd].
  rewrite Hc, (IH Hd). reflexivity.
Qed.

Lemma py_int_digits s : digits s = true -> exists v, py_int s = Ret v.
Proof. unfold digits, py_int. intros ->. eauto. Qed.

Lemma float_of_fraction_digits s :
  all_digits s = true -> exists v, float_of_fraction s = Ret v.
Proof. unfold float_of_fraction. intros ->. eauto. Qed.

Lemma all_digits_no_char c d :
  is_digit c = false -> all_digits d = true -> no_char c d = true.
Proof.
  intros Hc. induction d as [|a d IH]; simpl; [reflexivity|].
  intros H. apply andb_true_iff in H as [Ha Hd]. rewrite (IH Hd).
  destruct (Ascii.eqb_spec a c); [congruence|reflexivity].
Qed.

(** Splitting after a piece that does not hold the separator. *)
Lemma split_no_char_end sep d :
  no_char sep d = true -> split sep d = [d].
Proof.
  induction d as [|a d IH]; simpl; [reflexivity|].
  intros H. apply andb_true_iff in H as [Ha Hd].
  apply negb_true_iff in Ha. rewrite Ha, (IH Hd). reflexivity.
Qed.

Lemma split_no_char_sep sep d x :
  no_char sep d = true ->
  split sep (String.append d (String sep x)) = d :: split sep x.
Proof.
  induction d as [|a d IH]; intros H.
  - rewrite append_empty_l. simpl. now rewrite Ascii.eqb_refl.
  - simpl in H. apply andb_true_iff in H as [Ha Hd].
    apply negb_true_iff in Ha. rewrite append_cons. simpl.
    rewrite Ha, (IH Hd). reflexivity.
Qed.

Lemma append_assoc a b c :
  String.append (String.append a b) c = String.append a (String.append b c).
Proof.
  induction a; [reflexivity|]. now rewrite !append_cons, IHa.
Qed.

Lemma star_pieces sep ok step :
  (forall s m rest, step s = Some (m, rest) ->
     exists x, m = String sep x /\ no_char sep x = true /\ ok x = true) ->
  forall fuel s g rest, star step fuel s = (g, rest) -> pieces sep ok g.
Proof.
  intros Hstep. induction fuel as [|fuel IH]; intros s g rest; simpl.
  - intros [= <- <-]. now left.
  - destruct (step s) as [[m rest1]|] eqn:E.
    + destruct (star step fuel rest1) as [ms rest2] eqn:E2.
      intros [= <- <-]. right.
      destruct (Hstep _ _ _ E) as (x & -> & Hx & Hok).
      exists (String.append x ms). split; [reflexivity|].
      destruct (IH _ _ _ E2) as [->|(g' & -> & Hg')].
      * rewrite append_empty_r, split_no_char_end by assumption.
        simpl. now rewrite Hok.
      * rewrite split_no_char_sep by assumption. simpl. now rewrite Hok, Hg'.
    + intros [= <- <-]. now left.
Qed.

Lemma dotted_step_piece s m rest :
  dotted_step s = Some (m, rest) ->
  exists x, m = String "." x /\ no_char "." x = true /\ digits x = true.
Proof.
  unfold dotted_step. destruct s as [|c r]; [discriminate|].
  destruct (Ascii.eqb_spec c "."); [subst|discriminate].
  destruct (span is_digit r) as [d rest'] eqn:E.
  destruct (truthy d) eqn:Ht; [|discriminate].
  intros [= <- <-]. exists d. split; [reflexivity|].
  pose proof (span_digits _ _ _ E) as Hd.
  split; [now apply all_digits_no_char|]. unfold digits. now rewrite Ht, Hd.
Qed.

Lemma no_char_append c a b :
  no_char c (String.append a b) = no_char c a && no_char c b.
Proof.
  induction a as [|x a IH]; [reflexivity|].
  rewrite append_cons. simpl. rewrite IH. now rewrite andb_assoc.
Qed.

Lemma strip_prefix_append pre s rest :
  strip_prefix pre s = Some rest -> s = String.append pre rest.
Proof.
  revert s. induction pre as [|a pre IH]; intros s; simpl.
  - intros [= <-]. reflexivity.
  - destruct s as [|b s]; [discriminate|].
    destruct (Ascii.eqb_spec a b); [subst|discriminate].
    intros H. rewrite append_cons. f_equal. now apply IH.
Qed.

Lemma first_prefix_append names s n rest :
  first_prefix names s = Some (n, rest) ->
  In n names /\ s = String.append n rest.
Proof.
  induction names as [|x names IH]; simpl; [discriminate|].
  destruct (strip_prefix x s) as [r|] eqn:E.
  - intros [= <- <-]. split; [now left|]. now apply strip_prefix_append.
  - intros H. destruct (IH H). split; [now right|assumption].
Qed.

Lemma strip_prefix_digits a pre d :
  is_digit a = false -> all_digits d = true ->
  strip_prefix (String a pre) d = None.
Proof.
  intros Ha Hd. destruct d as [|c d]; [reflexivity|].
  cbn [strip_prefix]. cbn [all_digits] in Hd.
  apply andb_true_iff in Hd as [Hc _].
  destruct (Ascii.eqb_spec a c); [congruence|reflexivity].
Qed.

Lemma suffix_ok_name n d :
  In n ["pre"; "p"; "beta"; "alpha"; "rc"] -> all_digits d = true ->
  suffix_ok (String.append n d) = true.
Proof.
  intros Hn Hd. unfold suffix_ok, suffix_groups.
  simpl in Hn.
  destruct Hn as [<-|[<-|[<-|[<-|[<-|[]]]]]];
    repeat rewrite append_cons; rewrite append_empty_l.
  - change (first_prefix ["alpha"; "beta"; "rc"; "pre"; "p"]
              (String "p" (String "r" (String "e" d))))
      with (Some ("pre", d)).
    cbv beta iota. now rewrite (span_all_digits d Hd).
  - change (first_prefix ["alpha"; "beta"; "rc"; "pre"; "p"] (String "p" d))
      with (match strip_prefix "re" d with
            | Some rest => Some ("pre", rest)
            | None => Some ("p", d)
            end).
    rewrite (strip_prefix_digits "r" "e" d eq_refl Hd).
    cbv beta iota. now rewrite (span_all_digits d Hd).
  - change (first_prefix ["alpha"; "beta"; "rc"; "pre"; "p"]
              (String "b" (String "e" (String "t" (String "a" d)))))
      with (Some ("beta", d)).
    cbv beta iota. now rewrite (span_all_digits d Hd).
  - change (first_prefix ["alpha"; "beta"; "rc"; "pre"; "p"]
              (String "a" (String "l" (String "p" (String "h" (String "a" d))))))
      with (Some ("alpha", d)).
    cbv beta iota. now rewrite (span_all_digits d Hd).
  - change (first_prefix ["alpha"; "beta"; "rc"; "pre"; "p"]
              (String "r" (String "c" d)))
      with (Some ("rc", d)).
    cbv beta iota. now rewrite (span_all_digits d Hd).
Qed.

Lemma suffix_step_piece s m rest :
  suffix_step s = Some (m, rest) ->
  exists x, m = String "_" x /\ no_char "_" x = true /\ suffix_ok x = true.
Proof.
  unfold suffix_step. destruct s as [|c r]; [discriminate|].
  destruct (Ascii.eqb_spec c "_"); [subst|discriminate].
  destruct (first_prefix _ r) as [[n r']|] eqn:E; [|discriminate].
  destruct (span is_digit r') as [d rest'] eqn:Es.
  intros [= <- <-]. exists (String.append n d). split; [reflexivity|].
  apply first_prefix_append in E as [Hn _].
  pose proof (span_digits _ _ _ Es) as Hd. split.
  - rewrite no_char_append, (all_digits_no_char "_" d eq_refl Hd), andb_true_r.
    simpl in Hn. destruct Hn as [<-|[<-|[<-|[<-|[<-|[]]]]]]; reflexivity.
  - now apply suffix_ok_name.
Qed.

Lemma ver_regexp_match_well_matched s m :
  ver_regexp_match s = Some m -> well_matched m.
Proof.
  unfold ver_regexp_match.
  set (s1 := match strip_prefix "cvs." s with Some r => r | None => s end).
  destruct (span is_digit s1) as [g2 s2] eqn:E2.
  destruct (truthy g2) eqn:Ht2; [|discriminate]. cbn [negb].
  destruct (star dotted_step _ s2) as [g3 s3] eqn:E3.
  set (l := match s3 with
            | String c r => if is_lower c then (String c EmptyString, r)
                            else (EmptyString, s3)
            | EmptyString => (EmptyString, s3)
            end).
  destruct l as [g5 s4] eqn:E5.
  destruct (star suffix_step _ s4) as [g6 s5] eqn:E6.
  set (rv := match strip_prefix "-r" s5 with
             | Some r => let '(d, rest) := span is_digit r in
                         if truthy d then (Some d, rest) else (None, s5)
             | None => (None, s5)
             end).
  destruct rv as [g10 s6] eqn:E10.
  destruct (at_end s6); [|discriminate]. intros [= <-].
  constructor; cbn.
  - unfold digits. now rewrite Ht2, (span_digits _ _ _ E2).
  - eapply star_pieces; [apply dotted_step_piece|exact E3].
  - subst l. destruct s3 as [|c r]; [injection E5 as <- _; now left|].
    destruct (is_lower c); injection E5 as <- _; [right; eauto|now left].
  - eapply star_pieces; [apply suffix_step_piece|exact E6].
  - intros d ->. subst rv.
    destruct (strip_prefix "-r" s5) as [r|]; [|discriminate].
    destruct (span is_digit r) as [d' rest] eqn:Er.
    destruct (truthy d') eqn:Htd; [|discriminate].
    injection E10 as <- _. unfold digits. now rewrite Htd, (span_digits _ _ _ Er).
Qed.

Lemma getitem_lt {A} (l : list A) i :
  (i < length l)%nat -> exists a, l !! i = Some a /\ getitem l i = Ret a.
Proof.
  intros H. destruct (lookup_lt_is_Some_2 l i H) as [a Ha].
  exists a. unfold getitem. now rewrite Ha.
Qed.

Lemma main_loop_total n i list1 list2 :
  exists r, main_loop n i list1 list2 = Ret r.
Proof.
  revert i. induction n as [|n IH]; intros i; cbn [main_loop]; [eauto|].
  destruct (Nat.leb_spec (length list1) i); [eauto|].
  destruct (Nat.leb_spec (length list2) i); [eauto|].
  destruct (getitem_lt list1 i) as (a & _ & ->); [lia|].
  destruct (getitem_lt list2 i) as (b & _ & ->); [lia|].
  cbn. destruct (pynum_neb a b); eauto.
Qed.

Lemma suffix_ok_groups x :
  suffix_ok x = true ->
  exists n d v, suffix_groups x = Ret (n, d) /\ suffix_value n = Ret v.
Proof.
  unfold suffix_ok. destruct (suffix_groups x) as [[n d]|]; [|discriminate].
  destruct (suffix_value n) as [v|] eqn:E; [|discriminate]. eauto 6.
Qed.

(** The suffix read at index [i]: the implicit [p0] past the end. *)
Lemma suffix_at_total l i :
  forallb suffix_ok l = true ->
  exists n d v,
    (if (length l <=? i)%nat then Ret ("p", "0")
     else x ← getitem l i; suffix_groups x) = Ret (n, d)
    /\ suffix_value n = Ret v.
Proof.
  intros Hl. destruct (Nat.leb_spec (length l) i).
  - exists "p", "0", 0%Z. split; reflexivity.
  - destruct (getitem_lt l i) as (x & Hx & ->); [lia|]. cbn.
    apply suffix_ok_groups. rewrite forallb_forall in Hl. apply Hl.
    apply list_elem_of_In. eapply list_elem_of_lookup_2; eauto.
Qed.

Lemma suffix_loop_total n i list1 list2 :
  forallb suffix_ok list1 = true -> forallb suffix_ok list2 = true ->
  exists r, suffix_loop n i list1 list2 = Ret r.
Proof.
  intros H1 H2. revert i. induction n as [|n IH]; intros i;
    cbn [suffix_loop]; [eauto|].
  destruct (suffix_at_total list1 i H1) as (n1 & d1 & v1 & -> & Hv1).
  destruct (suffix_at_total list2 i H2) as (n2 & d2 & v2 & -> & Hv2).
  cbn. destruct (negb (String.eqb n1 n2)).
  - rewrite Hv1, Hv2. cbn. eauto.
  - destruct (negb (String.eqb d1 d2)); eauto.
Qed.

Lemma dotted_loop_total n i vlist1 vlist2 list1 list2 :
  segments_fit vlist1 vlist2 ->
  (i + n <= Nat.max (length vlist1) (length vlist2))%nat ->
  exists r, dotted_loop n i vlist1 vlist2 list1 list2 = Ret r.
Proof.
  intros Hfit. revert i list1 list2.
  induction n as [|n IH]; intros i list1 list2 Hn; cbn [dotted_loop]; [eauto|].
  destruct (Hfit i) as (Hmiss & H1 & H2); [lia|].
  assert (Hcell : exists a b,
    (if missing vlist1 i then
       y ← getitem vlist2 i; v ← py_int y; Ret (PInt (-1), PInt v)
     else if missing vlist2 i then
       x ← getitem vlist1 i; v ← py_int x; Ret (PInt v, PInt (-1))
     else
       x ← getitem vlist1 i; y ← getitem vlist2 i;
       if head_differs x "0" && head_differs y "0" then
         v ← py_int x; w ← py_int y; Ret (PInt v, PInt w)
       else
         v ← float_of_fraction x; w ← float_of_fraction y;
         Ret (PFloat v, PFloat w)) = Ret (a, b)).
  { destruct (missing vlist1 i) eqn:M1.
    - destruct (Hmiss eq_refl) as (y & Hy & Hd).
      unfold getitem. rewrite Hy. cbn.
      destruct (py_int_digits y Hd) as [v ->]. cbn. eauto.
    - unfold missing in M1.
      destruct (vlist1 !! i) as [x|] eqn:Ex; [|discriminate].
      apply negb_false_iff in M1.
      assert (Hx : digits x = true) by (unfold digits; now rewrite M1, (H1 x)).
      destruct (missing vlist2 i) eqn:M2.
      + unfold getitem. rewrite Ex. cbn.
        destruct (py_int_digits x Hx) as [v ->]. cbn. eauto.
      + unfold missing in M2.
        destruct (vlist2 !! i) as [y|] eqn:Ey; [|discriminate].
        apply negb_false_iff in M2.
        assert (Hy : digits y = true) by (unfold digits; now rewrite M2, (H2 y)).
        unfold getitem. rewrite Ex, Ey. cbn.
        destruct (head_differs x "0" && head_differs y "0").
        * destruct (py_int_digits x Hx) as [v ->].
          destruct (py_int_digits y Hy) as [w ->]. cbn. eauto.
        * destruct (float_of_fraction_digits x (H1 x eq_refl)) as [v ->].
          destruct (float_of_fraction_digits y (H2 y eq_refl)) as [w ->].
          cbn. eauto. }
  destruct Hcell as (a & b & ->). cbn. apply IH. lia.
Qed.

Lemma split_length sep s : (1 <= length (split sep s))%nat.
Proof.
  induction s as [|c s IH]; simpl; [lia|].
  destruct (Ascii.eqb c sep); simpl; [lia|].
  destruct (split sep s); simpl in *; lia.
Qed.

Lemma digits_lookup l i x :
  forallb digits l = true -> l !! i = Some x -> digits x = true.
Proof.
  intros Hl Hx. rewrite forallb_forall in Hl. apply Hl.
  apply list_elem_of_In. eapply list_elem_of_lookup_2; eauto.
Qed.

Lemma digits_all s : digits s = true -> all_digits s = true.
Proof. unfold digits. intros H. now apply andb_true_iff in H as [_ H]. Qed.

Lemma digits_truthy s : digits s = true -> truthy s = true.
Proof. unfold digits. intros H. now apply andb_true_iff in H as [H _]. Qed.

Lemma missing_digits l i :
  forallb digits l = true -> missing l i = true -> (length l <= i)%nat.
Proof.
  intros Hl. unfold missing. destruct (l !! i) as [x|] eqn:E.
  - rewrite (digits_truthy x (digits_lookup l i x Hl E)). discriminate.
  - intros _. now apply lookup_ge_None.
Qed.

Lemma segments_fit_both l1 l2 :
  forallb digits l1 = true -> forallb digits l2 = true -> segments_fit l1 l2.
Proof.
  intros H1 H2 i Hi. split; [|split].
  - intros Hm. apply (missing_digits l1 i H1) in Hm.
    destruct (lookup_lt_is_Some_2 l2 i) as [y Hy]; [lia|].
    exists y. split; [exact Hy|]. exact (digits_lookup l2 i y H2 Hy).
  - intros x Hx. exact (digits_all x (digits_lookup l1 i x H1 Hx)).
  - intros y Hy. exact (digits_all y (digits_lookup l2 i y H2 Hy)).
Qed.

Lemma segments_fit_left_blank l2 :
  forallb digits l2 = true -> (1 <= length l2)%nat ->
  segments_fit [EmptyString] l2.
Proof.
  intros H2 Hlen i Hi. simpl in Hi. split; [|split].
  - intros _. destruct (lookup_lt_is_Some_2 l2 i) as [y Hy]; [lia|].
    exists y. split; [exact Hy|]. exact (digits_lookup l2 i y H2 Hy).
  - intros x Hx. destruct i; [injection Hx as <-; reflexivity|discriminate].
  - intros y Hy. exact (digits_all y (digits_lookup l2 i y H2 Hy)).
Qed.

Lemma segments_fit_right_blank l1 :
  forallb digits l1 = true -> (1 <= length l1)%nat ->
  segments_fit l1 [EmptyString].
Proof.
  intros H1 Hlen i Hi. simpl in Hi. split; [|split].
  - intros Hm. apply (missing_digits l1 i H1) in Hm. lia.
  - intros x Hx. exact (digits_all x (digits_lookup l1 i x H1 Hx)).
  - intros y Hy. destruct i; [injection Hy as <-; reflexivity|discriminate].
Qed.

(** The segments of two matches fit, unless both have none. *)
Lemma segments_fit_groups g1 g2 :
  pieces "." digits g1 -> pieces "." digits g2 ->
  truthy g1 || truthy g2 = true ->
  segments_fit (split "." (str_tail g1)) (split "." (str_tail g2)).
Proof.
  intros [->|(g1' & -> & H1)] [->|(g2' & -> & H2)] Hg; cbn [str_tail].
  - cbn in Hg. discriminate.
  - apply segments_fit_left_blank; [exact H2|apply split_length].
  - apply segments_fit_right_blank; [exact H1|apply split_length].
  - now apply segments_fit_both.
Qed.

Lemma suffix_list_ok g :
  pieces "_" suffix_ok g -> forallb suffix_ok (tail (split "_" g)) = true.
Proof.
  intros [->|(g' & -> & H)]; [reflexivity|].
  change (split "_" (String "_" g')) with (EmptyString :: split "_" g').
  exact H.
Qed.

Lemma revision_of_total m :
  well_matched m -> exists r, revision_of m = Ret r.
Proof.
  intros Hm. unfold revision_of. destruct (group10 m) as [d|] eqn:E; [|eauto].
  pose proof (wm_group10 m Hm d E) as Hd.
  rewrite (digits_truthy d Hd). now apply py_int_digits.
Qed.

Lemma letter_total m (l : list pynum) :
  well_matched m ->
  exists l', (if truthy (group5 m)
              then o ← ord (group5 m); Ret (l ++ [PInt o])
              else Ret l) = Ret l'.
Proof.
  intros Hm. destruct (wm_group5 m Hm) as [->|[c ->]]; cbn; eauto.
Qed.

(** Two valid versions are compared without any exception. *)
Lemma compare_matches_total match1 match2 :
  well_matched match1 -> well_matched match2 ->
  exists rc, compare_matches match1 match2 = Ret rc.
Proof.
  intros H1 H2. unfold compare_matches.
  destruct (py_int_digits _ (wm_group2 _ H1)) as [v1 ->].
  destruct (py_int_digits _ (wm_group2 _ H2)) as [v2 ->]. cbn.
  assert (Hd : exists p,
    (if truthy (group3 match1) || truthy (group3 match2) then
       dotted_loop
         (Nat.max (length (split "." (str_tail (group3 match1))))
                  (length (split "." (str_tail (group3 match2))))) 0
         (split "." (str_tail (group3 match1)))
         (split "." (str_tail (group3 match2))) [PInt v1] [PInt v2]
     else Ret ([PInt v1], [PInt v2])) = Ret p).
  { destruct (truthy (group3 match1) || truthy (group3 match2)) eqn:Eg; [|eauto].
    apply dotted_loop_total; [|lia].
    apply segments_fit_groups; [apply H1|apply H2|exact Eg]. }
  destruct Hd as [[list1 list2] ->]. cbn.
  destruct (letter_total match1 list1 H1) as [list1' ->]. cbn.
  destruct (letter_total match2 list2 H2) as [list2' ->]. cbn.
  destruct (main_loop_total (Nat.max (length list1') (length list2')) 0
              list1' list2') as [[rc|] ->]; cbn; [eauto|].
  destruct (suffix_loop_total
              (Nat.max (length (tail (split "_" (group6 match1))))
                       (length (tail (split "_" (group6 match2))))) 0
              (tail (split "_" (group6 match1)))
              (tail (split "_" (group6 match2)))
              (suffix_list_ok _ (wm_group6 _ H1))
              (suffix_list_ok _ (wm_group6 _ H2)))
    as [[rc|] ->]; cbn; [eauto|].
  destruct (revision_of_total match1 H1) as [r1 ->].
  destruct (revision_of_total match2 H2) as [r2 ->]. cbn. eauto.
Qed.

(** [compare_versions] returns a number for every pair of strings. *)
Lemma compare_versions_total ver1 ver2 :
  exists rc, compare_versions ver1 ver2 = Ret rc.
Proof.
  unfold compare_versions. destruct (String.eqb ver1 ver2); [eauto|].
  unfold match_version.
  destruct (truthy ver1); [|eauto].
  destruct (ver_regexp_match ver1) as [m1|] eqn:E1; [|eauto].
  destruct (truthy ver2); [|eauto].
  destruct (ver_regexp_match ver2) as [m2|] eqn:E2; [|eauto].
  apply compare_matches_total; eapply ver_regexp_match_well_matched; eauto.
Qed.

(** *** Invalid versions, tags and revisions *)

(** C2, as it is stated, fails: an invalid first version compares as equal
    to a valid second one, the valid side does not win. *)
Lemma compare_versions_invalid_first :
  match_version "abc" = None
  /\ match_version "1.0" <> None
  /\ compare_versions "abc" "1.0" = Ret (PInt 0)
  /\ compare_versions "1.0" "abc" = Ret (PInt 1).
Proof. repeat split. discriminate. Qed.

(** C2, as the code has it.  For two different strings: when the first
    one is not a valid version the result is [0], whatever the second one
    is (so it is [0] when both are invalid); when the first one is valid
    and the second one is not, the result is [1].  The valid side wins
    only as the first argument. *)
Theorem compare_versions_invalid (ver1 ver2 : string) :
  ver1 <> ver2 ->
  (match_version ver1 = None -> compare_versions ver1 ver2 = Ret (PInt 0))
  /\ (match_version ver1 <> None -> match_version ver2 = None ->
      compare_versions ver1 ver2 = Ret (PInt 1)).
Proof.
  intros Hne. apply String.eqb_neq in Hne. unfold compare_versions.
  rewrite Hne. split.
  - intros ->. reflexivity.
  - intros H1 ->. destruct (match_version ver1); [reflexivity|congruence].
Qed.

Lemma compare_versions_invalid_witness :
  compare_versions "abc" "1.0" = Ret (PInt 0)
  /\ compare_versions "abc" "x.y" = Ret (PInt 0)
  /\ compare_versions "1.0" "abc" = Ret (PInt 1).
Proof.
  split; [|split].
  - apply (compare_versions_invalid "abc" "1.0"); [discriminate|reflexivity].
  - apply (compare_versions_invalid "abc" "x.y"); [discriminate|reflexivity].
  - apply (compare_versions_invalid "1.0" "abc");
      [discriminate|discriminate|reflexivity].
Defined.

(** C8.  [compare_versions] is not transitive on valid versions: in the
    loop over the suffixes, [return r1 - r2] is reached as soon as the
    numbers of a suffix differ as texts, also when they are equal as
    integers, and the revisions are then never compared. *)
Theorem compare_versions_not_transitive :
  match_version "1_p1-r5" <> None
  /\ match_version "1_p01-r3" <> None
  /\ match_version "1_p1-r1" <> None
  /\ compare_versions "1_p1-r5" "1_p01-r3" = Ret (PInt 0)
  /\ compare_versions "1_p01-r3" "1_p1-r1" = Ret (PInt 0)
  /\ compare_versions "1_p1-r5" "1_p1-r1" = Ret (PInt 4).
Proof. repeat split; discriminate. Qed.

Lemma string_compare_refl s : String.compare s s = Eq.
Proof.
  pose proof (String.compare_antisym s s) as H.
  destruct (String.compare s s); [reflexivity|discriminate|discriminate].
Qed.

Lemma const_cmp_zero a b : const_cmp a b = 0%Z <-> a = b.
Proof.
  unfold const_cmp. split.
  - destruct (String.compare a b) eqn:E; try discriminate.
    intros _. now apply String.compare_eq_iff.
  - intros ->. now rewrite string_compare_refl.
Qed.

Lemma const_cmp_values a b :
  const_cmp a b = (-1)%Z \/ const_cmp a b = 0%Z \/ const_cmp a b = 1%Z.
Proof. unfold const_cmp. destruct (String.compare a b); auto. Qed.

(** C7, as it is stated, fails: with one tagged side the version decides
    although the tags differ. *)
Lemma entropy_compare_versions_one_tag :
  const_cmp "" "tag" = (-1)%Z
  /\ entropy_compare_versions ("2.0", "", 0%Z) ("1.0", "tag", 0%Z)
     = Ret (PInt 1).
Proof. split; reflexivity. Qed.

(** C7, as the code has it.  The tags decide first only when both sides
    carry a tag and the tags differ.  Otherwise (equal tags, or a side
    without tag) [compare_versions], which always returns a number,
    decides when that number is not zero; when it is zero, tags that
    differ (one side is then without tag) decide, and with equal tags the
    revisions are the last tiebreak. *)
Theorem entropy_compare_versions_order
    (a_ver a_tag b_ver b_tag : string) (a_rev b_rev : Z) :
  let result := entropy_compare_versions (a_ver, a_tag, a_rev)
                                         (b_ver, b_tag, b_rev) in
  (a_tag <> EmptyString -> b_tag <> EmptyString -> a_tag <> b_tag ->
   result = Ret (PInt (const_cmp a_tag b_tag)))
  /\ (a_tag = EmptyString \/ b_tag = EmptyString \/ a_tag = b_tag ->
      exists rc,
        compare_versions a_ver b_ver = Ret rc
        /\ (pynum_is_zero rc = false -> result = Ret rc)
        /\ (pynum_is_zero rc = true -> a_tag <> b_tag ->
            result = Ret (PInt (const_cmp a_tag b_tag)))
        /\ (pynum_is_zero rc = true -> a_tag = b_tag ->
            result = Ret (PInt (Z.sgn (a_rev - b_rev))))).
Proof.
  intros result. subst result. unfold entropy_compare_versions.
  unfold entropy_compare_package_tags. split.
  - intros Ha Hb Hab.
    destruct a_tag; [congruence|]. destruct b_tag; [congruence|]. simpl.
    pose proof (const_cmp_zero (String a a_tag) (String a0 b_tag)) as Hz.
    destruct (Z.eqb_spec (const_cmp (String a a_tag) (String a0 b_tag)) 0)
      as [E|E]; [tauto|].
    simpl. apply Z.eqb_neq in E. rewrite E. reflexivity.
  - intros Htags.
    destruct (compare_versions_total a_ver b_ver) as [rc Hrc].
    exists rc. split; [exact Hrc|].
    assert (Hfirst : (if truthy a_tag && truthy b_tag
                      then PInt (const_cmp a_tag b_tag) else PInt 0) = PInt 0).
    { destruct Htags as [-> | [-> | ->]].
      - reflexivity.
      - destruct a_tag; reflexivity.
      - destruct (truthy b_tag && truthy b_tag); [|reflexivity].
        now rewrite (proj2 (const_cmp_zero b_tag b_tag) eq_refl). }
    rewrite Hfirst. simpl. rewrite Hrc. simpl.
    split; [|split].
    + intros ->. reflexivity.
    + intros -> Hne.
      pose proof (const_cmp_zero a_tag b_tag) as Hz.
      destruct (const_cmp_values a_tag b_tag) as [E|[E|E]]; rewrite E;
        [reflexivity|tauto|reflexivity].
    + intros -> ->.
      rewrite (proj2 (const_cmp_zero b_tag b_tag) eq_refl). simpl.
      destruct (Z.ltb_spec b_rev a_rev); [f_equal; f_equal; lia|].
      destruct (Z.ltb_spec a_rev b_rev); f_equal; f_equal; lia.
Qed.

Lemma entropy_compare_versions_order_witness :
  entropy_compare_versions ("1.0", "a", 0%Z) ("2.0", "b", 0%Z)
  = Ret (PInt (const_cmp "a" "b"))
  /\ entropy_compare_versions ("2.0", "", 0%Z) ("1.0", "tag", 0%Z)
     = Ret (PInt 1)
  /\ entropy_compare_versions ("1.0", "", 0%Z) ("1.0", "tag", 0%Z)
     = Ret (PInt (const_cmp "" "tag"))
  /\ entropy_compare_versions ("1.0", "t", 3%Z) ("1.0", "t", 5%Z)
     = Ret (PInt (Z.sgn (3 - 5))).
Proof.
  split; [|split; [|split]].
  - apply (proj1 (entropy_compare_versions_order "1.0" "a" "2.0" "b" 0 0));
      discriminate.
  - destruct (proj2 (entropy_compare_versions_order "2.0" "" "1.0" "tag" 0 0)
                (or_introl eq_refl)) as (rc & Hrc & Hnz & _).
    change (compare_versions "2.0" "1.0") with (Ret (PInt 1)) in Hrc.
    injection Hrc as <-. apply Hnz. reflexivity.
  - destruct (proj2 (entropy_compare_versions_order "1.0" "" "1.0" "tag" 0 0)
                (or_introl eq_refl)) as (rc & Hrc & _ & Hz & _).
    change (compare_versions "1.0" "1.0") with (Ret (PInt 0)) in Hrc.
    injection Hrc as <-. apply Hz; [reflexivity|discriminate].
  - destruct (proj2 (entropy_compare_versions_order "1.0" "t" "1.0" "t" 3 5)
                (or_intror (or_intror eq_refl))) as (rc & Hrc & _ & _ & Hz).
    change (compare_versions "1.0" "1.0") with (Ret (PInt 0)) in Hrc.
    injection Hrc as <-. apply Hz; reflexivity.
Defined.

(** ** The resource lock *)

Lemma flock_free_touch w p q shared :
  flock_free (touch q w) p shared = flock_free w p shared.
Proof. unfold flock_free, touch. destruct (files w !! q); reflexivity. Qed.

(** C1.  The lock is not counted on the reentrant path: the second
    acquisition returns [True] and leaves the count at one, so the first
    release already drops the advisory lock and removes the lock file. *)
Theorem reentrant_lock_dropped_by_first_release
    (e : env) (lock_path : string) (blocking shared : bool) (w : world) :
  FILE_LOCK_MAP w !! lock_path = None ->
  foreign w !! lock_path = None ->
  flocks w !! lock_path = None ->
  open_error e lock_path = None ->
  remove_error e lock_path = None ->
  exists w1 w2 w3,
    lock_resource e lock_path blocking shared w = Returns true w1
    /\ os_lock_held w1 lock_path = true
    /\ lock_resource e lock_path blocking shared w1 = Returns true w2
    /\ count <$> FILE_LOCK_MAP w2 !! lock_path = Some 1%Z
    /\ os_lock_held w2 lock_path = true
    /\ unlock_resource e lock_path w2 = Returns tt w3
    /\ os_lock_held w3 lock_path = false
    /\ lock_file_exists w3 lock_path = false.
Proof.
  intros Hmap Hforeign Hown Hopen Hremove.
  assert (Hfree : forall w', foreign w' = foreign w -> flocks w' = flocks w ->
                  flock_free w' lock_path shared = true).
  { intros w' Hf Hl. unfold flock_free. rewrite Hf, Hl, Hforeign, Hown.
    reflexivity. }
  set (mapped := {| count := 0; ref := None; path := lock_path |}).
  set (w0 := {| FILE_LOCK_MAP := <[lock_path := mapped]> (FILE_LOCK_MAP w);
                files := files w; flocks := flocks w; foreign := foreign w |}).
  set (wa := lock_acquired e lock_path mapped shared (touch lock_path w0)).
  set (w1 := set_mapped lock_path
               {| count := 1; ref := Some lock_path; path := lock_path |} wa).
  assert (H1 : lock_resource e lock_path blocking shared w = Returns true w1).
  { unfold lock_resource, file_lock_setup. rewrite Hmap. fold mapped. fold w0.
    cbn [ref mapped]. unfold file_lock_create. cbn [path mapped].
    rewrite Hopen.
    rewrite (Hfree (touch lock_path w0))
      by (unfold touch; destruct (files w0 !! lock_path); reflexivity).
    assert (Hl : FILE_LOCK_MAP wa !! lock_path
                 = Some {| count := 0; ref := Some lock_path; path := lock_path |}).
    { unfold wa, lock_acquired. cbn. apply lookup_insert_eq. }
    destruct blocking; cbn [negb]; fold wa; rewrite Hl; reflexivity. }
  assert (Hm1 : FILE_LOCK_MAP w1 !! lock_path
                = Some {| count := 1; ref := Some lock_path; path := lock_path |}).
  { unfold w1, set_mapped. cbn. apply lookup_insert_eq. }
  assert (Hheld1 : flocks w1 !! lock_path
                   = Some (if shared then Shared else Exclusive)).
  { unfold w1, set_mapped, wa, lock_acquired. cbn. apply lookup_insert_eq. }
  assert (H2 : lock_resource e lock_path blocking shared w1 = Returns true w1).
  { unfold lock_resource, file_lock_setup. rewrite Hm1. reflexivity. }
  exists w1, w1.
  eexists. split; [exact H1|]. split.
  { unfold os_lock_held. rewrite Hheld1. reflexivity. }
  split; [exact H2|]. split; [rewrite Hm1; reflexivity|]. split.
  { unfold os_lock_held. rewrite Hheld1. reflexivity. }
  split.
  { unfold unlock_resource, file_lock_setup. rewrite Hm1. cbn.
    rewrite Hremove. reflexivity. }
  split.
  - unfold os_lock_held, release_ref. cbn. rewrite lookup_delete_eq.
    reflexivity.
  - unfold lock_file_exists, release_ref, unlink. cbn.
    rewrite lookup_delete_eq. reflexivity.
Qed.

Lemma reentrant_lock_dropped_by_first_release_witness :
  exists w1 w2 w3,
    lock_resource quiet_env "/var/lock/entropy" false false empty_world
      = Returns true w1
    /\ os_lock_held w1 "/var/lock/entropy" = true
    /\ lock_resource quiet_env "/var/lock/entropy" false false w1
       = Returns true w2
    /\ count <$> FILE_LOCK_MAP w2 !! "/var/lock/entropy" = Some 1%Z
    /\ os_lock_held w2 "/var/lock/entropy" = true
    /\ unlock_resource quiet_env "/var/lock/entropy" w2 = Returns tt w3
    /\ os_lock_held w3 "/var/lock/entropy" = false
    /\ lock_file_exists w3 "/var/lock/entropy" = false.
Proof.
  apply (reentrant_lock_dropped_by_first_release
           quiet_env "/var/lock/entropy" false false empty_world);
    reflexivity.
Defined.

(** C6, as it is stated, fails: a shared request that the system refuses
    is granted all the same when the lock file holds the pid of the
    process. *)
Lemma shared_request_granted_on_own_pid :
  let w := {| FILE_LOCK_MAP := ∅;
              files := {["/var/lock/entropy" := "4242"]};
              flocks := ∅;
              foreign := {["/var/lock/entropy" := Exclusive]} |} in
  let lock := {| count := 0; ref := None; path := "/var/lock/entropy" |} in
  flock_free w "/var/lock/entropy" true = false
  /\ file_lock_create quiet_env "/var/lock/entropy" lock false true w
     = Returns true w.
Proof. split; reflexivity. Qed.

(** C6, as the code has it.  When a non-blocking acquisition is refused by
    the system, the request is granted exactly when the text of the lock
    file, stripped, is the pid of the process, for a shared request as for
    an exclusive one, and nothing is locked or written.  What the mode
    changes is the writing of the pid: an acquisition that the system
    grants writes it for an exclusive lock and leaves the file as it is
    for a shared one. *)
Theorem refused_lock_granted_on_own_pid
    (e : env) (key : string) (lock : lock_data) (shared : bool) (w : world) :
  open_error e (path lock) = None ->
  (flock_free w (path lock) shared = false ->
   file_lock_create e key lock false shared w
   = Returns (String.eqb (str_of_pid (mypid e))
                (strip (read128 (touch (path lock) w) (path lock))))
             (touch (path lock) w))
  /\ (flock_free w (path lock) shared = true ->
      exists w',
        file_lock_create e key lock false shared w = Returns true w'
        /\ files w' !! path lock
           = if shared then files (touch (path lock) w) !! path lock
             else Some (str_of_pid (mypid e))).
Proof.
  intros Hopen. unfold file_lock_create. rewrite Hopen, flock_free_touch.
  split; intros ->; cbn [negb].
  - destruct (String.eqb _ _); reflexivity.
  - eexists. split; [reflexivity|].
    unfold lock_acquired. cbn. destruct shared; [reflexivity|].
    apply lookup_insert_eq.
Qed.

Lemma refused_lock_granted_on_own_pid_witness :
  let w := {| FILE_LOCK_MAP := ∅;
              files := {["/var/lock/entropy" := "4242"]};
              flocks := ∅;
              foreign := {["/var/lock/entropy" := Exclusive]} |} in
  let lock := {| count := 0; ref := None; path := "/var/lock/entropy" |} in
  file_lock_create quiet_env "/var/lock/entropy" lock false true w
  = Returns (String.eqb (str_of_pid (mypid quiet_env))
               (strip (read128 (touch "/var/lock/entropy" w)
                         "/var/lock/entropy")))
            (touch "/var/lock/entropy" w).
Proof.
  intros w lock.
  apply (proj1 (refused_lock_granted_on_own_pid
                  quiet_env "/var/lock/entropy" lock true w eq_refl)).
  reflexivity.
Defined.

(** ** Removing a repository *)

Lemma remove_first_not_in x l : x ∉ l -> remove_first x l = l.
Proof.
  induction l as [|y l IH]; [reflexivity|].
  intros H. apply not_elem_of_cons in H as [Hxy Hl]. simpl.
  destruct (String.eqb_spec y x); [congruence|]. now rewrite IH.
Qed.

Lemma remove_first_NoDup x l : NoDup l -> x ∉ remove_first x l.
Proof.
  induction l as [|y l IH]; simpl; intros Hd.
  - apply not_elem_of_nil.
  - apply NoDup_cons in Hd as [Hy Hd].
    destruct (String.eqb_spec y x) as [->|Hne]; [exact Hy|].
    apply not_elem_of_cons. split; [congruence|auto].
Qed.

Section RemoveRepository.

Variables clientdbid systemroot packagesext packagesext_webinstall : string.
Variable installed_repository : handle.
Variable settings_clear : settings -> settings.
Variables conf_remove conf_disable : string -> outcome bool.
Variable db_isfile : string -> bool.

Local Abbreviation open_repository :=
  (open_repository clientdbid systemroot installed_repository db_isfile).
Local Abbreviation remove_repository :=
  (remove_repository systemroot packagesext packagesext_webinstall
     settings_clear conf_remove conf_disable).
Local Abbreviation cache_key := (get_repository_cache_key systemroot).

(** Without a cached handle and without metadata, a repository other
    than the installed packages repository cannot be opened. *)
Lemma open_unknown_repository repository_id c :
  repository_id <> clientdbid ->
  repodb_cache c !! cache_key repository_id = None ->
  available (repositories c) !! repository_id = None ->
  exists msg c',
    open_repository repository_id c = (Raise (RepositoryError msg), c').
Proof.
  intros Hid Hcache Havail. unfold Repository.open_repository.
  apply String.eqb_neq in Hid. rewrite Hid, Hcache.
  unfold load_repository, get_temporary. rewrite Havail. cbn.
  destruct (bool_decide (repository_id ∈ enabled_repos c)); cbn; eauto.
Qed.

(** C9, as the code has it.  After [remove_repository] has returned
    [True] for an identifier that is not the one of the installed
    packages repository, and when the reload of the settings that the
    removal triggers does not define the identifier again,
    [open_repository] raises [RepositoryError]: the identifier is in
    neither map, the settings are the reloaded ones of the maps and the
    order without it, the entry of the cache is gone and its handle has
    been closed.  The order and the list of enabled repositories lose
    the first occurrence of the identifier, which is the only one when
    the list has no duplicate. *)
Theorem remove_then_open_fails
    (repository_id : string) (disable : bool) (c c' : client) :
  repository_id <> clientdbid ->
  (forall s,
      available s !! repository_id = None ->
      excluded s !! repository_id = None ->
      available (settings_clear s) !! repository_id = None
      /\ excluded (settings_clear s) !! repository_id = None) ->
  remove_repository repository_id disable c = (Ret true, c') ->
  (exists msg c'',
      open_repository repository_id c' = (Raise (RepositoryError msg), c''))
  /\ available (repositories c') !! repository_id = None
  /\ excluded (repositories c') !! repository_id = None
  /\ repositories c'
     = settings_clear
         {| available := delete repository_id (available (repositories c));
            excluded := delete repository_id (excluded (repositories c));
            order := remove_first repository_id (order (repositories c)) |}
  /\ repodb_cache c' !! cache_key repository_id = None
  /\ (forall h, repodb_cache c !! cache_key repository_id = Some h ->
                h ∈ closed c')
  /\ enabled_repos c' = remove_first repository_id (enabled_repos c)
  /\ (NoDup (enabled_repos c) -> repository_id ∉ enabled_repos c').
Proof.
  intros Hid Hreload. unfold Repository.remove_repository.
  set (s0 := {| available := delete repository_id (available (repositories c));
                excluded := delete repository_id (excluded (repositories c));
                order := remove_first repository_id (order (repositories c)) |}).
  set (done := bool_decide (is_Some (available (repositories c) !! repository_id))
               || bool_decide (is_Some (excluded (repositories c) !! repository_id))).
  assert (Henabled :
    (if bool_decide (repository_id ∈ enabled_repos c)
     then remove_first repository_id (enabled_repos c)
     else enabled_repos c) = remove_first repository_id (enabled_repos c)).
  { destruct (bool_decide_reflect (repository_id ∈ enabled_repos c));
      [reflexivity|]. now rewrite remove_first_not_in. }
  rewrite Henabled.
  destruct (Hreload s0) as [Ha He];
    [apply lookup_delete_eq|apply lookup_delete_eq|].
  set (written := if done then _ else _).
  destruct written as [done'|e] eqn:Ew; [|discriminate].
  intros [= -> <-]. cbn.
  assert (Hdone : done = true).
  { destruct done; [reflexivity|]. subst written. discriminate. }
  rewrite Hdone.
  split; [|repeat split].
  - apply open_unknown_repository; cbn;
      [exact Hid|apply lookup_delete_eq|exact Ha].
  - exact Ha.
  - exact He.
  - apply lookup_delete_eq.
  - intros h ->. rewrite !elem_of_app. right. right. now apply list_elem_of_singleton.
  - intros Hnd. now apply remove_first_NoDup.
Qed.

End RemoveRepository.

(** C9, as it is stated, fails.  The identifier of the installed packages
    repository is always opened, also after its removal; and of an
    identifier that the list of enabled repositories holds twice, one
    occurrence stays after the removal. *)
Lemma remove_then_open_succeeds :
  (let c' := snd (remove_repository_here "__system__" false system_named_client) in
   fst (remove_repository_here "__system__" false system_named_client) = Ret true
   /\ fst (open_repository_here "__system__" c') = Ret InstalledRepository)
  /\ (let c' := snd (remove_repository_here "foo.tbz2" false twice_added_client) in
      fst (remove_repository_here "foo.tbz2" false twice_added_client) = Ret true
      /\ enabled_repos c' = ["foo.tbz2"]).
Proof. repeat split. Qed.

Lemma remove_then_open_fails_witness :
  let c' := snd (remove_repository_here "foo.tbz2" false package_client) in
  (exists msg c'',
      open_repository_here "foo.tbz2" c' = (Raise (RepositoryError msg), c''))
  /\ available (repositories c') !! "foo.tbz2" = None
  /\ repodb_cache c' !! ("foo.tbz2", "") = None
  /\ AvailableRepository "foo.tbz2" "/tmp/foo" ∈ closed c'
  /\ "foo.tbz2" ∉ enabled_repos c'.
Proof.
  intros c'.
  destruct (remove_then_open_fails "__system__" "" ".tbz2" ".etp"
              InstalledRepository (fun s => s) (fun _ => Ret true)
              (fun _ => Ret true) (fun _ => true)
              "foo.tbz2" false package_client c')
    as (Hopen & Ha & _ & _ & Hcache & Hclosed & _ & Hnodup).
  - discriminate.
  - intros s Hs1 Hs2. split; assumption.
  - reflexivity.
  - split; [exact Hopen|]. split; [exact Ha|]. split; [exact Hcache|].
    split; [apply Hclosed; reflexivity|].
    apply Hnodup. apply NoDup_cons. split.
    + intros H. apply list_elem_of_singleton in H. discriminate.
    + apply NoDup_singleton.
Defined.

(** * Further properties *)

(** ** Cutting a string at a character *)

Lemma substring_skip a b n :
  String.substring (String.length a) n (a +:+ b) = String.substring 0 n b.
Proof.
  induction a as [|c a IH]; [reflexivity|].
  rewrite append_cons. simpl. exact IH.
Qed.

Lemma substring_all s : String.substring 0 (String.length s) s = s.
Proof. induction s as [|c s IH]; simpl; [reflexivity|now rewrite IH]. Qed.

Lemma slice_to_length a b : slice_to (a +:+ b) (Z.of_nat (String.length a)) = a.
Proof.
  unfold slice_to, slice, slice_index. rewrite length_append.
  destruct (Z.ltb_spec 0 0); [lia|].
  destruct (Z.ltb_spec (Z.of_nat (String.length a)) 0); [lia|].
  replace (Z.to_nat (Z.max 0 (Z.min _ 0))) with 0%nat by lia.
  replace (Z.to_nat _) with (String.length a) by lia.
  apply substring_prefix.
Qed.

Lemma slice_from_length a b :
  slice_from (a +:+ b) (Z.of_nat (String.length a)) = b.
Proof.
  unfold slice_from, slice, slice_index. rewrite length_append.
  destruct (Z.ltb_spec (Z.of_nat (String.length a)) 0); [lia|].
  destruct (Z.ltb_spec (Z.of_nat (String.length a + String.length b)) 0); [lia|].
  replace (Z.to_nat (Z.max 0 (Z.min _ (Z.of_nat (String.length a)))))
    with (String.length a) by lia.
  replace (Z.to_nat _) with (String.length b) by lia.
  rewrite substring_skip. apply substring_all.
Qed.

Lemma slice_middle a b c :
  slice (a +:+ b +:+ c) (Z.of_nat (String.length a))
    (Z.of_nat (String.length a + String.length b)) = b.
Proof.
  unfold slice, slice_index. rewrite !length_append.
  destruct (Z.ltb_spec (Z.of_nat (String.length a)) 0); [lia|].
  destruct (Z.ltb_spec (Z.of_nat (String.length a + String.length b)) 0); [lia|].
  replace (Z.to_nat (Z.max 0 (Z.min _ (Z.of_nat (String.length a)))))
    with (String.length a) by lia.
  replace (Z.to_nat _) with (String.length b) by lia.
  rewrite substring_skip. apply substring_prefix.
Qed.

Lemma find_no_char c s : no_char c s = true -> find c s = (-1)%Z.
Proof.
  induction s as [|a s IH]; simpl; [reflexivity|].
  intros H. apply andb_true_iff in H as [Ha Hs]. apply negb_true_iff in Ha.
  rewrite Ha, (IH Hs). reflexivity.
Qed.

Lemma find_stop c a b :
  no_char c a = true -> find c (a +:+ String c b) = Z.of_nat (String.length a).
Proof.
  induction a as [|x a IH]; intros H.
  - rewrite append_empty_l. simpl. now rewrite Ascii.eqb_refl.
  - rewrite append_cons. simpl in *.
    apply andb_true_iff in H as [Hx Ha]. apply negb_true_iff in Hx.
    rewrite Hx, (IH Ha).
    destruct (Z.ltb_spec (Z.of_nat (String.length a)) 0); lia.
Qed.

(** What [find] tells: the character is not there, or the string splits at
    its first occurrence. *)
Lemma find_cases c s :
  (find c s = (-1)%Z /\ no_char c s = true)
  \/ exists a b, s = a +:+ String c b /\ no_char c a = true
                 /\ find c s = Z.of_nat (String.length a).
Proof.
  induction s as [|x s IH]; [left; split; reflexivity|].
  simpl. destruct (Ascii.eqb_spec x c) as [->|Hne].
  - right. exists EmptyString, s. repeat split.
  - destruct IH as [[Hf Hn]|(a & b & -> & Hn & Hf)].
    + left. rewrite Hf, Hn. split; reflexivity.
    + right. exists (String x a), b. rewrite append_cons. split; [reflexivity|].
      simpl. apply Ascii.eqb_neq in Hne. rewrite Hne, Hn, Hf.
      split; [reflexivity|].
      destruct (Z.ltb_spec (Z.of_nat (String.length a)) 0); lia.
Qed.

Lemma rfind_no_char c s : no_char c s = true -> rfind c s = (-1)%Z.
Proof.
  induction s as [|a s IH]; simpl; [reflexivity|].
  intros H. apply andb_true_iff in H as [Ha Hs]. apply negb_true_iff in Ha.
  rewrite Ha, (IH Hs). reflexivity.
Qed.

Lemma rfind_stop c a b :
  no_char c b = true -> rfind c (a +:+ String c b) = Z.of_nat (String.length a).
Proof.
  intros Hb. induction a as [|x a IH].
  - rewrite append_empty_l. simpl. rewrite (rfind_no_char _ _ Hb).
    now rewrite Ascii.eqb_refl.
  - rewrite append_cons. simpl. rewrite IH.
    destruct (Z.leb_spec 0 (Z.of_nat (String.length a))); lia.
Qed.

Lemma rfind_cases c s :
  (rfind c s = (-1)%Z /\ no_char c s = true)
  \/ exists a b, s = a +:+ String c b /\ no_char c b = true
                 /\ rfind c s = Z.of_nat (String.length a).
Proof.
  induction s as [|x s IH]; [left; split; reflexivity|].
  simpl. destruct IH as [[Hf Hn]|(a & b & -> & Hn & Hf)].
  - rewrite Hf, Hn. cbn [Z.leb Z.compare].
    destruct (Ascii.eqb_spec x c) as [->|Hne].
    + right. exists EmptyString, s. repeat split; assumption.
    + left. split; reflexivity.
  - right. exists (String x a), b. rewrite append_cons. split; [reflexivity|].
    split; [assumption|]. rewrite Hf.
    destruct (Z.leb_spec 0 (Z.of_nat (String.length a))); simpl; lia.
Qed.

(** ** Slots *)

(** X1. [remove_slot] cuts the atom at its first colon; an atom without
    colon is cut at its first opening bracket; an atom with neither is
    returned as it is.  In each case the result is free of the character
    at which it was cut. *)
Theorem remove_slot_cut (mydep : string) :
  (exists b, mydep = remove_slot mydep +:+ String ":" b
             /\ no_char ":" (remove_slot mydep) = true)
  \/ (no_char ":" mydep = true
      /\ exists b, mydep = remove_slot mydep +:+ String "[" b
                   /\ no_char "[" (remove_slot mydep) = true)
  \/ (no_char ":" mydep = true /\ no_char "[" mydep = true
      /\ remove_slot mydep = mydep).
Proof.
  unfold remove_slot.
  destruct (find_cases ":" mydep) as [[Hf Hn]|(a & b & -> & Hn & Hf)].
  - rewrite Hf. cbn [Z.eqb negb]. right.
    destruct (find_cases "[" mydep) as [[Hg Hm]|(a & b & -> & Hm & Hg)].
    + rewrite Hg. cbn [Z.eqb negb]. right. auto.
    + rewrite Hg. left. split; [exact Hn|].
      destruct (Z.eqb_spec (Z.of_nat (String.length a)) (-1)); [lia|].
      cbn [negb]. rewrite slice_to_length. eauto.
  - rewrite Hf. left.
    destruct (Z.eqb_spec (Z.of_nat (String.length a)) (-1)); [lia|].
    cbn [negb]. rewrite slice_to_length. eauto.
Qed.

Lemma find_from_split c a x b :
  find_from c (a +:+ String x b) (Z.of_nat (String.length a))
  = let i := find c (String x b) in
    if (i <? 0)%Z then (-1)%Z else (Z.of_nat (String.length a) + i)%Z.
Proof.
  unfold find_from. rewrite slice_from_length.
  unfold slice_index. rewrite length_append.
  destruct (Z.ltb_spec (Z.of_nat (String.length a)) 0); [lia|].
  replace (Z.max 0 _) with (Z.of_nat (String.length a)) by (simpl; lia).
  reflexivity.
Qed.

(** X2. [dep_getslot] answers [None] exactly for an atom without colon.
    Otherwise the atom is what [remove_slot] keeps of it, the colon, the
    slot, and a rest that is empty or opens a bracket; the slot holds no
    opening bracket. *)
Theorem dep_getslot_remove_slot (mydep : string) :
  (dep_getslot mydep = None <-> no_char ":" mydep = true)
  /\ (forall slot, dep_getslot mydep = Some slot ->
        no_char "[" slot = true
        /\ exists rest,
             mydep = remove_slot mydep +:+ String ":" (slot +:+ rest)
             /\ (rest = EmptyString \/ exists r, rest = String "[" r)).
Proof.
  unfold dep_getslot, remove_slot.
  destruct (find_cases ":" mydep) as [[Hf Hn]|(a & b & -> & Hn & Hf)].
  - rewrite Hf. cbn [Z.eqb negb]. split; [tauto|discriminate].
  - rewrite Hf.
    destruct (Z.eqb_spec (Z.of_nat (String.length a)) (-1)); [lia|].
    cbn [negb]. rewrite slice_to_length, find_from_split.
    assert (Hcolon : no_char ":" (a +:+ String ":" b) = false).
    { rewrite no_char_append. simpl. apply andb_false_r. }
    cbn [find]. change (Ascii.eqb ":" "[") with false. cbv iota zeta.
    destruct (find_cases "[" b) as [[Hg Hm]|(s & r & -> & Hm & Hg)].
    + rewrite Hg. change ((-1 <? 0)%Z) with true.
      change ((-1 =? -1)%Z) with true. cbv iota.
      split; [split; [discriminate|congruence]|].
      intros slot.
      replace (slice_from (a +:+ String ":" b) (Z.of_nat (String.length a) + 1))
        with b.
      * intros [= <-]. split; [exact Hm|]. exists EmptyString.
        rewrite append_empty_r. auto.
      * change (String ":" b) with (":" +:+ b). rewrite <- append_assoc.
        replace (Z.of_nat (String.length a) + 1)%Z
          with (Z.of_nat (String.length (a +:+ ":")))
          by (rewrite length_append; simpl; lia).
        now rewrite slice_from_length.
    + rewrite Hg.
      destruct (Z.ltb_spec (Z.of_nat (String.length s)) 0); [lia|].
      destruct (Z.ltb_spec (Z.of_nat (String.length s) + 1) 0); [lia|].
      destruct (Z.eqb_spec
                  (Z.of_nat (String.length a) + (Z.of_nat (String.length s) + 1))
                  (-1)); [lia|].
      split; [split; congruence|].
      intros slot.
      replace (slice _ _ _) with s.
      * intros [= <-]. split; [exact Hm|]. exists (String "[" r). eauto.
      * change (String ":" (s +:+ String "[" r))
          with (":" +:+ s +:+ String "[" r).
        rewrite <- append_assoc.
        replace (Z.of_nat (String.length a) + 1)%Z
          with (Z.of_nat (String.length (a +:+ ":")))
          by (rewrite length_append; simpl; lia).
        replace (Z.of_nat (String.length a) + (Z.of_nat (String.length s) + 1))%Z
          with (Z.of_nat (String.length (a +:+ ":") + String.length s))
          by (rewrite length_append; simpl; lia).
        now rewrite slice_middle.
Qed.

Lemma dep_getslot_remove_slot_witness :
  no_char "[" "3" = true
  /\ exists rest,
       "app-misc/test:3[foo]"
       = remove_slot "app-misc/test:3[foo]" +:+ String ":" ("3" +:+ rest)
       /\ (rest = EmptyString \/ exists r, rest = String "[" r).
Proof.
  apply (proj2 (dep_getslot_remove_slot "app-misc/test:3[foo]") "3").
  reflexivity.
Defined.

(** ** USE dependencies *)

Lemma no_char_snoc c s a :
  no_char c (snoc s a) = no_char c s && negb (Ascii.eqb a c).
Proof.
  unfold snoc. rewrite no_char_append. simpl. now rewrite andb_true_r.
Qed.

Lemma remove_usedeps_loop_closing s skip new :
  no_char "]" new = true ->
  no_char "]" (remove_usedeps_loop s skip new) = true.
Proof.
  revert skip new. induction s as [|c s IH]; intros skip new Hn; simpl; [exact Hn|].
  destruct (Ascii.eqb_spec c "[") as [->|Hopen].
  - apply IH. destruct (_ =? _)%Z; [|exact Hn].
    rewrite no_char_snoc, Hn. reflexivity.
  - destruct (Ascii.eqb_spec c "]") as [->|Hclose]; [now apply IH|].
    apply IH. destruct (_ =? _)%Z; [|exact Hn].
    rewrite no_char_snoc, Hn. apply Ascii.eqb_neq in Hclose. now rewrite Hclose.
Qed.

Lemma remove_usedeps_loop_opening s skip new :
  (0 <= skip)%Z -> brackets_nest skip s = true ->
  no_char "[" new = true ->
  no_char "[" (remove_usedeps_loop s skip new) = true.
Proof.
  revert skip new. induction s as [|c s IH]; intros skip new Hs Hb Hn; simpl;
    [exact Hn|].
  simpl in Hb. apply andb_true_iff in Hb as [Hd Hb]. unfold bracket in *.
  destruct (Ascii.eqb_spec c "[") as [->|Hopen].
  - apply IH; [lia|exact Hb|].
    destruct (Z.eqb_spec (skip + 1) 0); [lia|exact Hn].
  - destruct (Ascii.eqb_spec c "]") as [->|Hclose].
    + apply IH; [lia|exact Hb|exact Hn].
    + rewrite Z.add_0_r in Hb. apply IH; [lia|exact Hb|].
      destruct (_ =? _)%Z; [|exact Hn].
      rewrite no_char_snoc, Hn. apply Ascii.eqb_neq in Hopen. now rewrite Hopen.
Qed.

(** X3. The result of [remove_usedeps] never holds a closing bracket, and
    it holds no opening bracket either when no bracket of the atom is
    closed before it was opened. *)
Theorem remove_usedeps_no_bracket (depend : string) :
  no_char "]" (remove_usedeps depend) = true
  /\ (brackets_nest 0 depend = true ->
      no_char "[" (remove_usedeps depend) = true).
Proof.
  split.
  - now apply remove_usedeps_loop_closing.
  - intros H. apply remove_usedeps_loop_opening; [lia|exact H|reflexivity].
Qed.

Lemma remove_usedeps_no_bracket_witness :
  brackets_nest 0 "app-misc/test:3[foo,-bar]" = true
  /\ no_char "[" (remove_usedeps "app-misc/test:3[foo,-bar]") = true.
Proof.
  split; [reflexivity|].
  apply (proj2 (remove_usedeps_no_bracket "app-misc/test:3[foo,-bar]")).
  reflexivity.
Defined.

Lemma remove_usedeps_loop_acc s skip new :
  remove_usedeps_loop s skip new
  = new +:+ remove_usedeps_loop s skip EmptyString.
Proof.
  revert skip new. induction s as [|c s IH]; intros skip new; simpl.
  - now rewrite append_empty_r.
  - destruct (Ascii.eqb c "[").
    + destruct (_ =? _)%Z; [|apply IH].
      rewrite IH, (IH _ (snoc _ _)). unfold snoc.
      now rewrite append_empty_l, append_assoc.
    + destruct (Ascii.eqb c "]"); [apply IH|].
      destruct (_ =? _)%Z; [|apply IH].
      rewrite IH, (IH _ (snoc _ _)). unfold snoc.
      now rewrite append_empty_l, append_assoc.
Qed.

Lemma remove_usedeps_loop_kept s t new :
  no_char "[" s = true -> no_char "]" s = true ->
  remove_usedeps_loop (s +:+ t) 0 new = remove_usedeps_loop t 0 (new +:+ s).
Proof.
  revert new. induction s as [|c s IH]; intros new Ho Hc.
  - now rewrite append_empty_l, append_empty_r.
  - rewrite append_cons. simpl in *.
    apply andb_true_iff in Ho as [Ho Hos]. apply andb_true_iff in Hc as [Hc Hcs].
    apply negb_true_iff in Ho, Hc. rewrite Ho, Hc. cbn [Z.eqb].
    rewrite IH by assumption. unfold snoc.
    now rewrite append_assoc.
Qed.

Lemma remove_usedeps_loop_skipped s t new :
  no_char "[" s = true -> no_char "]" s = true ->
  remove_usedeps_loop (s +:+ t) 1 new = remove_usedeps_loop t 1 new.
Proof.
  induction s as [|c s IH]; intros Ho Hc.
  - now rewrite append_empty_l.
  - rewrite append_cons. simpl in *.
    apply andb_true_iff in Ho as [Ho Hos]. apply andb_true_iff in Hc as [Hc Hcs].
    apply negb_true_iff in Ho, Hc. rewrite Ho, Hc. cbn [Z.eqb]. auto.
Qed.

(** X4. [remove_usedeps] drops a bracketed group and keeps what is around
    it: for an atom [a] and a text [use] without brackets, the result on
    [a[use]rest] is [a] followed by the result on [rest]; an atom without
    brackets is returned as it is. *)
Theorem remove_usedeps_group (a use rest : string) :
  no_char "[" a = true -> no_char "]" a = true ->
  no_char "[" use = true -> no_char "]" use = true ->
  remove_usedeps (a +:+ String "[" (use +:+ String "]" rest))
  = a +:+ remove_usedeps rest
  /\ remove_usedeps a = a.
Proof.
  intros Hao Hac Huo Huc. unfold remove_usedeps. split.
  - rewrite remove_usedeps_loop_kept by assumption.
    rewrite append_empty_l. cbn [remove_usedeps_loop Ascii.eqb].
    change (Ascii.eqb "[" "[") with true. cbv iota zeta.
    change (0 + 1 =? 0)%Z with false. cbv iota.
    rewrite remove_usedeps_loop_skipped by assumption.
    cbn [remove_usedeps_loop].
    change (Ascii.eqb "]" "[") with false. change (Ascii.eqb "]" "]") with true.
    cbv iota. change (1 - 1)%Z with 0%Z.
    apply remove_usedeps_loop_acc.
  - rewrite <- (append_empty_r a) at 1.
    rewrite remove_usedeps_loop_kept by assumption.
    now rewrite append_empty_l.
Qed.

Lemma remove_usedeps_group_witness :
  remove_usedeps ("app-misc/test:3" +:+ String "[" ("foo,-bar" +:+ String "]" ""))
  = "app-misc/test:3" +:+ remove_usedeps ""
  /\ remove_usedeps "app-misc/test:3" = "app-misc/test:3".
Proof.
  apply (remove_usedeps_group "app-misc/test:3" "foo,-bar" ""); reflexivity.
Defined.

(** ** Operators *)

Lemma slice_from_1 a s : slice_from (String a s) 1 = s.
Proof.
  change (String a s) with (String a EmptyString +:+ s).
  exact (slice_from_length (String a EmptyString) s).
Qed.

Lemma slice_from_2 a b s : slice_from (String a (String b s)) 2 = s.
Proof.
  change (String a (String b s)) with (String a (String b EmptyString) +:+ s).
  exact (slice_from_length (String a (String b EmptyString)) s).
Qed.

Lemma slice_to_1 a s : slice_to (String a s) 1 = String a EmptyString.
Proof.
  change (String a s) with (String a EmptyString +:+ s).
  exact (slice_to_length (String a EmptyString) s).
Qed.

Lemma slice_to_2 a b s :
  slice_to (String a (String b s)) 2 = String a (String b EmptyString).
Proof.
  change (String a (String b s)) with (String a (String b EmptyString) +:+ s).
  exact (slice_to_length (String a (String b EmptyString)) s).
Qed.

Lemma slice_to_short (s : string) (n : nat) :
  (String.length s <= n)%nat -> slice_to s (Z.of_nat n) = s.
Proof.
  intros Hn. unfold slice_to, slice, slice_index.
  destruct (Z.ltb_spec 0 0); [lia|]. destruct (Z.ltb_spec (Z.of_nat n) 0); [lia|].
  replace (Z.to_nat (Z.max 0 (Z.min _ 0))) with 0%nat by lia.
  replace (Z.to_nat _) with (String.length s) by lia.
  apply substring_all.
Qed.

Lemma slice_to_last s c : slice_to (snoc s c) (-1) = s.
Proof.
  unfold slice_to, slice, slice_index. rewrite length_snoc.
  destruct (Z.ltb_spec 0 0); [lia|]. destruct (Z.ltb_spec (-1) 0); [|lia].
  replace (Z.to_nat (Z.max 0 (Z.min _ 0))) with 0%nat by lia.
  replace (Z.to_nat _) with (String.length s) by lia.
  apply substring_prefix.
Qed.

Lemma last_is_snoc c s a : last_is c (snoc s a) = Ascii.eqb a c.
Proof.
  induction s as [|x s IH]; [reflexivity|].
  rewrite snoc_cons. cbn [last_is]. rewrite IH.
  destruct s; reflexivity.
Qed.

Lemma snoc_cases s : s = EmptyString \/ exists s' a, s = snoc s' a.
Proof.
  induction s as [|x s IH]; [now left|]. right.
  destruct IH as [->|(s' & a & ->)].
  - exists EmptyString, x. reflexivity.
  - exists (String x s'), a. now rewrite snoc_cons.
Qed.

Lemma append_snoc_r s t a : s +:+ snoc t a = snoc (s +:+ t) a.
Proof. unfold snoc. now rewrite append_assoc. Qed.

Lemma after_stars_operator op x r :
  In op [""; ">="; "<="; "="; "<"; ">"; "~"] ->
  is_mark x = false ->
  after_stars (op +:+ String x r)
  = let mydep := String x r in
    let colon := rfind ":" mydep in
    if negb (colon =? -1)%Z then slice_to mydep colon else mydep.
Proof.
  intros Hop Hx.
  unfold is_mark in Hx. cbn [existsb] in Hx.
  repeat (apply orb_false_iff in Hx as [? Hx]).
  assert (Hfirst : contains "=<>~" (slice_to (String x r) 1) = false).
  { rewrite slice_to_1. cbn.
    repeat match goal with H : Ascii.eqb x _ = false |- _ => rewrite H; clear H end.
    reflexivity. }
  assert (Htwo :
    existsb (String.eqb (slice_to (String x r) 2)) [">="; "<="] = false).
  { destruct r as [|y r].
    - change 2%Z with (Z.of_nat 2).
      rewrite (slice_to_short (String x "") 2) by (simpl; lia). cbn.
      destruct (Ascii.eqb x ">"), (Ascii.eqb x "<"); reflexivity.
    - rewrite slice_to_2. cbn.
      destruct (Ascii.eqb_spec x ">") as [->|]; [discriminate|].
      destruct (Ascii.eqb_spec x "<") as [->|]; [discriminate|].
      reflexivity. }
  assert (Heq : forall c, Ascii.eqb c "=" = true ->
    existsb (String.eqb (String c (String x EmptyString))) [">="; "<="] = false).
  { intros c Hc. cbn.
    repeat match goal with H : Ascii.eqb x "=" = false |- _ => rewrite H end.
    destruct (Ascii.eqb c ">"), (Ascii.eqb c "<"); reflexivity. }
  unfold after_stars. cbn [In] in Hop.
  destruct Hop as [<-|[<-|[<-|[<-|[<-|[<-|[<-|[]]]]]]]];
    rewrite ?append_cons, ?append_empty_l;
    cbn [first_is]; cbv zeta.
  - repeat match goal with H : Ascii.eqb x "!" = false |- _ => rewrite H end.
    rewrite Htwo, Hfirst. reflexivity.
  - change (Ascii.eqb ">" "!") with false. cbv iota.
    rewrite slice_to_2, slice_from_2. reflexivity.
  - change (Ascii.eqb "<" "!") with false. cbv iota.
    rewrite slice_to_2, slice_from_2. reflexivity.
  - change (Ascii.eqb "=" "!") with false. cbv iota.
    rewrite slice_to_2, slice_to_1, slice_from_1. reflexivity.
  - change (Ascii.eqb "<" "!") with false. cbv iota.
    rewrite slice_to_2, slice_to_1, slice_from_1.
    replace (existsb _ _) with false; [reflexivity|].
    cbn.
    repeat match goal with H : Ascii.eqb x "=" = false |- _ => rewrite H end.
    reflexivity.
  - change (Ascii.eqb ">" "!") with false. cbv iota.
    rewrite slice_to_2, slice_to_1, slice_from_1.
    replace (existsb _ _) with false; [reflexivity|].
    cbn.
    repeat match goal with H : Ascii.eqb x "=" = false |- _ => rewrite H end.
    reflexivity.
  - change (Ascii.eqb "~" "!") with false. cbv iota.
    rewrite slice_to_2, slice_to_1, slice_from_1. reflexivity.
Qed.

Lemma last_is_append c s t :
  t <> EmptyString -> last_is c (s +:+ t) = last_is c t.
Proof.
  intros Ht. induction s as [|x s IH]; [now rewrite append_empty_l|].
  rewrite append_cons. cbn [last_is]. rewrite IH.
  destruct (s +:+ t) eqn:E; [|reflexivity].
  destruct s; [rewrite append_empty_l in E; congruence|discriminate].
Qed.

Lemma first_is_operator c op x r :
  In op [""; ">="; "<="; "="; "<"; ">"; "~"] ->
  Ascii.eqb x c = false -> c = "*"%char ->
  first_is c (op +:+ String x r) = false.
Proof.
  intros Hop Hx ->. cbn [In] in Hop.
  destruct Hop as [<-|[<-|[<-|[<-|[<-|[<-|[<-|[]]]]]]]];
    rewrite ?append_cons, ?append_empty_l; cbn [first_is];
    [exact Hx|reflexivity..].
Qed.

(** X5. [dep_getcpv] takes a comparison operator off the front of an atom
    and the slot off its end: for a category-package-version that holds
    no colon and does not begin with a mark, [op cpv] gives [cpv] when
    [cpv] does not end in a star, and [op cpv:slot] gives [cpv] for every
    slot without colon. *)
Theorem dep_getcpv_operator (op : string) (x : ascii) (r slot : string) :
  In op comparison_operators ->
  is_mark x = false -> no_char ":" (String x r) = true ->
  (last_is "*" (String x r) = false ->
   dep_getcpv (op +:+ String x r) = String x r)
  /\ (no_char ":" slot = true ->
      dep_getcpv (op +:+ String x r +:+ String ":" slot) = String x r).
Proof.
  unfold comparison_operators. intros Hop Hx Hc.
  assert (Hstar : Ascii.eqb x "*" = false).
  { unfold is_mark in Hx. cbn [existsb] in Hx.
    now apply orb_false_iff in Hx as [? _]. }
  split.
  - intros Hlast. unfold dep_getcpv.
    rewrite (first_is_operator "*" op x r Hop Hstar eq_refl).
    rewrite last_is_append, Hlast by discriminate.
    fold (after_stars (op +:+ String x r)).
    rewrite after_stars_operator by assumption. cbv zeta.
    now rewrite (rfind_no_char _ _ Hc).
  - intros Hs. unfold dep_getcpv.
    rewrite append_cons.
    rewrite (first_is_operator "*" op x _ Hop Hstar eq_refl).
    assert (Hcut : forall slot', no_char ":" slot' = true ->
      after_stars (op +:+ String x (r +:+ String ":" slot')) = String x r).
    { intros slot' Hs'. rewrite after_stars_operator by assumption. cbv zeta.
      rewrite <- append_cons. rewrite (rfind_stop _ _ _ Hs').
      destruct (Z.eqb_spec (Z.of_nat (String.length (String x r))) (-1)); [lia|].
      cbn [negb]. apply slice_to_length. }
    destruct (snoc_cases slot) as [->|(slot' & a & ->)].
    + rewrite last_is_append by discriminate.
      replace (last_is "*" (String x (r +:+ ":"))) with false.
      * apply (Hcut EmptyString eq_refl).
      * rewrite <- append_cons. now rewrite last_is_append by discriminate.
    + assert (Hw : op +:+ String x (r +:+ String ":" (snoc slot' a))
                   = snoc (op +:+ String x (r +:+ String ":" slot')) a).
      { unfold snoc. now rewrite !append_assoc, !append_cons, !append_assoc. }
      assert (Hlast : last_is "*" (op +:+ String x (r +:+ String ":" (snoc slot' a)))
                      = Ascii.eqb a "*")
        by (rewrite Hw; apply last_is_snoc).
      rewrite Hlast. destruct (Ascii.eqb a "*").
      * rewrite Hw, slice_to_last. apply Hcut.
        rewrite no_char_snoc in Hs. now apply andb_true_iff in Hs as [Hs' _].
      * apply (Hcut (snoc slot' a) Hs).
Qed.

Lemma dep_getcpv_operator_witness :
  dep_getcpv (">=" +:+ "media-libs/test-3.0") = "media-libs/test-3.0"
  /\ dep_getcpv (">=" +:+ "media-libs/test-3.0" +:+ String ":" "2")
     = "media-libs/test-3.0".
Proof.
  destruct (dep_getcpv_operator ">=" "m" "edia-libs/test-3.0" "2") as [H1 H2].
  - right. left. reflexivity.
  - reflexivity.
  - reflexivity.
  - split; [apply H1; reflexivity|apply H2; reflexivity].
Defined.

(** ** Revisions *)

Lemma split_cons_piece sep s : exists w ws, split sep s = w :: ws.
Proof.
  destruct (split sep s) as [|w ws] eqn:E; [|eauto].
  pose proof (split_length sep s) as H. rewrite E in H. simpl in H. lia.
Qed.

Lemma split_append sep p q :
  split sep (p +:+ String sep q) = split sep p ++ split sep q.
Proof.
  induction p as [|c p IH].
  - rewrite append_empty_l. simpl. now rewrite Ascii.eqb_refl.
  - rewrite append_cons. simpl. rewrite IH.
    destruct (Ascii.eqb c sep); [reflexivity|].
    destruct (split_cons_piece sep p) as (w & ws & ->). reflexivity.
Qed.

Lemma split_last_piece sep p q :
  no_char sep q = true ->
  split sep (p +:+ String sep q) = split sep p ++ [q].
Proof. intros Hq. now rewrite split_append, (split_no_char_end _ _ Hq). Qed.

Lemma last_is_no_char c s : no_char c s = true -> last_is c s = false.
Proof.
  induction s as [|x s IH]; [reflexivity|]. simpl.
  intros H. apply andb_true_iff in H as [Hx Hs]. apply negb_true_iff in Hx.
  destruct s; [exact Hx|now apply IH].
Qed.

Lemma concat_split sep s :
  String.concat (String sep EmptyString) (split sep s) = s.
Proof.
  induction s as [|c s IH]; [reflexivity|]. simpl.
  destruct (split_cons_piece sep s) as (w & ws & E). rewrite E in *.
  destruct (Ascii.eqb_spec c sep) as [->|Hne].
  - change (String.concat (String sep "") ("" :: w :: ws))
      with ("" +:+ String sep "" +:+ String.concat (String sep "") (w :: ws)).
    rewrite IH. reflexivity.
  - destruct ws as [|w' ws].
    + cbn [String.concat] in *. now rewrite IH.
    + change (String.concat (String sep "") (String c w :: w' :: ws))
        with (String c w +:+ String sep "" +:+ String.concat (String sep "") (w' :: ws)).
      change (String.concat (String sep "") (w :: w' :: ws))
        with (w +:+ String sep "" +:+ String.concat (String sep "") (w' :: ws)) in IH.
      rewrite append_cons. now rewrite IH.
Qed.

(** What the last piece of [ver.split("-")] is. *)
Lemma last_piece_cases ver :
  (no_char "-" ver = true /\ split "-" ver = [ver])
  \/ exists a b, ver = a +:+ String "-" b /\ no_char "-" b = true
                 /\ split "-" ver = split "-" a ++ [b].
Proof.
  destruct (rfind_cases "-" ver) as [[_ Hn]|(a & b & -> & Hn & _)].
  - left. split; [exact Hn|]. now apply split_no_char_end.
  - right. exists a, b. split; [reflexivity|]. split; [exact Hn|].
    now apply split_last_piece.
Qed.

(** X6. [remove_revision] raises [IndexError] exactly on the empty string
    and on a string that ends with a dash: the last piece of the split is
    then empty and has no first character. *)
Theorem remove_revision_index_error (ver : string) :
  remove_revision ver = Raise IndexError
  <-> ver = EmptyString \/ last_is "-" ver = true.
Proof.
  unfold remove_revision, getitem_last.
  destruct (last_piece_cases ver) as [[Hn E]|(a & b & -> & Hn & E)];
    rewrite E.
  - cbn. rewrite (last_is_no_char _ _ Hn).
    destruct ver as [|c r].
    + split; auto.
    + destruct (Ascii.eqb c "r"); split; try discriminate;
        intros [H|H]; discriminate.
  - rewrite last_snoc. cbn.
    destruct b as [|c r].
    + split; [intros _; right|reflexivity].
      change (a +:+ "-") with (snoc a "-"). apply last_is_snoc.
    + change (String "-" (String c r)) with ("-" +:+ String c r).
      rewrite <- append_assoc, last_is_append by discriminate.
      rewrite (last_is_no_char _ _ Hn).
      destruct (Ascii.eqb c "r"); split; try discriminate.
      * intros [H|H]; [|discriminate]. destruct a; discriminate.
      * intros [H|H]; [|discriminate]. destruct a; discriminate.
Qed.

Lemma remove_revision_index_error_witness :
  remove_revision "media-libs/test-" = Raise IndexError.
Proof.
  apply (proj2 (remove_revision_index_error "media-libs/test-")).
  right. reflexivity.
Defined.

(** X7. [remove_revision] takes the revision off: when the last piece
    begins with [r], what comes before its dash is returned, whatever the
    piece holds after the [r]; a string without dash that begins with [r]
    is such a piece and gives the empty string. *)
Theorem remove_revision_cut (ver rev : string) :
  no_char "-" rev = true ->
  remove_revision (ver +:+ String "-" (String "r" rev)) = Ret ver
  /\ remove_revision (String "r" rev) = Ret EmptyString.
Proof.
  intros Hn. unfold remove_revision, getitem_last.
  assert (Hr : no_char "-" (String "r" rev) = true) by exact Hn.
  split.
  - rewrite (split_last_piece _ _ _ Hr), last_snoc. cbn.
    rewrite removelast_last. apply f_equal, concat_split.
  - rewrite (split_no_char_end _ _ Hr). reflexivity.
Qed.

Lemma remove_revision_cut_witness :
  remove_revision ("media-libs/test-3.0" +:+ String "-" (String "r" "1"))
  = Ret "media-libs/test-3.0"
  /\ remove_revision (String "r" "sync") = Ret EmptyString.
Proof.
  split.
  - apply (proj1 (remove_revision_cut "media-libs/test-3.0" "1" eq_refl)).
  - apply (proj2 (remove_revision_cut "" "sync" eq_refl)).
Defined.

(** X8. [dep_get_spm_revision] always answers with a revision: a string
    without dash that begins with [r] and a digit.  It is ["r0"], or the
    text of the atom after its last dash (the atom itself when there is no
    dash). *)
Theorem dep_get_spm_revision_shape (mydep : string) :
  exists rev,
    dep_get_spm_revision mydep = Ret rev
    /\ dep_revmatch rev = true
    /\ no_char "-" rev = true
    /\ (rev = "r0"
        \/ mydep = rev
        \/ exists a, mydep = a +:+ String "-" rev).
Proof.
  unfold dep_get_spm_revision, getitem_last.
  destruct (last_piece_cases mydep) as [[Hn E]|(a & b & -> & Hn & E)];
    rewrite E.
  - cbn. destruct (dep_revmatch mydep) eqn:Hm.
    + exists mydep. split; [reflexivity|]. split; [exact Hm|].
      split; [exact Hn|]. right. left. reflexivity.
    + exists "r0". split; [reflexivity|]. split; [reflexivity|].
      split; [reflexivity|]. left. reflexivity.
  - rewrite last_snoc. cbn. destruct (dep_revmatch b) eqn:Hm.
    + exists b. split; [reflexivity|]. split; [exact Hm|].
      split; [exact Hn|]. right. right. exists a. reflexivity.
    + exists "r0". split; [reflexivity|]. split; [reflexivity|].
      split; [reflexivity|]. left. reflexivity.
Qed.

(** ** Entropy revisions and tags *)

Lemma remove_package_operators_atom ops x r :
  all_chars is_operator ops = true -> is_operator x = false ->
  remove_package_operators (ops +:+ String x r) = String x r.
Proof.
  intros Hops Hx. unfold remove_package_operators.
  induction ops as [|c ops IH].
  - rewrite append_empty_l. cbn [lstrip_chars].
    unfold is_operator in Hx. now rewrite Hx.
  - rewrite append_cons. cbn [lstrip_chars]. simpl in Hops.
    apply andb_true_iff in Hops as [Hc Hops]. unfold is_operator in Hc.
    rewrite Hc. now apply IH.
Qed.

Lemma slice_to_negative a b :
  b <> EmptyString ->
  slice_to (a +:+ b) (- Z.of_nat (String.length b)) = a.
Proof.
  intros Hb. assert (0 < String.length b)%nat by (destruct b; [congruence|simpl; lia]).
  unfold slice_to, slice, slice_index. rewrite length_append.
  destruct (Z.ltb_spec 0 0); [lia|].
  destruct (Z.ltb_spec (- Z.of_nat (String.length b)) 0); [|lia].
  replace (Z.to_nat (Z.max 0 (Z.min _ 0))) with 0%nat by lia.
  replace (Z.to_nat _) with (String.length a) by lia.
  apply substring_prefix.
Qed.

(** X9. [remove_entropy_revision] cuts an atom at the last tilde that
    follows its operators and keeps the operators: [ops atom~rev] gives
    [ops atom] when [rev] holds no tilde.  A tilde among the leading
    operators is no revision mark: without another tilde the atom is
    returned as it is. *)
Theorem remove_entropy_revision_cut
    (ops : string) (x : ascii) (r rev : string) :
  all_chars is_operator ops = true -> is_operator x = false ->
  (no_char "~" rev = true ->
   remove_entropy_revision (ops +:+ String x r +:+ String "~" rev)
   = ops +:+ String x r)
  /\ (no_char "~" (String x r) = true ->
      remove_entropy_revision (ops +:+ String x r) = ops +:+ String x r).
Proof.
  intros Hops Hx. unfold remove_entropy_revision. split; intros Hn.
  - rewrite append_cons.
    rewrite (remove_package_operators_atom ops x _ Hops Hx).
    rewrite slice_to_negative by discriminate.
    rewrite <- append_cons, (rfind_stop _ _ _ Hn).
    destruct (Z.eqb_spec (Z.of_nat (String.length (String x r))) (-1)); [lia|].
    now rewrite slice_to_length.
  - rewrite (remove_package_operators_atom ops x _ Hops Hx).
    now rewrite (rfind_no_char _ _ Hn).
Qed.

Lemma remove_entropy_revision_cut_witness :
  remove_entropy_revision (">=" +:+ String "f" "oo-1.0" +:+ String "~" "5")
  = ">=" +:+ String "f" "oo-1.0"
  /\ remove_entropy_revision ("~" +:+ String "f" "oo-1.0")
     = "~" +:+ String "f" "oo-1.0".
Proof.
  destruct (remove_entropy_revision_cut ">=" "f" "oo-1.0" "5" eq_refl eq_refl)
    as [H1 _].
  destruct (remove_entropy_revision_cut "~" "f" "oo-1.0" "5" eq_refl eq_refl)
    as [_ H2].
  split; [apply H1; reflexivity|apply H2; reflexivity].
Defined.

(** ** Atoms that end in [-r0] *)

Lemma last_two_app {A} (l : list A) a b : last_two (l ++ [a; b]) = [a; b].
Proof.
  unfold last_two. rewrite length_app. simpl.
  replace (length l + 2 - 2)%nat with (length l) by lia.
  now rewrite drop_app_length.
Qed.

(** X10. [isjustname] takes every atom that ends in [-r0] for a bare name:
    the revision found is ["r0"], the text that is appended for a missing
    revision is appended to it as well, and the last two pieces, ["r0"]
    twice, are no version. *)
Theorem isjustname_revision_zero (mypkg : string) :
  isjustname (mypkg +:+ "-r0") = Ret true.
Proof.
  unfold isjustname, dep_get_spm_revision, getitem_last.
  rewrite (split_last_piece "-" mypkg "r0" eq_refl), last_snoc.
  assert (Hm : dep_revmatch "r0" = true) by reflexivity.
  cbn [mbind outcome_bind]. rewrite Hm. cbn [mbind outcome_bind].
  rewrite String.eqb_refl.
  rewrite (split_last_piece "-" (mypkg +:+ "-r0") "r0" eq_refl).
  rewrite (split_last_piece "-" mypkg "r0" eq_refl).
  rewrite <- app_assoc. cbn [app]. rewrite last_two_app.
  reflexivity.
Qed.

Section TagFacts.

Variable entropytagprefix : ascii.

Local Abbreviation remove_tag := (remove_tag entropytagprefix).
Local Abbreviation dep_gettag := (dep_gettag entropytagprefix).
Local Abbreviation create_package_atom_string :=
  (create_package_atom_string entropytagprefix).

(** X11. The tag that [create_package_atom_string] puts on an atom is the
    one that [dep_gettag] reads and that [remove_tag] takes off, for a tag
    that is not empty and holds no prefix character, colon or bracket, and
    an atom without tilde. *)
Theorem tag_round_trip (category name version tag : string) :
  tag <> EmptyString ->
  no_char entropytagprefix tag = true ->
  remove_tag (create_package_atom_string category name version (Some tag))
  = create_package_atom_string category name version None
  /\ (no_char "~" (create_package_atom_string category name version (Some tag))
      = true ->
      no_char ":" tag = true -> no_char "[" tag = true ->
      dep_gettag (create_package_atom_string category name version (Some tag))
      = Some tag).
Proof.
  intros Hne Hp. unfold Atoms.create_package_atom_string.
  assert (Ht : truthy tag = true) by (destruct tag; [congruence|reflexivity]).
  rewrite Ht, append_empty_r.
  set (atom := category +:+ "/" +:+ name +:+ "-" +:+ version).
  split.
  - unfold Atoms.remove_tag. rewrite (rfind_stop _ _ _ Hp).
    destruct (Z.eqb_spec (Z.of_nat (String.length atom)) (-1)); [lia|].
    apply slice_to_length.
  - intros Htilde Hc Hb. unfold Atoms.dep_gettag, remove_entropy_revision.
    assert (Hk : rfind "~" (remove_package_operators
                              (atom +:+ String entropytagprefix tag)) = (-1)%Z).
    { apply rfind_no_char.
      unfold remove_package_operators.
      generalize (atom +:+ String entropytagprefix tag) Htilde.
      intros s. induction s as [|c s IH]; [reflexivity|].
      intros Hs. cbn [lstrip_chars].
      destruct (contains _ _); [|exact Hs].
      simpl in Hs. apply andb_true_iff in Hs as [_ Hs]. now apply IH. }
    rewrite Hk. change ((-1 =? -1)%Z) with true. cbv iota.
    rewrite (rfind_stop _ _ _ Hp).
    destruct (Z.eqb_spec (Z.of_nat (String.length atom)) (-1)); [lia|].
    cbn [negb].
    replace (slice_from _ _) with tag.
    + unfold remove_slot. rewrite (find_no_char _ _ Hc), (find_no_char _ _ Hb).
      reflexivity.
    + change (String entropytagprefix tag)
        with (String entropytagprefix "" +:+ tag).
      rewrite <- append_assoc.
      replace (Z.of_nat (String.length atom) + 1)%Z
        with (Z.of_nat (String.length (atom +:+ String entropytagprefix "")))
        by (rewrite length_append; simpl; lia).
      now rewrite slice_from_length.
Qed.

End TagFacts.

Lemma tag_round_trip_witness :
  remove_tag "#" (create_package_atom_string "#" "app-misc" "test" "1.0"
                    (Some "2.6.23-sabayon-r1"))
  = create_package_atom_string "#" "app-misc" "test" "1.0" None
  /\ dep_gettag "#" (create_package_atom_string "#" "app-misc" "test" "1.0"
                       (Some "2.6.23-sabayon-r1"))
     = Some "2.6.23-sabayon-r1".
Proof.
  destruct (tag_round_trip "#" "app-misc" "test" "1.0" "2.6.23-sabayon-r1")
    as [H1 H2]; [discriminate|reflexivity|].
  split; [exact H1|apply H2; reflexivity].
Defined.

(** ** Swapping the arguments of [compare_versions] *)

Lemma Qeq_bool_sym x y : Qeq_bool x y = Qeq_bool y x.
Proof.
  apply eq_true_iff_eq. rewrite !Qeq_bool_iff. split; intros H; now symmetry.
Qed.

Lemma pynum_neb_sym a b : pynum_neb a b = pynum_neb b a.
Proof.
  destruct a, b; simpl; f_equal; try apply Z.eqb_sym; apply Qeq_bool_sym.
Qed.

Lemma binary64_of_Q_opposite n n' d :
  n' = (- n)%Z ->
  Z.sgn (Qnum (binary64_of_Q (Qmake n' d)))
  = (- Z.sgn (Qnum (binary64_of_Q (Qmake n d))))%Z.
Proof.
  intros ->. unfold binary64_of_Q. cbn [Qnum Qden].
  destruct (Z.ltb_spec (- n) 0), (Z.ltb_spec n 0); try lia.
  - rewrite Z.opp_involutive. cbn [Qopp Qnum]. now rewrite Z.sgn_opp.
  - cbn [Qopp Qnum]. now rewrite Z.sgn_opp, Z.opp_involutive.
  - assert (n = 0%Z) by lia. subst. reflexivity.
Qed.

Lemma pynum_sub_opposite a b : opposite (pynum_sub a b) (pynum_sub b a).
Proof.
  unfold opposite.
  assert (Hf : forall x y : Q,
    Z.sgn (Qnum (binary64_of_Q (y - x))) = (- Z.sgn (Qnum (binary64_of_Q (x - y))))%Z).
  { intros [xn xd] [yn yd]. unfold Qminus, Qplus, Qopp. cbn [Qnum Qden].
    rewrite (Pos.mul_comm yd xd). apply binary64_of_Q_opposite. lia. }
  destruct a, b; cbn [pynum_sub pynum_sgn]; try apply Hf.
  rewrite <- Z.sgn_opp. f_equal. lia.
Qed.

Lemma dotted_loop_swap n i vlist1 vlist2 list1 list2 a b :
  dotted_loop n i vlist1 vlist2 list1 list2 = Ret (a, b) ->
  dotted_loop n i vlist2 vlist1 list2 list1 = Ret (b, a).
Proof.
  revert i list1 list2. induction n as [|n IH]; intros i list1 list2; simpl.
  - now intros [= -> ->].
  - destruct (missing vlist1 i) eqn:M1, (missing vlist2 i) eqn:M2.
    + (* both are missing: the first version raises *)
      unfold missing in M2. unfold getitem.
      destruct (vlist2 !! i) as [y|]; [|discriminate].
      destruct y; [|discriminate]. discriminate.
    + destruct (getitem vlist2 i) as [y|e]; [|discriminate]. cbn.
      destruct (py_int y) as [v|e]; [|discriminate]. cbn. apply IH.
    + destruct (getitem vlist1 i) as [x|e]; [|discriminate]. cbn.
      destruct (py_int x) as [v|e]; [|discriminate]. cbn. apply IH.
    + destruct (getitem vlist1 i) as [x|e]; [|discriminate]. cbn.
      destruct (getitem vlist2 i) as [y|e]; [|discriminate]. cbn.
      rewrite (andb_comm (head_differs y "0")).
      destruct (head_differs x "0" && head_differs y "0").
      * destruct (py_int x) as [v|e]; [|discriminate]. cbn.
        destruct (py_int y) as [w|e]; [|discriminate]. cbn. apply IH.
      * destruct (float_of_fraction x) as [v|e]; [|discriminate]. cbn.
        destruct (float_of_fraction y) as [w|e]; [|discriminate]. cbn. apply IH.
Qed.

Lemma main_loop_swap n i list1 list2 r :
  (i + n <= Nat.max (length list1) (length list2))%nat ->
  main_loop n i list1 list2 = Ret r ->
  exists r', main_loop n i list2 list1 = Ret r' /\ opposite_answer r r'.
Proof.
  revert i. induction n as [|n IH]; intros i Hb; simpl.
  - intros [= <-]. exists None. split; [reflexivity|exact I].
  - destruct (Nat.leb_spec (length list1) i), (Nat.leb_spec (length list2) i);
      try lia.
    + intros [= <-]. eexists. split; reflexivity.
    + intros [= <-]. eexists. split; reflexivity.
    + destruct (getitem list1 i) as [a|e]; [|discriminate]. cbn.
      destruct (getitem list2 i) as [b|e]; [|discriminate]. cbn.
      rewrite (pynum_neb_sym b a). destruct (pynum_neb a b).
      * intros [= <-]. eexists. split; [reflexivity|]. apply pynum_sub_opposite.
      * apply IH. lia.
Qed.

Lemma suffix_loop_swap n i list1 list2 r :
  suffix_loop n i list1 list2 = Ret r ->
  exists r', suffix_loop n i list2 list1 = Ret r' /\ opposite_answer r r'.
Proof.
  revert i. induction n as [|n IH]; intros i; simpl.
  - intros [= <-]. exists None. split; [reflexivity|exact I].
  - destruct (if (length list1 <=? i)%nat then _ else _) as [s1|e];
      [|discriminate]. cbn.
    destruct (if (length list2 <=? i)%nat then _ else _) as [s2|e];
      [|discriminate]. cbn.
    rewrite (String.eqb_sym (fst s2)), (String.eqb_sym (snd s2)).
    destruct (String.eqb (fst s1) (fst s2)); cbn [negb].
    + destruct (String.eqb (snd s1) (snd s2)); cbn [negb].
      * apply IH.
      * intros [= <-]. eexists. split; [reflexivity|].
        unfold opposite_answer, opposite. cbn [pynum_sgn].
        rewrite <- Z.sgn_opp. f_equal. lia.
    + destruct (suffix_value (fst s1)) as [v1|e]; [|discriminate]. cbn.
      destruct (suffix_value (fst s2)) as [v2|e]; [|discriminate]. cbn.
      intros [= <-]. eexists. split; [reflexivity|].
      unfold opposite_answer, opposite. cbn [pynum_sgn].
      rewrite <- Z.sgn_opp. f_equal. lia.
Qed.

Lemma compare_matches_swap match1 match2 r :
  compare_matches match1 match2 = Ret r ->
  exists r', compare_matches match2 match1 = Ret r' /\ opposite r r'.
Proof.
  unfold compare_matches.
  destruct (py_int (group2 match1)) as [v1|e]; [|discriminate]. cbn.
  destruct (py_int (group2 match2)) as [v2|e]; [|discriminate]. cbn.
  rewrite (orb_comm (truthy (group3 match2))).
  set (lists := if truthy (group3 match1) || truthy (group3 match2) then _ else _).
  set (lists' := if truthy (group3 match1) || truthy (group3 match2) then _ else _).
  destruct lists as [[list1 list2]|e] eqn:El; [|discriminate].
  assert (El' : lists' = Ret (list2, list1)).
  { subst lists lists'.
    destruct (truthy (group3 match1) || truthy (group3 match2)).
    - rewrite Nat.max_comm. now apply dotted_loop_swap.
    - now injection El as <- <-. }
  rewrite El'. cbn.
  destruct (if truthy (group5 match1) then _ else _) as [l1|e]; [|discriminate].
  cbn.
  destruct (if truthy (group5 match2) then _ else _) as [l2|e]; [|discriminate].
  cbn.
  destruct (main_loop _ 0 l1 l2) as [m|e] eqn:Em; [|discriminate]. cbn.
  apply main_loop_swap in Em as (m' & Em' & Hm); [|lia].
  rewrite (Nat.max_comm (length l2)), Em'. cbn.
  destruct m as [rc|], m' as [rc'|]; try contradiction.
  - intros [= <-]. eauto.
  - destruct (suffix_loop _ 0 _ _) as [s|e] eqn:Es; [|discriminate]. cbn.
    apply suffix_loop_swap in Es as (s' & Es' & Hs).
    rewrite (Nat.max_comm (length (tail (split "_" (group6 match2))))), Es'. cbn.
    destruct s as [rc|], s' as [rc'|]; try contradiction.
    + intros [= <-]. eauto.
    + destruct (revision_of match1) as [r1|e]; [|discriminate]. cbn.
      destruct (revision_of match2) as [r2|e]; [|discriminate]. cbn.
      intros [= <-]. eexists. split; [reflexivity|].
      unfold opposite. cbn [pynum_sgn]. rewrite <- Z.sgn_opp. f_equal. lia.
Qed.

Lemma compare_versions_swap_values ver1 ver2 :
  exists r r',
    compare_versions ver1 ver2 = Ret r
    /\ compare_versions ver2 ver1 = Ret r'
    /\ (match_version ver1 <> None -> match_version ver2 <> None ->
        pynum_sgn r' = (- pynum_sgn r)%Z)
    /\ ((pynum_sgn r < 0)%Z -> (0 < pynum_sgn r')%Z).
Proof.
  destruct (compare_versions_total ver1 ver2) as [r Hr].
  exists r. revert Hr. unfold compare_versions.
  rewrite (String.eqb_sym ver2).
  destruct (String.eqb ver1 ver2).
  { intros [= <-]. exists (PInt 0). repeat split; cbn; lia. }
  destruct (match_version ver1) as [m1|], (match_version ver2) as [m2|].
  - intros Hr. destruct (compare_matches_swap _ _ _ Hr) as (r' & Hr' & Ho).
    exists r'. unfold opposite in Ho.
    split; [exact Hr|]. split; [exact Hr'|]. split; [auto|]. lia.
  - intros [= <-]. exists (PInt 0). repeat split; cbn; try lia; congruence.
  - intros [= <-]. exists (PInt 1). repeat split; cbn; try lia; congruence.
  - intros [= <-]. exists (PInt 0). repeat split; cbn; try lia; congruence.
Qed.

(** X12. [compare_versions] never raises, and swapping its arguments turns
    the sign of its answer when both versions are valid.  With an invalid
    version the answer is never negative, so that for all strings a
    negative answer one way means a positive answer the other way. *)
Theorem compare_versions_swap (ver1 ver2 : string) :
  exists r r',
    compare_versions ver1 ver2 = Ret r
    /\ compare_versions ver2 ver1 = Ret r'
    /\ (match_version ver1 <> None -> match_version ver2 <> None ->
        pynum_sgn r' = (- pynum_sgn r)%Z)
    /\ ((pynum_sgn r < 0)%Z -> (0 < pynum_sgn r')%Z).
Proof. exact (compare_versions_swap_values ver1 ver2). Qed.

Lemma compare_versions_swap_witness :
  exists r r',
    compare_versions "1.0" "1.0.1" = Ret r
    /\ compare_versions "1.0.1" "1.0" = Ret r'
    /\ pynum_sgn r' = (- pynum_sgn r)%Z.
Proof.
  destruct (compare_versions_swap "1.0" "1.0.1") as (r & r' & H1 & H2 & H3 & _).
  exists r, r'. split; [exact H1|]. split; [exact H2|].
  apply H3; discriminate.
Defined.

(** ** The sorter *)

Section SorterFacts.

Context {A : Type}.
Variable cmp_func : A -> A -> outcome pynum.

Lemma sorter_pass_turn n idx max_idx inputs changed :
  sorter_pass cmp_func (S n) idx max_idx inputs changed
  = if (S idx =? max_idx)%nat
    then sorter_pass cmp_func n (S idx) max_idx inputs changed
    else
      str_a ← getitem inputs idx;
      str_b ← getitem inputs (S idx);
      rc ← cmp_func str_a str_b;
      if (pynum_sgn rc <? 0)%Z then
        sorter_pass cmp_func n (S idx) max_idx
          (<[S idx := str_a]> (<[idx := str_b]> inputs)) true
      else sorter_pass cmp_func n (S idx) max_idx inputs changed.
Proof. reflexivity. Qed.

Lemma sorter_pass_bubble r : forall p x c,
  sorter_pass cmp_func (S (length r)) (length p) (length p + S (length r))
    (p ++ x :: r) c
  = '(l, ch) ← bubble cmp_func x r; Ret (p ++ l, c || ch).
Proof.
  induction r as [|y r IH]; intros p x c.
  - rewrite sorter_pass_turn. cbn [length bubble].
    replace (S (length p) =? length p + 1)%nat with true
      by (symmetry; apply Nat.eqb_eq; lia).
    cbn. now rewrite orb_false_r.
  - rewrite sorter_pass_turn. cbn [length bubble].
    replace (S (length p) =? length p + S (S (length r)))%nat with false
      by (symmetry; apply Nat.eqb_neq; lia).
    unfold getitem.
    rewrite (list_lookup_middle p (y :: r) x (length p) eq_refl).
    replace ((p ++ x :: y :: r) !! S (length p)) with (Some y).
    2:{ symmetry. change (p ++ x :: y :: r) with (p ++ [x] ++ y :: r).
        rewrite app_assoc. apply list_lookup_middle.
        rewrite length_app. simpl. lia. }
    cbn [mbind outcome_bind].
    destruct (cmp_func x y) as [rc|e]; [|reflexivity].
    cbn [mbind outcome_bind].
    destruct (pynum_sgn rc <? 0)%Z.
    + replace (<[S (length p):=x]> (<[length p:=y]> (p ++ x :: y :: r)))
        with ((p ++ [y]) ++ x :: r).
      2:{ rewrite <- (Nat.add_0_r (length p)) at 2.
          rewrite insert_app_r. cbn [insert list_insert].
          replace (S (length p)) with (length p + 1)%nat by lia.
          rewrite insert_app_r. cbn. now rewrite <- app_assoc. }
      replace (S (length p)) with (length (p ++ [y]))
        by (rewrite length_app; simpl; lia).
      replace (length p + S (S (length r)))%nat
        with (length (p ++ [y]) + S (length r))%nat
        by (rewrite length_app; simpl; lia).
      rewrite IH.
      destruct (bubble cmp_func x r) as [[l ch]|e]; [|reflexivity].
      cbn. rewrite <- app_assoc, orb_true_r. reflexivity.
    + change (p ++ x :: y :: r) with (p ++ [x] ++ y :: r).
      rewrite app_assoc.
      replace (S (length p)) with (length (p ++ [x]))
        by (rewrite length_app; simpl; lia).
      replace (length p + S (S (length r)))%nat
        with (length (p ++ [x]) + S (length r))%nat
        by (rewrite length_app; simpl; lia).
      rewrite IH.
      destruct (bubble cmp_func y r) as [[l ch]|e]; [|reflexivity].
      cbn. rewrite <- app_assoc. reflexivity.
Qed.

(** A pass over a list that is not empty. *)
Lemma sorter_pass_whole x r :
  sorter_pass cmp_func (length (x :: r)) 0 (length (x :: r)) (x :: r) false
  = bubble cmp_func x r.
Proof.
  pose proof (sorter_pass_bubble r [] x false) as H.
  cbn [length app Nat.add orb] in H. cbn [length]. rewrite H.
  destruct (bubble cmp_func x r) as [[l ch]|e]; reflexivity.
Qed.

Lemma bubble_permutation r : forall x l ch,
  bubble cmp_func x r = Ret (l, ch) -> Permutation (x :: r) l.
Proof.
  induction r as [|y r IH]; intros x l ch; cbn [bubble].
  - now intros [= <- <-].
  - destruct (cmp_func x y) as [rc|e]; [|discriminate]. cbn [mbind outcome_bind].
    destruct (pynum_sgn rc <? 0)%Z.
    + destruct (bubble cmp_func x r) as [[l' c']|e] eqn:E; [|discriminate].
      intros [= <- <-]. rewrite perm_swap. constructor. eapply IH, E.
    + destruct (bubble cmp_func y r) as [[l' c']|e] eqn:E; [|discriminate].
      intros [= <- <-]. constructor. eapply IH, E.
Qed.

Lemma bubble_length r : forall x l ch,
  bubble cmp_func x r = Ret (l, ch) -> length l = S (length r).
Proof.
  intros x l ch H. apply bubble_permutation in H.
  now rewrite <- (Permutation_length H).
Qed.

(** A pass that changes nothing has found every member in its place. *)
Lemma bubble_unchanged r : forall x l,
  bubble cmp_func x r = Ret (l, false) ->
  l = x :: r /\ Sorted (not_below cmp_func) (x :: r).
Proof.
  induction r as [|y r IH]; intros x l; cbn [bubble].
  - intros [= <-]. split; [reflexivity|]. repeat constructor.
  - destruct (cmp_func x y) as [rc|e] eqn:Ec; [|discriminate].
    cbn [mbind outcome_bind].
    destruct (Z.ltb_spec (pynum_sgn rc) 0).
    + destruct (bubble cmp_func x r) as [[l' c']|e]; discriminate.
    + destruct (bubble cmp_func y r) as [[l' c']|e] eqn:E; [|discriminate].
      intros [= <- ->]. destruct (IH _ _ E) as [-> Hs].
      split; [reflexivity|]. constructor; [exact Hs|].
      constructor. exists rc. auto.
Qed.

Lemma sorter_loop_sound fuel : forall inputs r,
  inputs <> [] ->
  sorter_loop cmp_func fuel (length inputs) inputs = Some (Ret r) ->
  Permutation inputs r /\ Sorted (not_below cmp_func) r.
Proof.
  induction fuel as [|fuel IH]; intros inputs r Hne; [discriminate|].
  destruct inputs as [|x l]; [congruence|].
  cbn [sorter_loop]. rewrite sorter_pass_whole.
  destruct (bubble cmp_func x l) as [[l' ch]|e] eqn:E; [|discriminate].
  destruct ch; cbn [negb].
  - intros H. pose proof (bubble_permutation _ _ _ _ E) as Hp.
    pose proof (bubble_length _ _ _ _ E) as Hl.
    change (S (length l)) with (length (x :: l)) in Hl.
    rewrite <- Hl in H. apply IH in H as [Hp' Hs].
    + split; [now rewrite Hp|exact Hs].
    + intros ->. discriminate.
  - intros [= <-]. apply bubble_unchanged in E as [-> Hs]. auto.
Qed.

Lemma generic_sorter_sound_pair fuel inputlist r :
  generic_sorter cmp_func fuel inputlist = Some (Ret r) ->
  Permutation inputlist r /\ Sorted (not_below cmp_func) r.
Proof.
  unfold generic_sorter.
  destruct (Nat.ltb_spec (length inputlist) 2).
  - intros [= <-]. split; [reflexivity|].
    destruct inputlist as [|x [|y l]]; [repeat constructor..|simpl in *; lia].
  - apply sorter_loop_sound. intros ->. simpl in *. lia.
Qed.

(** X13. When [_generic_sorter] returns, its result holds the members of
    the input, each as often as the input, and no member is directly
    followed by one against which the comparison is negative. *)
Theorem generic_sorter_sound (fuel : nat) (inputlist r : list A) :
  generic_sorter cmp_func fuel inputlist = Some (Ret r) ->
  Permutation inputlist r /\ Sorted (not_below cmp_func) r.
Proof. apply generic_sorter_sound_pair. Qed.

End SorterFacts.

Lemma generic_sorter_sound_witness :
  Permutation ["1.0"; "2.0"; "1.5"] ["2.0"; "1.5"; "1.0"]
  /\ Sorted (not_below compare_versions) ["2.0"; "1.5"; "1.0"].
Proof.
  apply (generic_sorter_sound compare_versions 3 ["1.0"; "2.0"; "1.5"]).
  reflexivity.
Defined.

Section SorterEnds.

Context {A : Type}.
Variable cmp_func : A -> A -> outcome pynum.

Lemma filter_length_permutation (f : A -> bool) l l' :
  Permutation l l' -> length (List.filter f l) = length (List.filter f l').
Proof.
  induction 1 as [|x l l' _ IH|x y l|l l' l'' _ IH1 _ IH2]; simpl.
  - reflexivity.
  - destruct (f x); simpl; now rewrite IH.
  - destruct (f x), (f y); reflexivity.
  - now rewrite IH1.
Qed.

Lemma inversions_bound l :
  (inversions cmp_func l + length l <= length l * length l)%nat.
Proof.
  induction l as [|x l IH]; simpl; [lia|].
  pose proof (List.filter_length_le (below cmp_func x) l). nia.
Qed.

Section Antisymmetric.

Hypothesis cmp_total : forall a b, exists rc, cmp_func a b = Ret rc.
Hypothesis cmp_antisymmetric :
  forall a b, below cmp_func a b = true -> below cmp_func b a = false.

(** A pass returns, and when it has changed the list an inversion is
    gone. *)
Lemma bubble_inversions r : forall x,
  exists l ch,
    bubble cmp_func x r = Ret (l, ch)
    /\ (inversions cmp_func l + (if ch then 1 else 0)
        <= inversions cmp_func (x :: r))%nat.
Proof.
  induction r as [|y r IH]; intros x.
  - exists [x], false. split; [reflexivity|]. simpl. lia.
  - cbn [bubble].
    destruct (cmp_total x y) as [rc Hrc]. rewrite Hrc. cbn [mbind outcome_bind].
    destruct (pynum_sgn rc <? 0)%Z eqn:Hneg.
    + destruct (IH x) as (l & ch & E & Hm). rewrite E. cbn.
      exists (y :: l), true. split; [reflexivity|].
      assert (Hxy : below cmp_func x y = true)
        by (unfold below; now rewrite Hrc).
      pose proof (cmp_antisymmetric _ _ Hxy) as Hyx.
      cbn [inversions List.filter] in *.
      rewrite Hxy. cbn [length].
      rewrite <- (filter_length_permutation (below cmp_func y) _ _
                    (bubble_permutation _ _ _ _ _ E)).
      cbn [List.filter]. rewrite Hyx. lia.
    + destruct (IH y) as (l & ch & E & Hm). rewrite E. cbn.
      exists (x :: l), ch. split; [reflexivity|].
      assert (Hxy : below cmp_func x y = false)
        by (unfold below; now rewrite Hrc).
      cbn [inversions List.filter] in *.
      rewrite Hxy.
      rewrite <- (filter_length_permutation (below cmp_func x) _ _
                    (bubble_permutation _ _ _ _ _ E)).
      cbn [List.filter]. rewrite Hxy. lia.
Qed.

Lemma sorter_loop_ends fuel : forall inputs,
  inputs <> [] -> (inversions cmp_func inputs < fuel)%nat ->
  exists r, sorter_loop cmp_func fuel (length inputs) inputs = Some (Ret r).
Proof.
  induction fuel as [|fuel IH]; intros inputs Hne Hf; [lia|].
  destruct inputs as [|x l]; [congruence|].
  cbn [sorter_loop]. rewrite sorter_pass_whole.
  destruct (bubble_inversions l x) as (l' & ch & E & Hm). rewrite E.
  destruct ch; cbn [negb]; [|eauto].
  pose proof (bubble_length _ _ _ _ _ E) as Hl.
  change (S (length l)) with (length (x :: l)) in Hl. rewrite <- Hl.
  apply IH; [|lia]. intros ->. discriminate.
Qed.

Lemma generic_sorter_returns inputlist :
  exists r,
    generic_sorter cmp_func (length inputlist * length inputlist) inputlist
    = Some (Ret r).
Proof.
  unfold generic_sorter.
  destruct (Nat.ltb_spec (length inputlist) 2); [eauto|].
  apply sorter_loop_ends.
  - intros ->. simpl in *. lia.
  - pose proof (inversions_bound inputlist). lia.
Qed.

(** X14. With a comparison that never raises and is never negative both
    ways between two members, [_generic_sorter] returns: every pass that
    changes the list takes away one of the pairs that the comparison would
    exchange, so that as many passes as the square of the length are
    enough. *)
Theorem generic_sorter_ends (inputlist : list A) :
  exists r,
    generic_sorter cmp_func (length inputlist * length inputlist) inputlist
    = Some (Ret r).
Proof. apply generic_sorter_returns. Qed.

End Antisymmetric.

Section AlwaysBelow.

Hypothesis cmp_below : forall a b, below cmp_func a b = true.

Lemma bubble_changes x y r :
  exists l, bubble cmp_func x (y :: r) = Ret (l, true).
Proof.
  assert (Hret : forall r x, exists l ch, bubble cmp_func x r = Ret (l, ch)).
  { clear x y r. induction r as [|y r IH]; intros x; [eexists _, _; reflexivity|].
    cbn [bubble]. pose proof (cmp_below x y) as Hxy.
    unfold below in Hxy.
    destruct (cmp_func x y) as [rc|e]; [|discriminate].
    cbn [mbind outcome_bind]. rewrite Hxy.
    destruct (IH x) as (l & ch & ->). cbn. eauto. }
  cbn [bubble]. pose proof (cmp_below x y) as Hxy.
  unfold below in Hxy.
  destruct (cmp_func x y) as [rc|e]; [|discriminate].
  cbn [mbind outcome_bind]. rewrite Hxy.
  destruct (Hret r x) as (l & ch & ->). cbn. eauto.
Qed.

(** X15. With a comparison that is negative for every pair,
    [_generic_sorter] does not return on a list of two members or more:
    every pass exchanges members, and the loop goes on. *)
Theorem generic_sorter_never_ends (fuel : nat) (inputlist : list A) :
  (2 <= length inputlist)%nat ->
  generic_sorter cmp_func fuel inputlist = None.
Proof.
  unfold generic_sorter. intros Hl.
  destruct (Nat.ltb_spec (length inputlist) 2); [lia|].
  clear H. revert inputlist Hl.
  induction fuel as [|fuel IH]; intros inputs Hl; [reflexivity|].
  destruct inputs as [|x [|y r]]; [simpl in Hl; lia..|].
  cbn [sorter_loop]. rewrite sorter_pass_whole.
  destruct (bubble_changes x y r) as [l E]. rewrite E. cbn [negb].
  pose proof (bubble_length _ _ _ _ _ E) as Hlen.
  change (S (length (y :: r))) with (length (x :: y :: r)) in Hlen.
  rewrite <- Hlen. apply IH. rewrite Hlen. exact Hl.
Qed.

End AlwaysBelow.

End SorterEnds.

Lemma generic_sorter_ends_witness :
  exists r,
    generic_sorter (fun a b : Z => Ret (PInt (a - b)))
      (length [1%Z; 3%Z; 2%Z] * length [1%Z; 3%Z; 2%Z]) [1%Z; 3%Z; 2%Z]
    = Some (Ret r).
Proof.
  apply (generic_sorter_ends (fun a b : Z => Ret (PInt (a - b)))).
  - intros a b. eexists. reflexivity.
  - intros a b. unfold below. cbn [pynum_sgn].
    intros H. apply Z.ltb_lt in H. apply Z.ltb_ge. lia.
Defined.

Lemma generic_sorter_never_ends_witness :
  generic_sorter (fun _ _ : Z => Ret (PInt (-1))) 1000 [1%Z; 2%Z] = None.
Proof.
  apply (generic_sorter_never_ends (fun _ _ : Z => Ret (PInt (-1)))).
  - intros a b. reflexivity.
  - simpl. lia.
Defined.

(** ** Sorted lists of versions *)

Lemma compare_versions_below a b :
  below compare_versions a b = true -> below compare_versions b a = false.
Proof.
  unfold below.
  destruct (compare_versions_swap_values a b) as (r & r' & -> & -> & _ & Hneg).
  intros H. apply Z.ltb_lt in H. apply Z.ltb_ge. specialize (Hneg H). lia.
Qed.

(** X16. [get_newer_version] returns for every list of strings: it gives
    the strings of the input in an order in which no string is directly
    followed by one that [compare_versions] puts above it. *)
Theorem get_newer_version_sorted (versions : list string) :
  exists r,
    get_newer_version (length versions * length versions) versions
    = Some (Ret r)
    /\ Permutation versions r
    /\ Sorted (not_below compare_versions) r.
Proof.
  unfold get_newer_version.
  destruct (generic_sorter_returns compare_versions compare_versions_total
              compare_versions_below versions) as [r Hr].
  exists r. split; [exact Hr|]. eapply generic_sorter_sound_pair, Hr.
Qed.

Lemma pynum_is_zero_sgn r : pynum_is_zero r = true <-> pynum_sgn r = 0%Z.
Proof.
  destruct r as [z|[n d]]; cbn [pynum_is_zero pynum_sgn].
  - rewrite Z.eqb_eq. destruct z; simpl; split; congruence.
  - rewrite Qeq_bool_iff. unfold Qeq. cbn [Qnum Qden].
    rewrite Z.mul_1_r, Z.mul_0_l, Z.sgn_null_iff. reflexivity.
Qed.

Lemma const_cmp_swap a b : const_cmp b a = (- const_cmp a b)%Z.
Proof.
  unfold const_cmp. rewrite (String.compare_antisym a b).
  destruct (String.compare b a); reflexivity.
Qed.

Lemma entropy_compare_versions_total ver_data ver_data2 :
  exists rc, entropy_compare_versions ver_data ver_data2 = Ret rc.
Proof.
  destruct ver_data as [[a_ver a_tag] a_rev], ver_data2 as [[b_ver b_tag] b_rev].
  unfold entropy_compare_versions.
  destruct (compare_versions_total a_ver b_ver) as [c Hc].
  destruct (pynum_is_zero (if truthy a_tag && truthy b_tag then _ else _));
    [rewrite Hc|]; cbn [mbind outcome_bind];
    repeat match goal with |- context [if ?b then _ else _] => destruct b end;
    eauto.
Qed.

(** The end of [entropy_compare_versions], from the answer [rc] of the
    comparison of the versions on. *)
Lemma entropy_tiebreak_swap (c c' : pynum) (t a_rev b_rev : Z) :
  ((pynum_sgn c < 0)%Z -> (0 < pynum_sgn c')%Z) ->
  ((pynum_sgn c' < 0)%Z -> (0 < pynum_sgn c)%Z) ->
  (t = (-1)%Z \/ t = 0%Z \/ t = 1%Z) ->
  forall r r',
  (if pynum_is_zero c then
     if (t <? 0)%Z then Ret (PInt (-1))
     else if (0 <? t)%Z then Ret (PInt 1)
     else if (b_rev <? a_rev)%Z then Ret (PInt 1)
     else if (a_rev <? b_rev)%Z then Ret (PInt (-1))
     else Ret (PInt 0)
   else Ret c) = Ret r ->
  (if pynum_is_zero c' then
     if (- t <? 0)%Z then Ret (PInt (-1))
     else if (0 <? - t)%Z then Ret (PInt 1)
     else if (a_rev <? b_rev)%Z then Ret (PInt 1)
     else if (b_rev <? a_rev)%Z then Ret (PInt (-1))
     else Ret (PInt 0)
   else Ret c') = Ret r' ->
  (pynum_sgn r < 0)%Z -> (0 <= pynum_sgn r')%Z.
Proof.
  intros Hneg Hneg' Ht r r'.
  pose proof (pynum_is_zero_sgn c) as Hzc.
  pose proof (pynum_is_zero_sgn c') as Hzc'.
  destruct (pynum_is_zero c) eqn:Ec.
  - assert (Hc : pynum_sgn c = 0%Z) by now apply Hzc.
    assert (Hc' : (0 <= pynum_sgn c')%Z).
    { destruct (Z.lt_ge_cases (pynum_sgn c') 0) as [Hlt|]; [|lia].
      specialize (Hneg' Hlt). lia. }
    destruct (pynum_is_zero c') eqn:Ec'.
    + destruct Ht as [-> | [-> | ->]]; cbn [Z.ltb Z.compare Z.opp].
      * intros [= <-] [= <-]. cbn. lia.
      * destruct (Z.ltb_spec b_rev a_rev), (Z.ltb_spec a_rev b_rev);
          intros [= <-] [= <-]; cbn; lia.
      * intros [= <-] [= <-]. cbn. lia.
    + intros _ [= <-] _. exact Hc'.
  - intros [= <-] Hr' Hlt. specialize (Hneg Hlt).
    destruct (pynum_is_zero c') eqn:Ec'.
    + assert (pynum_sgn c' = 0%Z) by now apply Hzc'. lia.
    + injection Hr' as <-. lia.
Qed.

Lemma entropy_compare_versions_below a b :
  below entropy_compare_versions a b = true ->
  below entropy_compare_versions b a = false.
Proof.
  destruct a as [[a_ver a_tag] a_rev], b as [[b_ver b_tag] b_rev].
  destruct (entropy_compare_versions_total (a_ver, a_tag, a_rev)
              (b_ver, b_tag, b_rev)) as [r Hr].
  destruct (entropy_compare_versions_total (b_ver, b_tag, b_rev)
              (a_ver, a_tag, a_rev)) as [r' Hr'].
  unfold below. rewrite Hr, Hr'.
  intros Hlt. apply Z.ltb_lt in Hlt. apply Z.ltb_ge.
  revert Hr Hr' Hlt. unfold entropy_compare_versions.
  rewrite (andb_comm (truthy b_tag)).
  unfold entropy_compare_package_tags. rewrite (const_cmp_swap a_tag b_tag).
  destruct (compare_versions_swap_values a_ver b_ver)
    as (c & c' & Hc & Hc' & _ & Hneg).
  destruct (compare_versions_swap_values b_ver a_ver)
    as (d & d' & Hd & Hd' & _ & Hneg').
  rewrite Hc in Hd'. rewrite Hc' in Hd. injection Hd as <-. injection Hd' as <-.
  rewrite Hc, Hc'.
  pose proof (const_cmp_values a_tag b_tag) as Ht.
  destruct (truthy a_tag && truthy b_tag).
  - destruct Ht as [Ht | [Ht | Ht]]; rewrite Ht;
      cbn [pynum_is_zero Z.eqb Z.opp mbind outcome_bind].
    + intros [= <-] [= <-]. cbn. lia.
    + exact (entropy_tiebreak_swap c c' 0 a_rev b_rev Hneg Hneg'
               (or_intror (or_introl eq_refl)) r r').
    + intros [= <-] [= <-]. cbn. lia.
  - cbn [pynum_is_zero Z.eqb mbind outcome_bind].
    exact (entropy_tiebreak_swap c c' _ a_rev b_rev Hneg Hneg' Ht r r').
Qed.

(** X17. [get_entropy_newer_version] returns for every list of triples of
    a version, a tag and a revision: it gives the triples of the input in
    an order in which no triple is directly followed by one that
    [entropy_compare_versions] puts above it. *)
Theorem get_entropy_newer_version_sorted
    (versions : list (string * string * Z)) :
  exists r,
    get_entropy_newer_version (length versions * length versions) versions
    = Some (Ret r)
    /\ Permutation versions r
    /\ Sorted (not_below entropy_compare_versions) r.
Proof.
  unfold get_entropy_newer_version.
  destruct (generic_sorter_returns entropy_compare_versions
              entropy_compare_versions_total
              entropy_compare_versions_below versions) as [r Hr].
  exists r. split; [exact Hr|]. eapply generic_sorter_sound_pair, Hr.
Qed.

(** ** What [parse()] hands over *)

Section Evaluation.

Variable atomMatch : string -> Z * Z.

Local Abbreviation evaluate := (evaluate_item atomMatch).
Local Abbreviation all_matched := (all_matched atomMatch).
Local Abbreviation evaluates_well := (evaluates_well atomMatch).

Lemma first_match_matched l leaves :
  first_match atomMatch l = Some (true, leaves) -> all_matched leaves.
Proof.
  induction l as [|x l IH]; simpl; [discriminate|].
  destruct (dependency atomMatch x) eqn:E; [|exact IH].
  intros [= <-]. repeat constructor. exact E.
Qed.

Lemma forallb_matched l :
  forallb (dependency atomMatch) l = true -> all_matched l.
Proof.
  intros H. apply List.Forall_forall. intros x Hx.
  rewrite forallb_forall in H. now apply H.
Qed.

Lemma and_members_well l : forall outcomes,
  List.Forall evaluates_well l -> all_matched outcomes ->
  (forall leaves,
      and_members atomMatch evaluate l outcomes = Ret (Some (true, leaves)) ->
      all_matched leaves)
  /\ (forall e, and_members atomMatch evaluate l outcomes = Raise e ->
                parser_exn e).
Proof.
  induction l as [|x l IH]; intros outcomes Hl Ho; simpl.
  - split; [now intros leaves [= <-]|discriminate].
  - apply List.Forall_cons_iff in Hl as [[Hx He] Hl].
    destruct (is_tok LOGIC_AND x); [now apply IH|].
    destruct x as [s|g].
    + destruct (dependency atomMatch s) eqn:E.
      * apply IH; [exact Hl|]. apply List.Forall_app. split; [exact Ho|].
        repeat constructor. exact E.
      * split; discriminate.
    + destruct (evaluate (Sub g)) as [[[[] leaves']|]|e] eqn:Eg.
      * apply IH; [exact Hl|]. apply List.Forall_app. split; [exact Ho|].
        now apply Hx.
      * split; discriminate.
      * split; [discriminate|]. intros e [= <-]. now right.
      * split; [discriminate|]. intros e' [= <-]. now apply He.
Qed.

Lemma or_members_well l :
  List.Forall evaluates_well l ->
  (forall leaves,
      or_members atomMatch evaluate l = Ret (Some (true, leaves)) ->
      all_matched leaves)
  /\ (forall e, or_members atomMatch evaluate l = Raise e -> parser_exn e).
Proof.
  induction l as [|x l IH]; intros Hl; simpl.
  - split; discriminate.
  - apply List.Forall_cons_iff in Hl as [[Hx He] Hl].
    destruct (is_tok LOGIC_OR x); [now apply IH|].
    destruct x as [s|g].
    + destruct (dependency atomMatch s) eqn:E; [|now apply IH].
      split; [|discriminate]. intros leaves [= <-]. repeat constructor. exact E.
    + destruct (evaluate (Sub g)) as [[[[] leaves']|]|e] eqn:Eg.
      * split; [|discriminate]. intros leaves [= <-]. now apply Hx.
      * now apply IH.
      * split; [discriminate|]. intros e [= <-]. now right.
      * split; [discriminate|]. intros e' [= <-]. now apply He.
Qed.

Lemma evaluate_item_well x : evaluates_well x.
Proof.
  induction x as [s|iterable IH] using item_nested_ind.
  - split; discriminate.
  - unfold evaluates_well. cbn [evaluate_item].
    destruct (tok_in LOGIC_AND iterable && tok_in LOGIC_OR iterable).
    { split; [discriminate|]. intros e [= <-]. now left. }
    destruct (List.filter isinstance_list iterable).
    + destruct (tok_in LOGIC_AND iterable).
      * destruct (forallb _ _) eqn:E; split; try discriminate.
        intros leaves [= <-]. now apply forallb_matched.
      * destruct (tok_in LOGIC_OR iterable).
        -- split; [|discriminate]. intros leaves [= H].
           eapply first_match_matched, H.
        -- split; [discriminate|]. intros e [= <-]. now left.
    + destruct (tok_in LOGIC_AND iterable).
      * apply and_members_well; [exact IH|constructor].
      * destruct (tok_in LOGIC_OR iterable); [now apply or_members_well|].
        split; discriminate.
Qed.

Lemma parse_cases dep :
  (exists matched leaves,
      parse atomMatch dep = Some (Ret (matched, leaves))
      /\ (matched = true -> all_matched leaves)
      /\ (matched = false -> leaves = []))
  \/ parse atomMatch dep = Some (Raise TypeError).
Proof.
  unfold parse.
  destruct (encode_sub_enough_fuel (String.append "(" (String.append dep ")")))
    as [[l ->]| ->].
  2:{ left. exists false, []. split; [reflexivity|]. split; [discriminate|auto]. }
  destruct (evaluate_item_well (Sub l)) as [Hm He].
  unfold evaluate_subs.
  destruct (evaluate (Sub l)) as [[[matched leaves]|]|e] eqn:E.
  - left. exists matched, leaves. split; [reflexivity|]. split.
    + intros ->. now apply Hm.
    + intros ->. eapply evaluate_subs_false. exact E.
  - now right.
  - destruct (He e eq_refl) as [-> | ->]; [|now right].
    left. exists false, []. split; [reflexivity|]. split; [discriminate|auto].
Qed.

End Evaluation.

(** X18. [parse()] comes to an end on every dependency string and with
    every repository, and it ends in one of two ways: it returns a pair, or
    it raises [TypeError]; no other exception leaves it. *)
Theorem parse_pair_or_type_error (atomMatch : string -> Z * Z) (dep : string) :
  (exists matched leaves, parse atomMatch dep = Some (Ret (matched, leaves)))
  \/ parse atomMatch dep = Some (Raise TypeError).
Proof.
  destruct (parse_cases atomMatch dep) as [(m & l & H & _)|H]; eauto.
Qed.

(** X19. The list that [parse()] returns with [True] holds only
    dependencies that the repository matches; with [False] the list is
    empty. *)
Theorem parse_reports_matched (atomMatch : string -> Z * Z) (dep : string)
    (matched : bool) (leaves : list string) :
  parse atomMatch dep = Some (Ret (matched, leaves)) ->
  if matched then all_matched atomMatch leaves else leaves = [].
Proof.
  intros H.
  destruct (parse_cases atomMatch dep) as [(m & l & H' & Ht & Hf)|H'];
    rewrite H' in H; [|discriminate].
  injection H as <- <-. destruct m; auto.
Qed.

Lemma parse_reports_matched_witness :
  let atomMatch := fun s : string =>
    if String.eqb s "a" then ((-1)%Z, 1%Z) else (1%Z, 0%Z) in
  parse atomMatch "(a | b) & c" = Some (Ret (true, ["b"; "c"]))
  /\ all_matched atomMatch ["b"; "c"].
Proof.
  intros atomMatch. split; [reflexivity|].
  apply (parse_reports_matched atomMatch "(a | b) & c" true ["b"; "c"]).
  reflexivity.
Defined.

(** ** Conjunctions *)

Section AndLists.

Variable atomMatch : string -> Z * Z.

Local Abbreviation evaluate := (evaluate_item atomMatch).
Local Abbreviation member_matches := (member_matches atomMatch).
Local Abbreviation member_fails := (member_fails atomMatch).

Lemma and_members_drop_tok l outcomes :
  and_members atomMatch evaluate l outcomes
  = and_members atomMatch evaluate (drop_tok LOGIC_AND l) outcomes.
Proof.
  revert outcomes. induction l as [|x l IH]; intros outcomes; [reflexivity|].
  unfold drop_tok in *. simpl.
  destruct (is_tok LOGIC_AND x) eqn:E; simpl; [apply IH|].
  rewrite E. destruct x as [s|g].
  - destruct (dependency atomMatch s); [apply IH|reflexivity].
  - destruct (evaluate (Sub g)) as [[[[] ?]|]|]; try reflexivity. apply IH.
Qed.

(** Without nested lists, the test of all the members and the loop
    agree. *)
Lemma forallb_and_members l outcomes :
  List.filter isinstance_list l = [] ->
  and_members atomMatch evaluate l outcomes
  = let iterable := map item_str (drop_tok LOGIC_AND l) in
    if forallb (dependency atomMatch) iterable
    then Ret (Some (true, outcomes ++ iterable))
    else Ret (Some (false, [])).
Proof.
  revert outcomes. induction l as [|x l IH]; intros outcomes.
  - intros _. cbn. now rewrite app_nil_r.
  - unfold drop_tok in *. simpl.
    destruct x as [s|g]; simpl; [|discriminate].
    intros Hl. destruct (String.eqb s LOGIC_AND); simpl; [auto|].
    destruct (dependency atomMatch s); [|reflexivity].
    rewrite IH by assumption. cbv zeta.
    destruct (forallb _ _); [|reflexivity].
    now rewrite <- app_assoc.
Qed.

Lemma evaluate_and_list iterable :
  tok_in LOGIC_AND iterable = true ->
  tok_in LOGIC_OR iterable = false ->
  evaluate_subs atomMatch iterable = and_members atomMatch evaluate iterable [].
Proof.
  intros Hand Hor. unfold evaluate_subs. simpl. rewrite Hor, Hand. simpl.
  destruct (List.filter isinstance_list iterable) eqn:E; [|reflexivity].
  now rewrite forallb_and_members.
Qed.

Lemma and_members_all l : forall leaves outcomes,
  Forall (fun x => is_tok LOGIC_AND x = false) l ->
  Forall2 member_matches l leaves ->
  and_members atomMatch evaluate l outcomes
  = Ret (Some (true, outcomes ++ concat leaves)).
Proof.
  induction l as [|x l IH]; intros leaves outcomes Htok Hall.
  - apply Forall2_nil_inv_l in Hall as ->. cbn. now rewrite app_nil_r.
  - apply Forall2_cons_inv_l in Hall as (lx & leaves' & Hx & Hall & ->).
    apply Forall_cons in Htok as [Hx' Htok].
    cbn [and_members concat]. rewrite Hx'.
    unfold member_matches, member_outcome in Hx.
    destruct x as [s|g].
    + destruct (dependency atomMatch s); [|discriminate].
      injection Hx as <-. rewrite (IH leaves') by assumption.
      now rewrite <- app_assoc.
    + rewrite Hx, (IH leaves') by assumption. now rewrite <- app_assoc.
Qed.

Lemma and_members_first_failure pre : forall m post leaves outcomes,
  Forall (fun x => is_tok LOGIC_AND x = false) (pre ++ m :: post) ->
  Forall2 member_matches pre leaves ->
  member_fails m ->
  and_members atomMatch evaluate (pre ++ m :: post) outcomes
  = Ret (Some (false, [])).
Proof.
  induction pre as [|x pre IH]; intros m post leaves outcomes Htok Hpre Hm.
  - cbn [app] in *. apply Forall_cons in Htok as [Hm' _].
    cbn [and_members]. rewrite Hm'. destruct Hm as [ls Hm].
    unfold member_outcome in Hm. destruct m as [s|g].
    + destruct (dependency atomMatch s); [discriminate|reflexivity].
    + now rewrite Hm.
  - apply Forall2_cons_inv_l in Hpre as (lx & leaves' & Hx & Hpre & ->).
    cbn [app] in *. apply Forall_cons in Htok as [Hx' Htok].
    cbn [and_members]. rewrite Hx'.
    unfold member_matches, member_outcome in Hx.
    destruct x as [s|g].
    + destruct (dependency atomMatch s); [|discriminate]. eapply IH; eauto.
    + rewrite Hx. eapply IH; eauto.
Qed.

End AndLists.

(** X20. A conjunction is evaluated from left to right.  When every member
    matches, the result is [True] with the leaves of the members, in their
    order; at the first member that does not match, the result is
    [(False, [])] and the members after it are not evaluated. *)
Theorem and_list_all_or_nothing (atomMatch : string -> Z * Z)
    (iterable : list item) :
  tok_in LOGIC_AND iterable = true ->
  tok_in LOGIC_OR iterable = false ->
  (forall leaves,
      Forall2 (member_matches atomMatch) (drop_tok LOGIC_AND iterable) leaves ->
      evaluate_subs atomMatch iterable = Ret (Some (true, concat leaves)))
  /\ (forall pre m post leaves,
        drop_tok LOGIC_AND iterable = pre ++ m :: post ->
        Forall2 (member_matches atomMatch) pre leaves ->
        member_fails atomMatch m ->
        evaluate_subs atomMatch iterable = Ret (Some (false, []))).
Proof.
  intros Hand Hor. rewrite evaluate_and_list, and_members_drop_tok by assumption.
  pose proof (drop_tok_not_tok LOGIC_AND iterable) as Htok.
  split.
  - intros leaves Hall. now rewrite (and_members_all _ _ leaves).
  - intros pre m post leaves Hsplit Hpre Hm. rewrite Hsplit in *.
    eapply and_members_first_failure; eauto.
Qed.

Lemma and_list_all_or_nothing_witness :
  let atomMatch := fun s : string =>
    if String.eqb s "b" then ((-1)%Z, 1%Z) else (1%Z, 0%Z) in
  evaluate_subs atomMatch [Str "a"; Str "&"; Sub [Str "c"; Str "|"; Str "d"]]
  = Ret (Some (true, concat [["a"]; ["c"]]))
  /\ evaluate_subs atomMatch [Str "a"; Str "&"; Str "b"; Str "&"; Sub []]
     = Ret (Some (false, [])).
Proof.
  intros atomMatch. split.
  - apply (proj1 (and_list_all_or_nothing atomMatch
                    [Str "a"; Str "&"; Sub [Str "c"; Str "|"; Str "d"]]
                    eq_refl eq_refl)).
    repeat constructor.
  - apply (proj2 (and_list_all_or_nothing atomMatch
                    [Str "a"; Str "&"; Str "b"; Str "&"; Sub []]
                    eq_refl eq_refl) [Str "a"] (Str "b") [Sub []] [["a"]]).
    + reflexivity.
    + repeat constructor.
    + exists []. reflexivity.
Defined.

(** ** Blanks *)

Lemma split_loop_remove_spaces encode s st :
  split_loop encode s st = split_loop encode (remove_spaces s) st.
Proof.
  revert st. induction s as [|c s IH]; intros st; [reflexivity|].
  cbn [remove_spaces]. destruct (Ascii.eqb c " ") eqn:E.
  - cbn [split_loop]. unfold split_step. rewrite E. apply IH.
  - cbn [split_loop]. destruct (split_step encode c st) as [[st'|e]|]; auto.
Qed.

Lemma split_step_more encode encode' c st r :
  (forall x y, encode x = Some y -> encode' x = Some y) ->
  split_step encode c st = Some r -> split_step encode' c st = Some r.
Proof.
  intros Hmore. unfold split_step.
  repeat match goal with
         | |- context [if ?b then _ else _] => destruct b; [auto; fail|]
         | |- context [if ?b then _ else _] => destruct b
         end; auto.
  destruct (encode _) as [y|] eqn:E; [|discriminate].
  now rewrite (Hmore _ _ E).
Qed.

Lemma split_loop_more encode encode' s st r :
  (forall x y, encode x = Some y -> encode' x = Some y) ->
  split_loop encode s st = Some r -> split_loop encode' s st = Some r.
Proof.
  intros Hmore. revert st. induction s as [|c s IH]; intros st; [auto|].
  cbn [split_loop].
  destruct (split_step encode c st) as [y|] eqn:E; [|discriminate].
  rewrite (split_step_more _ _ _ _ _ Hmore E).
  destruct y as [st'|e]; auto.
Qed.

Lemma split_subs_more encode encode' s r :
  (forall x y, encode x = Some y -> encode' x = Some y) ->
  split_subs encode s = Some r -> split_subs encode' s = Some r.
Proof.
  intros Hmore. unfold split_subs.
  destruct (split_loop encode s _) as [y|] eqn:E; [|discriminate].
  now rewrite (split_loop_more _ _ _ _ _ Hmore E).
Qed.

(** More fuel does not change an answer. *)
Lemma encode_sub_fuel_more fuel : forall fuel' dep r,
  (fuel <= fuel')%nat ->
  encode_sub_fuel fuel dep = Some r -> encode_sub_fuel fuel' dep = Some r.
Proof.
  induction fuel as [|fuel IH]; intros fuel' dep r Hle; [discriminate|].
  destruct fuel' as [|fuel']; [lia|].
  cbn [encode_sub_fuel]. destruct (negb (truthy _)); [auto|].
  destruct (split_subs (encode_sub_fuel fuel) _) as [y|] eqn:E; [|discriminate].
  rewrite (split_subs_more _ (encode_sub_fuel fuel') _ _
             (fun x y => IH fuel' x y ltac:(lia)) E).
  auto.
Qed.

Lemma split_subs_fuel fuel fuel' s :
  (String.length s < fuel)%nat -> (fuel <= fuel')%nat ->
  split_subs (encode_sub_fuel fuel') s = split_subs (encode_sub_fuel fuel) s.
Proof.
  intros Hs Hle.
  destruct (split_subs (encode_sub_fuel fuel) s) as [r|] eqn:E.
  - eapply split_subs_more; [|exact E].
    intros x y. now apply encode_sub_fuel_more.
  - exfalso. eapply (split_subs_total (encode_sub_fuel fuel) (pred fuel));
      [| |exact E].
    + intros x Hx. apply encode_sub_fuel_total. lia.
    + lia.
Qed.

Lemma length_remove_spaces s :
  (String.length (remove_spaces s) <= String.length s)%nat.
Proof.
  induction s as [|c s IH]; simpl; [lia|].
  destruct (Ascii.eqb c " "); simpl; lia.
Qed.

(** X21. The blanks of a dependency string do not count: [parse()] gives
    the same answer on the string and on the string without its space
    characters. *)
Theorem parse_ignores_blanks (atomMatch : string -> Z * Z) (dep : string) :
  parse atomMatch dep = parse atomMatch (remove_spaces dep).
Proof.
  unfold parse. rewrite !encode_sub_wrap.
  assert (Hsame :
    split_subs (encode_sub_fuel (String.length ("(" +:+ dep +:+ ")"))) dep
    = split_subs (encode_sub_fuel
                    (String.length ("(" +:+ remove_spaces dep +:+ ")")))
        (remove_spaces dep)).
  { pose proof (length_remove_spaces dep) as Hl.
    unfold split_subs at 1. rewrite split_loop_remove_spaces.
    fold (split_subs (encode_sub_fuel (String.length ("(" +:+ dep +:+ ")")))
            (remove_spaces dep)).
    apply split_subs_fuel; rewrite !length_append; simpl; lia. }
  destruct dep as [|c dep]; [reflexivity|].
  cbn [truthy negb]. rewrite Hsame.
  destruct (remove_spaces (String c dep)) eqn:E; [|reflexivity].
  reflexivity.
Qed.

(** ** The table of the locks *)

Lemma file_lock_setup_consistent lock_path w :
  lock_map_consistent w ->
  let '(mapped, w') := file_lock_setup lock_path w in
  lock_map_consistent w'
  /\ FILE_LOCK_MAP w' !! lock_path = Some mapped
  /\ files w' = files w /\ flocks w' = flocks w /\ foreign w' = foreign w.
Proof.
  intros [Ha Hb]. unfold file_lock_setup.
  destruct (FILE_LOCK_MAP w !! lock_path) as [mapped|] eqn:E.
  - split; [exact (conj Ha Hb)|]. auto.
  - split; [|cbn; rewrite lookup_insert_eq; auto].
    split; cbn.
    + intros k m. destruct (decide (k = lock_path)) as [->|Hne].
      * rewrite lookup_insert_eq. intros [= <-]. cbn.
        repeat split; [lia|discriminate|discriminate].
      * rewrite lookup_insert_ne by congruence. apply Ha.
    + intros k. rewrite Hb. destruct (decide (k = lock_path)) as [->|Hne].
      * rewrite lookup_insert_eq, E. split.
        -- intros (m & Hm & _). discriminate.
        -- intros (m & [= <-] & Hm). discriminate.
      * now rewrite lookup_insert_ne by congruence.
Qed.

Lemma set_mapped_consistent lock_path mapped w :
  lock_map_consistent w ->
  path mapped = lock_path -> (0 <= count mapped)%Z ->
  (forall n, ref mapped = Some n -> n = lock_path /\ (1 <= count mapped)%Z) ->
  (is_Some (flocks w !! lock_path) <-> ref mapped = Some lock_path) ->
  lock_map_consistent (set_mapped lock_path mapped w).
Proof.
  intros [Ha Hb] Hp Hc Hr Hf. split; cbn.
  - intros k m. destruct (decide (k = lock_path)) as [->|Hne].
    + rewrite lookup_insert_eq. intros [= <-]. auto.
    + rewrite lookup_insert_ne by congruence. apply Ha.
  - intros k. destruct (decide (k = lock_path)) as [->|Hne].
    + rewrite lookup_insert_eq, Hf. split; [eauto|].
      now intros (m & [= <-] & Hm).
    + rewrite lookup_insert_ne by congruence. apply Hb.
Qed.

Lemma touch_consistent q w :
  lock_map_consistent w -> lock_map_consistent (touch q w).
Proof. unfold touch. destruct (files w !! q); auto. Qed.

Lemma lock_resource_consistent e lock_path blocking shared w :
  lock_map_consistent w ->
  ends_in (lock_resource e lock_path blocking shared w) lock_map_consistent.
Proof.
  intros Hw. unfold lock_resource.
  pose proof (file_lock_setup_consistent lock_path w Hw) as Hs.
  destruct (file_lock_setup lock_path w) as [mapped w0].
  destruct Hs as (Hw0 & Hm & _ & _ & _).
  destruct (ref mapped) as [n|] eqn:Er; [exact Hw0|].
  destruct (proj1 Hw0 _ _ Hm) as (Hp & Hc & _).
  assert (Hno : ~ is_Some (flocks w0 !! lock_path)).
  { rewrite (proj2 Hw0). intros (m & Hm' & Hr). congruence. }
  assert (Hgranted : lock_map_consistent
    (set_mapped lock_path
       {| count := count mapped + 1; ref := Some lock_path; path := lock_path |}
       (lock_acquired e lock_path mapped shared (touch lock_path w0)))).
  { pose proof (touch_consistent lock_path w0 Hw0) as [Ha Hb].
    split; cbn.
    - intros k m. destruct (decide (k = lock_path)) as [->|Hne].
      + rewrite lookup_insert_eq. intros [= <-]. cbn.
        repeat split; [lia|congruence|lia].
      + rewrite !lookup_insert_ne by congruence. apply Ha.
    - intros k. rewrite Hp. destruct (decide (k = lock_path)) as [->|Hne].
      + rewrite !lookup_insert_eq. split; [eauto|]. intros _. eauto.
      + rewrite !lookup_insert_ne by congruence. apply Hb. }
  assert (Hpid : lock_map_consistent
    (set_mapped lock_path
       {| count := count mapped + 1; ref := ref mapped; path := path mapped |}
       (touch lock_path w0))).
  { apply set_mapped_consistent; cbn.
    - now apply touch_consistent.
    - exact Hp.
    - lia.
    - rewrite Er. discriminate.
    - rewrite Er. split; [|discriminate]. intros H. exfalso. apply Hno.
      unfold touch in H. destruct (files w0 !! lock_path); exact H. }
  assert (Hmt : FILE_LOCK_MAP (touch lock_path w0) !! lock_path = Some mapped).
  { unfold touch. destruct (files w0 !! lock_path); exact Hm. }
  unfold file_lock_create. rewrite !Hp.
  destruct (open_error e lock_path) as [[]|]; cbn; try exact Hw0.
  destruct blocking.
  - destruct (flock_free _ _ _); cbn; [|exact I].
    rewrite lookup_insert_eq. cbn. rewrite Hp. exact Hgranted.
  - destruct (flock_free _ _ _); cbn.
    + rewrite lookup_insert_eq. cbn. rewrite Hp. exact Hgranted.
    + destruct (String.eqb _ _); cbn.
      * rewrite Hmt. exact Hpid.
      * now apply touch_consistent.
Qed.

Lemma unlock_resource_consistent e lock_path w :
  lock_map_consistent w ->
  ends_in (unlock_resource e lock_path w) lock_map_consistent.
Proof.
  intros Hw. unfold unlock_resource.
  pose proof (file_lock_setup_consistent lock_path w Hw) as Hs.
  destruct (file_lock_setup lock_path w) as [mapped w0].
  destruct Hs as (Hw0 & Hm & _ & _ & _).
  destruct (proj1 Hw0 _ _ Hm) as (Hp & Hc & Hr).
  set (mapped' := if (0 <? count mapped)%Z then _ else mapped).
  assert (Hp' : path mapped' = lock_path)
    by (subst mapped'; destruct (0 <? count mapped)%Z; exact Hp).
  assert (Hr' : ref mapped' = ref mapped)
    by (subst mapped'; destruct (0 <? count mapped)%Z; reflexivity).
  assert (Hc' : count mapped' = Z.max 0 (count mapped - 1)).
  { subst mapped'. destruct (Z.ltb_spec 0 (count mapped)); cbn; lia. }
  assert (Hset : (0 < count mapped')%Z \/ ref mapped = None ->
                 lock_map_consistent (set_mapped lock_path mapped' w0)).
  { intros Hcase. apply set_mapped_consistent; auto; [lia| |].
    - rewrite Hr'. intros n Hn. destruct (Hr n Hn) as [-> ?].
      split; [reflexivity|]. destruct Hcase as [?|Hnone]; [lia|congruence].
    - rewrite (proj2 Hw0), Hr'. split.
      + intros (m & Hm' & Hrm). congruence.
      + intros Hrm. eauto. }
  destruct (Z.ltb_spec 0 (count mapped')); [apply Hset; auto|].
  destruct (ref mapped') as [name|] eqn:Ern.
  2:{ apply Hset. right. congruence. }
  assert (name = lock_path) by (apply (Hr name); congruence). subst name.
  assert (Hz : count mapped' = 0%Z) by lia.
  assert (Hbase : lock_map_consistent w0) by exact Hw0.
  assert (Hrel : forall w1,
    FILE_LOCK_MAP w1 = FILE_LOCK_MAP (set_mapped lock_path mapped' w0) ->
    flocks w1 = flocks w0 ->
    lock_map_consistent (release_ref lock_path lock_path mapped' w1)).
  { intros w1 Hmap Hfl. destruct Hw0 as [Ha Hb]. split; cbn.
    - intros k m. destruct (decide (k = lock_path)) as [->|Hne].
      + rewrite lookup_insert_eq. intros [= <-]. cbn.
        repeat split; [exact Hp'|lia|discriminate|discriminate].
      + rewrite lookup_insert_ne by congruence. rewrite Hmap. cbn.
        rewrite lookup_insert_ne by congruence. apply Ha.
    - intros k. rewrite Hfl. destruct (decide (k = lock_path)) as [->|Hne].
      + rewrite lookup_insert_eq, lookup_delete_eq. split.
        * intros [x Hx]. discriminate.
        * intros (m & [= <-] & Hm'). discriminate.
      + rewrite lookup_insert_ne, lookup_delete_ne by congruence.
        rewrite Hmap. cbn. rewrite lookup_insert_ne by congruence. apply Hb. }
  destruct (remove_error e lock_path) as [[]|]; cbn; apply Hrel; reflexivity.
Qed.

(** X22. The table of the locks stays consistent with the advisory locks
    that the process holds, through every acquisition and every release,
    whatever the system answers: the process holds the advisory lock of a
    file exactly when the table has a reference for it, and a reference
    comes with a count of one at least. *)
Theorem lock_map_stays_consistent
    (e : env) (lock_path : string) (blocking shared : bool) (w : world) :
  lock_map_consistent w ->
  ends_in (lock_resource e lock_path blocking shared w) lock_map_consistent
  /\ ends_in (unlock_resource e lock_path w) lock_map_consistent.
Proof.
  intros Hw. split.
  - now apply lock_resource_consistent.
  - now apply unlock_resource_consistent.
Qed.

Lemma lock_map_stays_consistent_witness :
  lock_map_consistent empty_world
  /\ ends_in (lock_resource quiet_env "/var/lock/entropy" false false empty_world)
       lock_map_consistent
  /\ ends_in (unlock_resource quiet_env "/var/lock/entropy" empty_world)
       lock_map_consistent.
Proof.
  assert (H : lock_map_consistent empty_world).
  { split.
    - intros k m Hk. cbn in Hk. rewrite lookup_empty in Hk. discriminate.
    - intros k. cbn. rewrite lookup_empty. split.
      + intros [x Hx]. discriminate.
      + intros (m & Hm & _). rewrite lookup_empty in Hm. discriminate. }
  split; [exact H|].
  apply (lock_map_stays_consistent quiet_env "/var/lock/entropy" false false
           empty_world H).
Defined.

(** ** Attempts that are refused *)

Lemma unlock_not_held e lock_path w :
  not_held w lock_path ->
  exists w',
    unlock_resource e lock_path w = Returns tt w'
    /\ files w' = files w /\ flocks w' = flocks w /\ foreign w' = foreign w
    /\ not_held w' lock_path.
Proof.
  unfold not_held, unlock_resource.
  assert (Hstep : forall mapped w0,
    ref mapped = None -> path mapped = lock_path ->
    exists w',
      (let mapped :=
         if (0 <? count mapped)%Z
         then {| count := count mapped - 1; ref := ref mapped;
                 path := path mapped |}
         else mapped in
       let w := set_mapped lock_path mapped w0 in
       if (0 <? count mapped)%Z then Returns tt w
       else
         match ref mapped with
         | None => Returns tt w
         | Some name =>
             match remove_error e name with
             | None =>
                 Returns tt (release_ref lock_path name mapped (unlink name w))
             | Some ENOENT | Some EROFS =>
                 Returns tt (release_ref lock_path name mapped w)
             | Some _ =>
                 Raises (IOError name) (release_ref lock_path name mapped w)
             end
         end) = Returns tt w'
      /\ files w' = files w0 /\ flocks w' = flocks w0
      /\ foreign w' = foreign w0
      /\ match FILE_LOCK_MAP w' !! lock_path with
         | Some mapped => ref mapped = None /\ path mapped = lock_path
         | None => True
         end).
  { intros mapped w0 Hr Hp. cbv zeta.
    set (mapped' := if (0 <? count mapped)%Z then _ else mapped).
    assert (Hr' : ref mapped' = None)
      by (subst mapped'; destruct (0 <? count mapped)%Z; exact Hr).
    assert (Hp' : path mapped' = lock_path)
      by (subst mapped'; destruct (0 <? count mapped)%Z; exact Hp).
    rewrite Hr'.
    exists (set_mapped lock_path mapped' w0).
    split; [destruct (0 <? count mapped')%Z; reflexivity|].
    cbn. rewrite lookup_insert_eq. auto. }
  unfold file_lock_setup.
  destruct (FILE_LOCK_MAP w !! lock_path) as [mapped|] eqn:E.
  - intros [Hr Hp]. now apply Hstep.
  - intros _.
    destruct (Hstep {| count := 0; ref := None; path := lock_path |}
                {| FILE_LOCK_MAP :=
                     <[lock_path := {| count := 0; ref := None;
                                       path := lock_path |}]> (FILE_LOCK_MAP w);
                   files := files w; flocks := flocks w;
                   foreign := foreign w |} eq_refl eq_refl)
      as (w' & H1 & H2 & H3 & H4 & H5).
    exists w'. split; [exact H1|]. split; [exact H2|]. split; [exact H3|].
    split; [exact H4|exact H5].
Qed.

Lemma touch_touch q w : touch q (touch q w) = touch q w.
Proof.
  unfold touch. destruct (files w !! q) eqn:E.
  - now rewrite E.
  - cbn. now rewrite lookup_insert_eq.
Qed.

Lemma lock_refused e lock_path shared w :
  refused e lock_path shared w ->
  exists w',
    lock_resource e lock_path false shared w = Returns false w'
    /\ files w' = files (touch lock_path w)
    /\ flocks w' = flocks w /\ foreign w' = foreign w
    /\ refused e lock_path shared w'.
Proof.
  intros (Hn & Ho & Hf & Hpid).
  unfold not_held in Hn. unfold lock_resource, file_lock_setup.
  assert (Hstep : forall mapped w0,
    ref mapped = None -> path mapped = lock_path ->
    FILE_LOCK_MAP w0 !! lock_path = Some mapped ->
    files w0 = files w -> flocks w0 = flocks w -> foreign w0 = foreign w ->
    exists w',
      match file_lock_create e lock_path mapped false shared w0 with
      | Returns acquired w1 =>
          if acquired then
            match FILE_LOCK_MAP w1 !! lock_path with
            | Some mapped =>
                Returns acquired
                  (set_mapped lock_path
                     {| count := count mapped + 1; ref := ref mapped;
                        path := path mapped |} w1)
            | None => Returns acquired w1
            end
          else Returns acquired w1
      | r => r
      end = Returns false w'
      /\ files w' = files (touch lock_path w)
      /\ flocks w' = flocks w /\ foreign w' = foreign w
      /\ refused e lock_path shared w').
  { intros mapped w0 Hr Hp Hm Hfi Hfl Hfo.
    unfold file_lock_create. rewrite Hp, Ho.
    assert (Hfree : flock_free (touch lock_path w0) lock_path shared = false).
    { rewrite flock_free_touch. unfold flock_free. now rewrite Hfo, Hfl. }
    assert (Hfiles : files (touch lock_path w0) = files (touch lock_path w)).
    { unfold touch. rewrite Hfi. destruct (files w !! lock_path); cbn; congruence. }
    assert (Hread : read128 (touch lock_path w0) lock_path
                    = read128 (touch lock_path w) lock_path).
    { unfold read128. now rewrite Hfiles. }
    rewrite Hfree. cbn [negb]. rewrite Hread, Hpid.
    eexists. split; [reflexivity|]. split; [exact Hfiles|].
    assert (Hfl' : flocks (touch lock_path w0) = flocks w)
      by (unfold touch; destruct (files w0 !! lock_path); exact Hfl).
    assert (Hfo' : foreign (touch lock_path w0) = foreign w)
      by (unfold touch; destruct (files w0 !! lock_path); exact Hfo).
    split; [exact Hfl'|]. split; [exact Hfo'|].
    split; [|split; [exact Ho|split]].
    - unfold not_held.
      replace (FILE_LOCK_MAP (touch lock_path w0)) with (FILE_LOCK_MAP w0)
        by (unfold touch; destruct (files w0 !! lock_path); reflexivity).
      rewrite Hm. auto.
    - unfold flock_free. rewrite Hfl', Hfo'. exact Hf.
    - rewrite touch_touch, Hread. exact Hpid. }
  destruct (FILE_LOCK_MAP w !! lock_path) as [mapped|] eqn:E.
  - destruct Hn as [Hr Hp]. rewrite Hr. now apply Hstep.
  - cbn [ref]. apply Hstep; cbn; auto. apply lookup_insert_eq.
Qed.

(** X23. A non-blocking attempt that is refused changes nothing but the
    table: no lock is taken and the lock file is left with its text (it is
    created empty when it was missing).  A release that follows the
    refusal removes no file and drops no lock: the lock file of the other
    holder stays. *)
Theorem refused_attempt_is_harmless
    (e : env) (lock_path : string) (shared : bool) (w : world) :
  refused e lock_path shared w ->
  exists w1 w2,
    lock_resource e lock_path false shared w = Returns false w1
    /\ unlock_resource e lock_path w1 = Returns tt w2
    /\ files w2 = files (touch lock_path w)
    /\ flocks w2 = flocks w
    /\ foreign w2 = foreign w.
Proof.
  intros Hr.
  destruct (lock_refused _ _ _ _ Hr) as (w1 & H1 & Hfi & Hfl & Hfo & Hr1).
  destruct (unlock_not_held e lock_path w1 (proj1 Hr1))
    as (w2 & H2 & Hfi2 & Hfl2 & Hfo2 & _).
  exists w1, w2. repeat split; congruence.
Qed.

Lemma refused_attempt_is_harmless_witness :
  exists w1 w2,
    lock_resource quiet_env "/var/lock/entropy" false false busy_world
    = Returns false w1
    /\ unlock_resource quiet_env "/var/lock/entropy" w1 = Returns tt w2
    /\ files w2 = files (touch "/var/lock/entropy" busy_world)
    /\ flocks w2 = flocks busy_world
    /\ foreign w2 = foreign busy_world.
Proof.
  apply (refused_attempt_is_harmless quiet_env "/var/lock/entropy" false
           busy_world).
  repeat split.
Defined.

Section Waiting.

Variable sleep : world -> world.
Variable e : env.
Variable using_resources : string.
Variable shared : bool.

Local Abbreviation wait_resources :=
  (wait_resources sleep e using_resources).
Local Abbreviation refused := (refused e using_resources shared).

(** The other processes keep the lock while the process sleeps. *)
Hypothesis sleep_refused : forall w, refused w -> refused (sleep w).

Lemma wait_loop_gives_up n : forall max_lock_count lock_count w,
  refused w ->
  (0 <= lock_count <= max_lock_count)%Z ->
  n = Z.to_nat (max_lock_count - lock_count) ->
  exists w',
    wait_loop sleep
      (fun blocking shared => lock_resources e using_resources blocking shared)
      (S n) max_lock_count lock_count shared w
    = Some (Returns true w')
    /\ refused w'.
Proof.
  induction n as [|n IH]; intros max_lock_count lock_count w Hr Hc Hn;
    cbn [wait_loop]; unfold lock_resources;
    destruct (lock_refused _ _ _ _ Hr) as (w1 & -> & _ & _ & _ & Hr1).
  - destruct (Z.leb_spec max_lock_count lock_count); [eauto|lia].
  - destruct (Z.leb_spec max_lock_count lock_count); [lia|].
    apply IH; [now apply sleep_refused|lia|lia].
Qed.

(** X24. [wait_resources] answers [False] when the lock is taken, and at
    the first attempt when nothing stands in the way; when the other
    processes keep the lock through every sleep, it gives up and answers
    [True] after [max_lock_count + 1] attempts, the first and one after
    each sleep: so many attempts end the run, and one attempt less does
    not. *)
Theorem wait_resources_answers (max_lock_count : Z) (w : world) :
  (0 <= max_lock_count)%Z ->
  (forall w1,
      lock_resources e using_resources false shared w = Returns true w1 ->
      forall fuel, wait_resources (S fuel) max_lock_count shared w
                   = Some (Returns false w1))
  /\ (refused w ->
      (exists w',
          wait_resources (S (Z.to_nat max_lock_count)) max_lock_count shared w
          = Some (Returns true w'))
      /\ wait_resources (Z.to_nat max_lock_count) max_lock_count shared w
         = None).
Proof.
  intros Hmax. split.
  - intros w1 H1 fuel. unfold ResourceWait.wait_resources, wait_resource.
    cbn [wait_loop]. now rewrite H1.
  - intros Hr. split.
    + destruct (wait_loop_gives_up (Z.to_nat max_lock_count) max_lock_count 0 w
                  Hr ltac:(lia) ltac:(f_equal; lia)) as (w' & H & _).
      eauto.
    + unfold ResourceWait.wait_resources, wait_resource.
      assert (Hgen : forall n lock_count w,
        refused w -> (0 <= lock_count)%Z ->
        (lock_count + Z.of_nat n <= max_lock_count)%Z ->
        wait_loop sleep
          (fun blocking shared => lock_resources e using_resources blocking shared)
          n max_lock_count lock_count shared w = None).
      { induction n as [|n IH]; intros lock_count w0 Hr0 Hc Hn; [reflexivity|].
        cbn [wait_loop]. unfold lock_resources.
        destruct (lock_refused _ _ _ _ Hr0) as (w1 & -> & _ & _ & _ & Hr1).
        destruct (Z.leb_spec max_lock_count lock_count); [lia|].
        apply IH; [now apply sleep_refused|lia|lia]. }
      apply Hgen; [exact Hr|lia|lia].
Qed.

End Waiting.

Lemma wait_resources_answers_witness :
  (exists w',
      wait_resources (fun w => w) quiet_env "/var/lock/entropy" 4 3 false
        busy_world
      = Some (Returns true w'))
  /\ wait_resources (fun w => w) quiet_env "/var/lock/entropy" 3 3 false
       busy_world
     = None.
Proof.
  assert (H : (0 <= 3)%Z) by lia.
  apply (proj2 (wait_resources_answers (fun w => w) quiet_env
                  "/var/lock/entropy" false (fun _ Hr => Hr) 3 busy_world H)).
  repeat split.
Defined.

(** ** Opening, closing and removing repositories *)

Section RepositoryFacts.

Variables clientdbid systemroot packagesext packagesext_webinstall : string.
Variable installed_repository : handle.
Variable settings_clear : settings -> settings.
Variables conf_remove conf_disable : string -> outcome bool.
Variable db_isfile : string -> bool.

Local Abbreviation open_repository :=
  (open_repository clientdbid systemroot installed_repository db_isfile).
Local Abbreviation remove_repository :=
  (remove_repository systemroot packagesext packagesext_webinstall
     settings_clear conf_remove conf_disable).
Local Abbreviation close_repositories := (close_repositories settings_clear).
Local Abbreviation cache_key := (get_repository_cache_key systemroot).


(** X26. [remove_repository] on an identifier that the settings do not
    know returns [False] without touching the configuration files and
    without reloading the settings: the two maps stay as they are.  The
    identifier still leaves the order and the list of enabled
    repositories, and its entry leaves the cache. *)
Theorem remove_unknown_repository (repository_id : string) (disable : bool)
    (c : client) :
  available (repositories c) !! repository_id = None ->
  excluded (repositories c) !! repository_id = None ->
  exists c',
    remove_repository repository_id disable c = (Ret false, c')
    /\ available (repositories c') = available (repositories c)
    /\ excluded (repositories c') = excluded (repositories c)
    /\ order (repositories c')
       = remove_first repository_id (order (repositories c))
    /\ enabled_repos c' = remove_first repository_id (enabled_repos c)
    /\ repodb_cache c' = delete (cache_key repository_id) (repodb_cache c).
Proof.
  intros Ha He. unfold Repository.remove_repository. rewrite Ha, He.
  cbn. eexists. split; [reflexivity|]. cbn.
  rewrite !delete_id by assumption.
  repeat split.
  destruct (bool_decide_reflect (repository_id ∈ enabled_repos c));
    [reflexivity|]. now rewrite remove_first_not_in.
Qed.

Lemma close_repositories_closed mask_clear c h :
  h ∈ closed (close_repositories mask_clear c)
  <-> h ∈ closed c
      \/ exists key, repodb_cache c !! key = Some h
                     /\ memory_db_instances c !! key = None.
Proof.
  cbn. rewrite elem_of_app, list_elem_of_fmap.
  apply or_iff_compat_l. split.
  - intros ([key h'] & -> & Hin). exists key.
    apply list_elem_of_In, List.filter_In in Hin as [Hin Hmem].
    apply list_elem_of_In, elem_of_map_to_list in Hin.
    split; [exact Hin|]. cbn in Hmem. apply negb_true_iff in Hmem.
    apply bool_decide_eq_false in Hmem.
    destruct (memory_db_instances c !! key) eqn:E; [|reflexivity].
    exfalso. apply Hmem. eauto.
  - intros (key & Hc & Hm). exists (key, h). split; [reflexivity|].
    apply list_elem_of_In, List.filter_In. split.
    + apply list_elem_of_In, elem_of_map_to_list, Hc.
    + cbn. rewrite Hm. apply negb_true_iff, bool_decide_eq_false.
      intros [x Hx]. discriminate.
Qed.

(** X27. An in-memory repository outlives [close_repositories]: when the
    settings are not cleared, opening it after the call gives the object
    that the client holds for it; and the object is not closed, when
    it was open before and the cache held it under keys of in-memory
    repositories only. *)
Theorem memory_repository_reopened (repository_id : string) (c : client)
    (repo_obj : repo_meta) (conn : handle) :
  repository_id <> clientdbid ->
  available (repositories c) !! repository_id = Some repo_obj ->
  temporary repo_obj = true ->
  memory_db_instances c !! cache_key repository_id = Some conn ->
  exists c',
    open_repository repository_id (close_repositories false c) = (Ret conn, c')
    /\ (conn ∉ closed c ->
        (forall key, repodb_cache c !! key = Some conn ->
                     is_Some (memory_db_instances c !! key)) ->
        conn ∉ closed c').
Proof.
  intros Hid Ha Ht Hm. unfold Repository.open_repository.
  apply String.eqb_neq in Hid. rewrite Hid.
  cbn [repodb_cache RepositoryClose.close_repositories].
  rewrite lookup_empty.
  unfold load_repository, get_temporary.
  cbn [repositories enabled_repos memory_db_instances
       RepositoryClose.close_repositories].
  rewrite Ha, Ht. cbn [negb]. rewrite andb_false_r. cbn [andb]. rewrite Hm.
  eexists. split; [reflexivity|].
  intros Hopen Hkeys Hin. cbn [closed] in Hin.
  change (conn ∈ closed (close_repositories false c)) in Hin.
  apply close_repositories_closed in Hin as [Hin|(key & Hc & Hk)];
    [contradiction|].
  destruct (Hkeys key Hc) as [x Hx]. congruence.
Qed.

End RepositoryFacts.


Lemma remove_unknown_repository_witness :
  exists c',
    remove_repository_here "bar" false package_client = (Ret false, c')
    /\ available (repositories c') = available (repositories package_client)
    /\ excluded (repositories c') = excluded (repositories package_client)
    /\ order (repositories c')
       = remove_first "bar" (order (repositories package_client))
    /\ enabled_repos c' = remove_first "bar" (enabled_repos package_client)
    /\ repodb_cache c' = delete ("bar", "") (repodb_cache package_client).
Proof.
  apply (remove_unknown_repository "" ".tbz2" ".etp" (fun s => s)
           (fun _ => Ret true) (fun _ => Ret true) "bar" false package_client);
    reflexivity.
Defined.

Lemma memory_repository_reopened_witness :
  exists c',
    open_repository_here "tmp"
      (close_repositories (fun s => s) false memory_client)
    = (Ret (MemoryRepository "tmp"), c')
    /\ (MemoryRepository "tmp" ∉ closed memory_client ->
        (forall key,
            repodb_cache memory_client !! key = Some (MemoryRepository "tmp") ->
            is_Some (memory_db_instances memory_client !! key)) ->
        MemoryRepository "tmp" ∉ closed c').
Proof.
  apply (memory_repository_reopened "__system__" "" InstalledRepository
           (fun s => s) (fun _ => true) "tmp" memory_client
           {| temporary := true; dbpath := "" |} (MemoryRepository "tmp"));
    [discriminate|reflexivity..].
Defined.
